(** * Fish-fry finder: geo primitives, event filtering, order form, order status

    A shallow embedding of the parts of the application that carry logic:
    - [Geo]         : src/lib/geo.ts (normalizeCityName, citiesMatch, haversineMiles)
    - [EventList]   : the memoised filter-and-sort of the event list component
    - [OrderForm]   : menu availability filter and estimated wait of the order form
    - [AdminOrders] : setStatus of the admin order page with its e-mail notification

    Conventions.  A JavaScript string is a list of code units; the model keeps
    the code units U+0000..U+00FF, one [ascii] each (Latin-1).  A JavaScript
    number used as a quantity or a prep time is an integer ([Z]).  A
    coordinate or a distance is a double, [float], with the arithmetic of
    IEEE 754; [Math.sin], [Math.cos] and [Math.atan2], which the language
    leaves to the platform, are parameters.  The event list is written over
    any number type with the operations it uses ([-], [<], [<=], [0],
    [Infinity]), and instantiated with the doubles. *)

From Stdlib Require Import ZArith NArith List Bool Ascii String Sorted Lia.
From Stdlib Require Import Floats.
From Stdlib Require Import Permutation.
From stdpp Require Import gmap strings.
Import ListNotations.

Local Open Scope list_scope.

Module Geo.

(** ** Characters *)

(** Code unit of a character. *)
Definition code (c : ascii) : N := N_of_ascii c.

Definition inRange (lo hi : N) (c : ascii) : bool :=
  ((lo <=? code c) && (code c <=? hi))%N.

(** [\w] of a regular expression without the [u] and [i] flags:
    [A-Za-z0-9_]. *)
Definition isWordChar (c : ascii) : bool :=
  inRange 65 90 c || inRange 97 122 c || inRange 48 57 c || (code c =? 95)%N.

(** [\s], which is also the set removed by [String.prototype.trim]:
    TAB, LF, VT, FF, CR, SPACE and, in Latin-1, NO-BREAK SPACE. *)
Definition isWhiteSpace (c : ascii) : bool :=
  inRange 9 13 c || (code c =? 32)%N || (code c =? 160)%N.

(** [toLowerCase] on one Latin-1 code unit: A-Z, and U+00C0..U+00DE
    except the multiplication sign U+00D7, move up by 32. *)
Definition toLowerChar (c : ascii) : ascii :=
  if inRange 65 90 c || (inRange 192 222 c && negb (code c =? 215)%N)
  then ascii_of_N (code c + 32)
  else c.

Definition toLowerCase (s : list ascii) : list ascii := map toLowerChar s.

(** ** trim *)

Fixpoint trimStart (s : list ascii) : list ascii :=
  match s with
  | c :: r => if isWhiteSpace c then trimStart r else s
  | [] => []
  end.

Fixpoint trimEnd (s : list ascii) : list ascii :=
  match s with
  | c :: r =>
      match trimEnd r with
      | [] => if isWhiteSpace c then [] else [c]
      | r' => c :: r'
      end
  | [] => []
  end.

Definition trim (s : list ascii) : list ascii := trimEnd (trimStart s).

(** ** [s.replace(/\s+/g, " ")]

    [inRun] tells that the previous character was white space, so that the
    current one belongs to a run already replaced. *)
Fixpoint collapseFrom (inRun : bool) (s : list ascii) : list ascii :=
  match s with
  | c :: r =>
      if isWhiteSpace c
      then (if inRun then collapseFrom true r else " "%char :: collapseFrom true r)
      else c :: collapseFrom false r
  | [] => []
  end.

Definition collapseWhitespace (s : list ascii) : list ascii := collapseFrom false s.

(** ** [s.replace(/\bAB\.?\b/g, rep)]

    The seven patterns have the shape [\b] literal [\.?] [\b].  The matcher
    is told whether the character before the current position is a word
    character ([prevWord]; false at the start of the string). *)

(** [\b] holds between two positions exactly when one side is a word
    character and the other is not; the end of the string is not one. *)
Definition headIsWord (s : list ascii) : bool :=
  match s with
  | c :: _ => isWordChar c
  | [] => false
  end.

Definition atBoundary (prevWord : bool) (s : list ascii) : bool :=
  xorb prevWord (headIsWord s).

(** The literal part: [Some rest] when [s] starts with [lit]. *)
Fixpoint stripLiteral (lit s : list ascii) {struct lit} : option (list ascii) :=
  match lit, s with
  | [], _ => Some s
  | x :: lit', c :: r => if Ascii.eqb x c then stripLiteral lit' r else None
  | _ :: _, [] => None
  end.

Definition lastIsWord (lit : list ascii) : bool :=
  match rev lit with
  | c :: _ => isWordChar c
  | [] => false
  end.

(** One attempt at the current position.  The optional dot is greedy: the
    matcher first takes it and asks for [\b] after it, and backtracks to the
    match without the dot when that fails.  The result is the wordness of the
    last character consumed and the text after the match. *)
Definition matchAbbrev (lit : list ascii) (prevWord : bool) (s : list ascii)
  : option (bool * list ascii) :=
  match lit with
  | [] => None
  | _ :: _ =>
      if atBoundary prevWord s then
        match stripLiteral lit s with
        | Some rest =>
            let plain :=
              if atBoundary (lastIsWord lit) rest then Some (lastIsWord lit, rest) else None in
            match rest with
            | d :: rest' =>
                if Ascii.eqb d "."%char && atBoundary false rest'
                then Some (false, rest')
                else plain
            | [] => plain
            end
        | None => None
        end
      else None
  end.

(** The global replace: scan from the left; at a match emit the replacement
    and go on after the match, otherwise copy one character.  The fuel is
    the length of the text, which each step shortens. *)
Fixpoint replaceFuel (fuel : nat) (lit rep : list ascii) (prevWord : bool)
    (s : list ascii) : list ascii :=
  match fuel with
  | O => s
  | S fuel' =>
      match s with
      | [] => []
      | c :: r =>
          match matchAbbrev lit prevWord s with
          | Some (w, rest) => rep ++ replaceFuel fuel' lit rep w rest
          | None => c :: replaceFuel fuel' lit rep (isWordChar c) r
          end
      end
  end.

Definition replaceFrom (lit rep : list ascii) (prevWord : bool) (s : list ascii)
  : list ascii :=
  replaceFuel (length s) lit rep prevWord s.

Definition replaceAll (lit rep : list ascii) (s : list ascii) : list ascii :=
  replaceFrom lit rep false s.

(** *** Vocabulary for the properties of the replace

    [wholeWordAt w s]: [s] starts with [w] and a non-word character or the
    end of the text follows.  [hasMatch lit pw s]: somewhere in [s] the
    literal stands as a whole word, [pw] being the wordness of the character
    before [s].  [hasMatchAvoid lit' lit pw s]: somewhere [lit'] stands as a
    whole word where [lit] does not. *)
Definition wholeWordAt (w s : list ascii) : bool :=
  match stripLiteral w s with
  | Some rest => negb (headIsWord rest)
  | None => false
  end.

Fixpoint hasMatch (lit : list ascii) (pw : bool) (s : list ascii) : bool :=
  match s with
  | c :: r => (negb pw && wholeWordAt lit s) || hasMatch lit (isWordChar c) r
  | [] => false
  end.

Fixpoint hasMatchAvoid (lit' lit : list ascii) (pw : bool) (s : list ascii) : bool :=
  match s with
  | c :: r =>
      (negb pw && wholeWordAt lit' s && negb (wholeWordAt lit s))
      || hasMatchAvoid lit' lit (isWordChar c) r
  | [] => false
  end.

(** A text on which [collapseFrom] has nothing to do: each white space is
    one SPACE and no two are adjacent ([inRun]: one came just before). *)
Fixpoint collapsedFrom (inRun : bool) (s : list ascii) : bool :=
  match s with
  | c :: r =>
      if isWhiteSpace c
      then negb inRun && Ascii.eqb c " "%char && collapsedFrom true r
      else collapsedFrom false r
  | [] => true
  end.

(** ** normalizeCityName *)

Definition chars (s : string) : list ascii := list_ascii_of_string s.

(** The table of the source, in its order: pattern literal and replacement. *)
Definition replacements : list (list ascii * list ascii) :=
  [ (chars "st", chars "saint");
    (chars "ft", chars "fort");
    (chars "mt", chars "mount");
    (chars "n", chars "north");
    (chars "s", chars "south");
    (chars "e", chars "east");
    (chars "w", chars "west") ].

(** One turn of the loop over the table. *)
Definition step (s : list ascii) (p : list ascii * list ascii) : list ascii :=
  replaceAll (fst p) (snd p) s.

Definition applyReplacements (s : list ascii) : list ascii :=
  fold_left step replacements s.

(** The first branch is [if (!name) return ""]. *)
Definition normalizeChars (name : list ascii) : list ascii :=
  match name with
  | [] => []
  | _ :: _ =>
      let s := toLowerCase (trim name) in
      let s := applyReplacements s in
      trim (collapseWhitespace s)
  end.

Definition normalizeCityName (name : string) : string :=
  string_of_list_ascii (normalizeChars (chars name)).

(** [!s] for a string: it is empty. *)
Definition isEmpty (s : list ascii) : bool :=
  match s with [] => true | _ :: _ => false end.

(** *** Vocabulary for the properties of the table *)

(** A literal of the table: one or two word characters. *)
Definition shortWord (w : list ascii) : bool :=
  negb (isEmpty w) && forallb isWordChar w && (length w <=? 2).

(** An entry of the table: a short literal and a replacement of at least
    three word characters. *)
Definition goodPair (p : list ascii * list ascii) : bool :=
  shortWord (fst p) && forallb isWordChar (snd p) && (3 <=? length (snd p)).

(** A character that [toLowerCase] leaves alone. *)
Definition lowerFixed (c : ascii) : Prop := toLowerChar c = c.

(** ** citiesMatch *)

Fixpoint startsWith (s sub : list ascii) {struct sub} : bool :=
  match sub, s with
  | [], _ => true
  | x :: sub', c :: r => Ascii.eqb x c && startsWith r sub'
  | _ :: _, [] => false
  end.

(** [s.includes(sub)] *)
Fixpoint includes (s sub : list ascii) : bool :=
  startsWith s sub ||
  match s with
  | _ :: r => includes r sub
  | [] => false
  end.

(** What [includes] decides: [sub] occurs in [s] as a contiguous block. *)
Definition Substring (sub s : list ascii) : Prop :=
  exists pre post, s = pre ++ sub ++ post.

Definition citiesMatch (a b : string) : bool :=
  let na := chars (normalizeCityName a) in
  let nb := chars (normalizeCityName b) in
  if isEmpty na || isEmpty nb then false
  else includes na nb || includes nb na.

(** ** haversineMiles

    The numbers are doubles.  [Math.sqrt] is the correctly rounded square
    root of IEEE 754; [Math.sin], [Math.cos] and [Math.atan2] are whatever
    the platform provides. *)

(** [Math.PI] *)
Definition PI : float := 0x1.921fb54442d18p+1%float.

Section Haversine.
Variables sin cos : float -> float.
Variable atan2 : float -> float -> float.
Local Open Scope float_scope.

(** [R_earth] is the constant [R] of the source, the radius of the Earth
    in miles. *)
Definition haversineMiles (lat1 lng1 lat2 lng2 : float) : float :=
  let R_earth := 3959 in
  let dLat := ((lat2 - lat1) * PI) / 180 in
  let dLng := ((lng2 - lng1) * PI) / 180 in
  let a :=
    sin (dLat / 2) * sin (dLat / 2) +
    cos ((lat1 * PI) / 180) *
      cos ((lat2 * PI) / 180) *
      sin (dLng / 2) *
      sin (dLng / 2) in
  let c := 2 * atan2 (sqrt a) (sqrt (1 - a)) in
  R_earth * c.
End Haversine.

End Geo.


(** * The event list: filter and sort

    The memoised computation of [EventListWithFilters].  Coordinates and
    distances are the numbers of the language.  The engine is written over
    a type [num] with the operations it applies to them: the subtraction
    of the comparator, [<] and [<=], the constants [0] and [Infinity], and
    the number [parseInt] returns for a run of digits.  Nothing is assumed
    of them here; [FloatEngine] instantiates them with the doubles, where
    [NaN] compares as neither below nor above anything. *)

Module EventList.

(** The result of [parseInt]: NaN, or the integer the digits spell (which
    the language then rounds to a number). *)
Inductive jsInt : Type :=
| NaN
| Int (z : Z).

(** The number a comparator returns, as far as [sort] looks at it. *)
Inductive sign : Type :=
| Negative
| Zero
| Positive
| NotANumber.

Record Coords (num : Type) : Type := mkCoords { lat : num; lng : num }.
Arguments mkCoords {num} lat lng.
Arguments lat {num} c.
Arguments lng {num} c.

(** The embedded location; an absent, null or non-numeric field is [None]. *)
Record Location (num : Type) : Type := mkLocation {
  loc_name : option string;
  loc_city : option string;
  loc_state : option string;
  loc_zip : option string;
  loc_lat : option num;
  loc_lng : option num
}.
Arguments mkLocation {num}.
Arguments loc_name {num} l.
Arguments loc_city {num} l.
Arguments loc_state {num} l.
Arguments loc_zip {num} l.
Arguments loc_lat {num} l.
Arguments loc_lng {num} l.

Record EventWithLocation (num : Type) : Type := mkEvent {
  id : string;
  event_date : string;
  start_time : option string;
  end_time : option string;
  dine_in : bool;
  pickup : bool;
  location : option (Location num)
}.
Arguments mkEvent {num}.
Arguments id {num} e.
Arguments event_date {num} e.
Arguments start_time {num} e.
Arguments end_time {num} e.
Arguments dine_in {num} e.
Arguments pickup {num} e.
Arguments location {num} e.

(** ** [parseInt(s, 10)]

    Leading white space, an optional sign, then the longest run of decimal
    digits; NaN when there is no digit.  [Int z] carries the integer the
    digits spell; the number returned is its rounding [ofInt z] (a double:
    beyond 2^53 not every integer, and Infinity beyond the largest double). *)
Definition isDigit (c : ascii) : bool := Geo.inRange 48 57 c.

Definition digitValue (c : ascii) : Z := Z.of_N (Geo.code c) - 48.

Fixpoint parseDigits (acc : option Z) (s : list ascii) : option Z :=
  match s with
  | c :: r =>
      if isDigit c
      then parseDigits (Some (10 * default 0%Z acc + digitValue c)%Z) r
      else acc
  | [] => acc
  end.

Definition parseInt10 (s : string) : jsInt :=
  let t := Geo.trimStart (Geo.chars s) in
  let '(negative, body) :=
    match t with
    | "-"%char :: r => (true, r)
    | "+"%char :: r => (false, r)
    | _ => (false, t)
    end in
  match parseDigits None body with
  | Some v => Int (if negative then - v else v)%Z
  | None => NaN
  end.

(** The options of the select that sets [withinMiles]: value and label. *)
Definition WITHIN_MILES_OPTIONS : list (string * string) :=
  [ ("", "Show all"); ("10", "Within 10 mi"); ("25", "Within 25 mi");
    ("50", "Within 50 mi"); ("100", "Within 100 mi") ]%string.

(** [withinMiles ? parseInt(withinMiles, 10) : null] *)
Definition withinMilesNum (withinMiles : string) : option jsInt :=
  match withinMiles with
  | EmptyString => None
  | _ => Some (parseInt10 withinMiles)
  end.

Section Engine.
Context {num : Type}.
(** [a - b], [a < b], [a <= b] *)
Variable sub : num -> num -> num.
Variable ltb leb : num -> num -> bool.
(** [0], [Infinity] *)
Variable zero infinity : num.
(** The number for the integer that [parseInt] read. *)
Variable ofInt : Z -> num.
Variable haversineMiles : num -> num -> num -> num -> num.

Definition getLocationCoords (event : EventWithLocation num) : option (Coords num) :=
  match location event with
  | None => None
  | Some loc =>
      match loc_lat loc, loc_lng loc with
      | Some la, Some ln => Some (mkCoords la ln)
      | _, _ => None
      end
  end.

(** The value stored in [distMap] for an event. *)
Definition eventDistance (origin : Coords num) (event : EventWithLocation num) : num :=
  match getLocationCoords event with
  | Some coords => haversineMiles (lat origin) (lng origin) (lat coords) (lng coords)
  | None => infinity
  end.

(** The loop filling [distMap], a map keyed by the event id. *)
Definition fillDistMap (origin : Coords num) (list : list (EventWithLocation num))
  : gmap string num :=
  fold_left (fun m event => <[id event := eventDistance origin event]> m) list ∅.

(** [distMap.get(id) ?? Infinity] *)
Definition getDistance (distMap : gmap string num) (key : string) : num :=
  default infinity (distMap !! key).

(** What [sort] makes of the number [v] its comparator returned: negative,
    positive, or else zero, for which it also takes NaN. *)
Definition signOf (v : num) : sign :=
  if ltb v zero then Negative else if ltb zero v then Positive else Zero.

(** [da - db], as [sort] reads it. *)
Definition subtractSign (da db : num) : sign := signOf (sub da db).

(** An element moves behind another one only on a positive result. *)
Definition comesAfter (v : sign) : bool :=
  match v with
  | Positive => true
  | Negative | Zero | NotANumber => false
  end.

Section Sort.
Context {A : Type}.
Variable compareFn : A -> A -> sign.

(** [x] may stay in front of [y]. *)
Definition mayPrecede (x y : A) : Prop := comesAfter (compareFn x y) = false.

Fixpoint insertSorted (x : A) (l : list A) : list A :=
  match l with
  | y :: l' =>
      if comesAfter (compareFn x y) then y :: insertSorted x l' else x :: l
  | [] => [x]
  end.

(** The stable sort of the language, as an insertion sort: an element
    is placed in front of the sorted rest and moves right past the
    elements it comes strictly after.  Where the comparator orders the
    elements every stable sort gives this result; where it does not (a NaN
    among numbers that differ) the language leaves the order to the
    engine, and this is the order of a sort that compares neighbours. *)
Fixpoint sort (l : list A) : list A :=
  match l with
  | x :: l' => insertSorted x (sort l')
  | [] => []
  end.
End Sort.

(** [d <= withinMilesNum] *)
Definition withinRadius (d radius : num) : bool := leb d radius.

Definition dateFiltered (events : list (EventWithLocation num)) (dateFilter : string)
  : list (EventWithLocation num) :=
  match dateFilter with
  | EmptyString => events
  | _ => List.filter (fun e => String.eqb (event_date e) dateFilter) events
  end.

(** [withinMilesNum != null && withinMilesNum > 0]: the radius in use. *)
Definition radiusActive (withinMiles : string) : option num :=
  match withinMilesNum withinMiles with
  | Some (Int n) => if ltb zero (ofInt n) then Some (ofInt n) else None
  | Some NaN | None => None
  end.

(** The body of the [useMemo]: the list shown and the distance map. *)
Definition filteredAndSortedEvents
    (events : list (EventWithLocation num)) (dateFilter : string)
    (originCoords : option (Coords num)) (withinMiles : string)
  : list (EventWithLocation num) * gmap string num :=
  let list := dateFiltered events dateFilter in
  let distMap :=
    match originCoords with
    | Some origin => fillDistMap origin list
    | None => ∅
    end in
  let list :=
    match originCoords with
    | Some _ =>
        sort (fun a b => subtractSign (getDistance distMap (id a)) (getDistance distMap (id b))) list
    | None => list
    end in
  let list :=
    match originCoords, radiusActive withinMiles with
    | Some _, Some radius =>
        List.filter (fun d => withinRadius (getDistance distMap (id d)) radius) list
    | _, _ => list
    end in
  (list, distMap).

(** ** Vocabulary for the properties of the engine *)

(** Events that carry the same id carry the same stored coordinates: the
    id identifies the row the event was read from. *)
Definition idsIdentify (events : list (EventWithLocation num)) : Prop :=
  forall e1 e2, In e1 events -> In e2 events -> id e1 = id e2 ->
    getLocationCoords e1 = getLocationCoords e2.

(** The comparator of the sort, read on the events' own distances. *)
Definition compareEvents (origin : Coords num) (a b : EventWithLocation num) : sign :=
  subtractSign (eventDistance origin a) (eventDistance origin b).

(** The sorted list with that comparator. *)
Definition sortedByDistance (origin : Coords num) (l : list (EventWithLocation num))
  : list (EventWithLocation num) :=
  sort (compareEvents origin) l.

End Engine.

End EventList.

(** * The event list over the doubles *)

Module FloatEngine.
Import Geo EventList.

(** The number for an integer: the nearest double, ties to even, and
    Infinity beyond the largest double.  ([parseInt] may, past twenty
    digits, round the digits first; the numbers met here have fewer.) *)
Definition ofInt (z : Z) : float := SF2Prim (binary_normalize prec emax z 0 false).

Section Math.
Variables sin cos : float -> float.
Variable atan2 : float -> float -> float.

Definition eventDistance : Coords float -> EventWithLocation float -> float :=
  EventList.eventDistance infinity (haversineMiles sin cos atan2).

Definition filteredAndSortedEvents
  : list (EventWithLocation float) -> string -> option (Coords float) -> string ->
    list (EventWithLocation float) * gmap string float :=
  EventList.filteredAndSortedEvents PrimFloat.sub PrimFloat.ltb PrimFloat.leb
    0%float infinity ofInt (haversineMiles sin cos atan2).

End Math.

(** ** What is known of the [Math] functions

    A table lists arguments with the values a function takes there. *)
Definition agreesOn (f : float -> float) (table : list (float * float)) : Prop :=
  forall x v, In (x, v) table -> f x = v.

Definition agreesOn2 (f : float -> float -> float)
    (table : list (float * float * float)) : Prop :=
  forall y x v, In (y, x, v) table -> f y x = v.

(** The function that a table describes, NaN off the table. *)
Definition valueAt (table : list (float * float)) (x : float) : float :=
  match find (fun entry => PrimFloat.eqb (fst entry) x) table with
  | Some entry => snd entry
  | None => nan
  end.

Definition valueAt2 (table : list (float * float * float)) (y x : float) : float :=
  if PrimFloat.is_nan x || PrimFloat.is_nan y then nan
  else
    match find (fun entry => PrimFloat.eqb (fst (fst entry)) y &&
                             PrimFloat.eqb (snd (fst entry)) x) table with
    | Some entry => snd entry
    | None => nan
    end.

End FloatEngine.

(** * The order form: menu availability and estimated wait *)

Module OrderForm.

(** The state [orderType] of the form. *)
Inductive OrderType : Type :=
| dine_in
| pickup.

(** A menu item.  An absent or null field is [None].  The price takes no
    part in what follows and is kept as the text the form received. *)
Record MenuItem : Type := mkMenuItem {
  id : string;
  name : string;
  description : option string;
  price : string;
  category : string;
  prep_time_minutes : option Z;
  dietary_tags : option (list string);
  dine_in_only : option bool;
  pickup_only : option bool
}.

Definition filteredMenuItems (menuItems : list MenuItem) (orderType : OrderType)
  : list MenuItem :=
  List.filter
    (fun item =>
       let dineIn := default false (dine_in_only item) in
       let pickup := default false (pickup_only item) in
       match orderType with
       | dine_in => negb pickup
       | _ => negb dineIn
       end)
    menuItems.

(** A line of the order: the item and its quantity. *)
Record LineItem : Type := mkLineItem { item : MenuItem; qty : Z }.

(** The [forEach] over the filtered menu: [quantities[item.id] ?? 0], and a
    line for each item whose quantity is positive. *)
Fixpoint lineItemsOf (quantities : gmap string Z) (items : list MenuItem)
  : list LineItem :=
  match items with
  | it :: rest =>
      let q := default 0%Z (quantities !! id it) in
      if (0 <? q)%Z
      then mkLineItem it q :: lineItemsOf quantities rest
      else lineItemsOf quantities rest
  | [] => []
  end.

Definition lineItems (menuItems : list MenuItem) (orderType : OrderType)
    (quantities : gmap string Z) : list LineItem :=
  lineItemsOf quantities (filteredMenuItems menuItems orderType).

(** [.map(({ item }) => item.prep_time_minutes)
     .filter((m) => typeof m === "number" && m > 0)] *)
Fixpoint prepTimes (lines : list LineItem) : list Z :=
  match lines with
  | l :: rest =>
      match prep_time_minutes (item l) with
      | Some m => if (0 <? m)%Z then m :: prepTimes rest else prepTimes rest
      | None => prepTimes rest
      end
  | [] => []
  end.

(** [prepTimes.length > 0 ? Math.max(...prepTimes) : undefined] *)
Definition estimatedWaitMinutes (lines : list LineItem) : option Z :=
  match prepTimes lines with
  | m :: rest => Some (fold_left Z.max rest m)
  | [] => None
  end.

End OrderForm.

(** * The admin order page: setStatus and the "ready" e-mail

    The page talks to three outside parties: the orders table, the server
    action [notifyOrderReady] and, behind it, the e-mail service.  What they
    answer is given by an environment; what the page and the server do to
    them is appended to a log. *)

Module AdminOrders.

Record EventRef : Type := mkEventRef {
  ref_event_date : string;
  (** [locations]: one object or an array of them, here the list of names *)
  ref_locations : list (option string)
}.

Record OrderRow : Type := mkOrderRow {
  id : string;
  customer_name : string;
  customer_phone : option string;
  customer_email : option string;
  order_type : string;
  notes : option string;
  status : string;
  created_at : string;
  events : option EventRef
}.

Definition withStatus (o : OrderRow) (newStatus : string) : OrderRow :=
  mkOrderRow (id o) (customer_name o) (customer_phone o) (customer_email o)
    (order_type o) (notes o) newStatus (created_at o) (events o).

Definition getLocationName (order : OrderRow) : string :=
  match events order with
  | None => "—"
  | Some ev =>
      match ref_locations ev with
      | Some n :: _ => n
      | _ => "—"
      end
  end.

Inductive Effect : Type :=
| DbUpdateStatus (orderId newStatus : string)
| CallNotifyOrderReady (customerEmail locationName : string)
| ResendSend (to subject : string)
| ConsoleWarn (message : string)
| ConsoleError (message : string).

(** The answers of the outside world. *)
Record Env : Type := mkEnv {
  (** the [error] of the update of the orders table *)
  dbUpdateError : option string;
  (** [process.env.RESEND_API_KEY] *)
  RESEND_API_KEY : option string;
  (** the [error] of [resend.emails.send] *)
  resendError : option string
}.

Record World : Type := mkWorld {
  (** the column [status] of the table [orders], by order id *)
  ordersTable : gmap string string;
  (** the state [orders] of the page *)
  orders : list OrderRow;
  (** the state [updatingId] of the page *)
  updatingId : option string;
  log : list Effect
}.

Inductive SendResult : Type :=
| SendOk
| SendFailed (error : string).

(** ** A monad for what the page and the server do

    An action changes the world and then returns a value or throws (for an
    [async] function: its promise is fulfilled or rejected).  Nothing here
    catches: after a throw the rest of the caller is skipped. *)

Inductive Outcome (A : Type) : Type :=
| Returned (a : A)
| Thrown.
Arguments Returned {A} a.
Arguments Thrown {A}.

Definition Action (A : Type) : Type := World -> Outcome A * World.

Definition ret {A} (a : A) : Action A := fun w => (Returned a, w).

Definition throw {A} : Action A := fun w => (Thrown, w).

Definition bind {A B} (m : Action A) (k : A -> Action B) : Action B :=
  fun w =>
    match m w with
    | (Returned a, w') => k a w'
    | (Thrown, w') => (Thrown, w')
    end.

Notation "x <-- m ;; k" := (bind m (fun x => k))
  (at level 100, m at next level, right associativity).
Notation "m ;;; k" := (bind m (fun _ => k))
  (at level 100, right associativity).

Definition emit (e : Effect) : Action unit :=
  fun w => (Returned tt, mkWorld (ordersTable w) (orders w) (updatingId w) (log w ++ [e])).

Definition setUpdatingId (v : option string) : Action unit :=
  fun w => (Returned tt, mkWorld (ordersTable w) (orders w) v (log w)).

Definition setOrders (f : list OrderRow -> list OrderRow) : Action unit :=
  fun w => (Returned tt, mkWorld (ordersTable w) (f (orders w)) (updatingId w) (log w)).

(** [supabase.from("orders").update({ status }).eq("id", orderId)]: on
    success the rows with that id carry the new status. *)
Definition updateOrderStatus (env : Env) (orderId newStatus : string)
  : Action (option string) :=
  fun w =>
    let w1 := mkWorld (ordersTable w) (orders w) (updatingId w)
                (log w ++ [DbUpdateStatus orderId newStatus]) in
    match dbUpdateError env with
    | Some err => (Returned (Some err), w1)
    | None =>
        (Returned None,
         mkWorld (alter (fun _ => newStatus) orderId (ordersTable w1))
           (orders w1) (updatingId w1) (log w1))
    end.

(** A string that counts as true: present and not empty. *)
Definition truthy (s : option string) : bool :=
  match s with
  | Some (String _ _) => true
  | _ => false
  end.

Definition trimString (s : string) : string :=
  string_of_list_ascii (Geo.trim (Geo.chars s)).

(** ** The e-mail module *)

(** The first statement of the module,
    [const resend = new Resend(process.env.RESEND_API_KEY)], runs when the
    module is loaded.  The constructor of the library throws when it is
    given no key, so that without [RESEND_API_KEY] the module does not
    load, nor does a module that imports it. *)
Definition loadEmailModule (env : Env) : Action unit :=
  if truthy (RESEND_API_KEY env) then ret tt else throw.

Definition sendOrderReady (env : Env) (to locationName : string) : Action SendResult :=
  if negb (truthy (RESEND_API_KEY env)) then
    emit (ConsoleWarn "RESEND_API_KEY not set; skipping order ready email") ;;;
    ret (SendFailed "Email not configured")
  else
    emit (ResendSend to ("Your order from " ++ locationName ++ " is ready for pickup")) ;;;
    match resendError env with
    | Some err =>
        emit (ConsoleError "Resend sendOrderReady error:") ;;;
        ret (SendFailed err)
    | None => ret SendOk
    end.

(** ** The server action: notifyOrderReady

    Its module imports the e-mail module; a call runs the function once
    both are loaded. *)
Definition notifyOrderReady (env : Env) (customerEmail locationName : string)
  : Action SendResult :=
  loadEmailModule env ;;;
  if negb (truthy (Some (trimString customerEmail))) then
    ret (SendFailed "No customer email")
  else sendOrderReady env (trimString customerEmail) locationName.

(** [order.customer_email?.trim()] *)
Definition trimmedEmail (order : OrderRow) : option string :=
  option_map trimString (customer_email order).

(** ** The page: setStatus *)
Definition setStatus (env : Env) (orderId newStatus : string) (order : OrderRow)
  : Action unit :=
  setUpdatingId (Some orderId) ;;;
  error <-- updateOrderStatus env orderId newStatus ;;
  match error with
  | Some _ =>
      emit (ConsoleError "Order update error:") ;;;
      setUpdatingId None
  | None =>
      setOrders (map (fun o => if String.eqb (id o) orderId then withStatus o newStatus else o)) ;;;
      (if String.eqb newStatus "ready" && truthy (trimmedEmail order)
       then
         emit (CallNotifyOrderReady (default ""%string (trimmedEmail order))
                 (getLocationName order)) ;;;
         _ <-- notifyOrderReady env (default ""%string (trimmedEmail order))
                 (getLocationName order) ;;
         ret tt
       else ret tt) ;;;
      setUpdatingId None
  end.

(** ** Vocabulary for the properties of setStatus *)

(** The order has an e-mail address that is not blank. *)
Definition hasEmail (order : OrderRow) : Prop :=
  exists e, customer_email order = Some e /\ Geo.trim (Geo.chars e) <> [].

(** The server action was called. *)
Definition notified (effects : list Effect) : Prop :=
  exists e loc, In (CallNotifyOrderReady e loc) effects.

(** The e-mail service received a request. *)
Definition requested (effects : list Effect) : Prop :=
  exists to subject, In (ResendSend to subject) effects.

End AdminOrders.

(** * Sample data *)

Module Samples.
Import EventList.

(** Events with integer coordinates, for the functions that only look at
    the city, the state and the date of an event. *)
Definition sampleEvent (i : string) (coords : option Z) : EventWithLocation Z :=
  mkEvent i "2026-03-06" None None true true
    (Some (mkLocation (Some "Hall"%string) None None None coords (option_map (fun _ => 0%Z) coords))).

Definition sampleEvents : list (EventWithLocation Z) :=
  [ sampleEvent "far" (Some 50%Z); sampleEvent "unplaced" None;
    sampleEvent "near" (Some 5%Z); sampleEvent "near2" (Some (-5)%Z) ].

Definition sampleOrigin : Coords Z := mkCoords 0%Z 0%Z.

End Samples.

(** Sample data over the doubles: an origin in Missouri with events at the
    origin, 3 and 69 miles north of it, at the point of the globe opposite
    to it, and one without coordinates.  The tables give [Math.sin],
    [Math.cos] and [Math.atan2] at the arguments the distances of these
    events need, each the double nearest the true value. *)
Module FloatSamples.
Import EventList FloatEngine.
Local Open Scope float_scope.

(** 36.97, -90.5 *)
Definition originLat : float := 0x1.27c28f5c28f5cp+5.
Definition originLng : float := -0x1.6ap+6.
Definition sampleOrigin : Coords float := mkCoords originLat originLng.

(** -36.97, 89.5 *)
Definition antipodeLat : float := -0x1.27c28f5c28f5cp+5.
Definition antipodeLng : float := 0x1.66p+6.

(** 37.02 and 37.97 *)
Definition nearLat : float := 0x1.2828f5c28f5c3p+5.
Definition northLat : float := 0x1.2fc28f5c28f5cp+5.

Definition eventAt (i : string) (coords : option (float * float)) : EventWithLocation float :=
  mkEvent i "2026-03-06" None None true true
    (Some (mkLocation (Some "Hall"%string) None None None
             (option_map fst coords) (option_map snd coords))).

Definition unplaced : EventWithLocation float := eventAt "unplaced" None.
Definition antipodal : EventWithLocation float :=
  eventAt "antipodal" (Some (antipodeLat, antipodeLng)).
Definition home : EventWithLocation float := eventAt "home" (Some (originLat, originLng)).
Definition near : EventWithLocation float := eventAt "near" (Some (nearLat, originLng)).
Definition north : EventWithLocation float := eventAt "north" (Some (northLat, originLng)).

Definition sampleEvents : list (EventWithLocation float) :=
  [north; unplaced; antipodal; near; home].


Definition sinValues : list (float * float) :=
  [ ((-0x1.4a5df9abbc3e1p-1), (-0x1.33ea473a8ae05p-1));
    (0x1.921fb54442d18p+0, 0x1p+0);
    (0x1.4a5df9abbc3e1p-1, 0x1.33ea473a8ae05p-1);
    ((-0x1.921fb54442d18p+0), (-0x1p+0));
    (0, 0);
    (0x1.c987103b764a4p-12, 0x1.c9870f47e4d12p-12);
    ((-0x1.c987103b764a4p-12), (-0x1.c9870f47e4d12p-12));
    (0x1.1df46a2529d39p-7, 0x1.1df37c4954c21p-7);
    ((-0x1.1df46a2529d39p-7), (-0x1.1df37c4954c21p-7)) ].

Definition cosValues : list (float * float) :=
  [ (0x1.4a5df9abbc3e1p-1, 0x1.99100a909434cp-1);
    ((-0x1.4a5df9abbc3e1p-1), 0x1.99100a909434cp-1);
    (0x1.4ad05b6fcb1bap-1, 0x1.98cb3666498cfp-1);
    (0x1.534d9cfce58cbp-1, 0x1.93a062371b4aap-1) ].

Definition atan2Values : list (float * float * float) :=
  [ (0, 0x1p+0, 0);
    (0x1.c9870f47e4d12p-12, 0x1.fffffcce4c81ap-1, 0x1.c987103b764a4p-12);
    (0x1.1df37c4954c21p-7, 0x1.fffb02599c9cdp-1, 0x1.1df46a2529d39p-7) ].

(** A [Math] library made of the tables. *)
Definition sinTable : float -> float := valueAt sinValues.
Definition cosTable : float -> float := valueAt cosValues.
Definition atan2Table : float -> float -> float := valueAt2 atan2Values.

End FloatSamples.

Module OrderSamples.
Import AdminOrders.

Definition sampleOrder : OrderRow :=
  mkOrderRow "o1" "Pat" None (Some " pat@example.org ") "pickup" None "pending"
    "2026-03-06T17:00:00Z" (Some (mkEventRef "2026-03-06" [Some "Parish Hall"%string])).

Definition sampleWorld : World :=
  mkWorld {["o1"%string := "pending"%string]} [sampleOrder] None [].

(** The e-mail service refuses the request. *)
Definition failingMail : Env := mkEnv None (Some "key"%string) (Some "rejected"%string).

(** No API key is set. *)
Definition noKey : Env := mkEnv None None None.

End OrderSamples.

(** * More of the geo module: the duplicate matcher *)

Module GeoQuery.
Import Geo.

(** [cityMatchesQuery], the matcher the autocomplete uses. *)
Definition cityMatchesQuery (city query : string) : bool :=
  let normCity := chars (normalizeCityName city) in
  let normQuery := chars (normalizeCityName query) in
  if isEmpty normCity || isEmpty normQuery then false
  else includes normCity normQuery || includes normQuery normCity.

(** A text that is empty or made of white space only. *)
Definition blank (s : string) : Prop := trim (chars s) = [].

(** The text starts with a character that is not white space. *)
Definition solidHead (s : list ascii) : Prop :=
  match s with
  | c :: _ => isWhiteSpace c = false
  | [] => False
  end.

End GeoQuery.

(** * More of the geo module: state names, search terms, the lookup service *)

Module GeoLookup.
Import Geo.

Definition textEqb (a b : list ascii) : bool :=
  startsWith a b && (length a =? length b).

(** ** Object literals used as tables

    [table[key]] first looks at the properties of the literal and then at
    those of [Object.prototype].  All keys looked up in this module have been
    through [toLowerCase]; of the names [Object.prototype] defines, two are
    in lower case: [constructor] (the function [Object]) and [__proto__]
    (the prototype itself). *)
Inductive protoMember : Type :=
| ObjectFunction
| ObjectPrototype.

Inductive value : Type :=
| Str (s : list ascii)
| Proto (m : protoMember).

Fixpoint ownProperty (table : list (string * string)) (key : list ascii)
  : option (list ascii) :=
  match table with
  | (k, v) :: rest => if textEqb (chars k) key then Some (chars v) else ownProperty rest key
  | [] => None
  end.

(** [None] is [undefined]. *)
Definition getProperty (table : list (string * string)) (key : list ascii)
  : option value :=
  match ownProperty table key with
  | Some v => Some (Str v)
  | None =>
      if textEqb key (chars "constructor") then Some (Proto ObjectFunction)
      else if textEqb key (chars "__proto__") then Some (Proto ObjectPrototype)
      else None
  end.

Definition truthy (v : value) : bool :=
  match v with
  | Str [] => false
  | Str (_ :: _) => true
  | Proto _ => true
  end.

Definition US_STATE_ABBREVS : list string :=
  [ "AL"; "AK"; "AZ"; "AR"; "CA"; "CO"; "CT"; "DE"; "FL"; "GA";
    "HI"; "ID"; "IL"; "IN"; "IA"; "KS"; "KY"; "LA"; "ME"; "MD";
    "MA"; "MI"; "MN"; "MS"; "MO"; "MT"; "NE"; "NV"; "NH"; "NJ";
    "NM"; "NY"; "NC"; "ND"; "OH"; "OK"; "OR"; "PA"; "RI"; "SC";
    "SD"; "TN"; "TX"; "UT"; "VT"; "VA"; "WA"; "WV"; "WI"; "WY"; "DC" ]%string.

Definition STATE_TO_ABBR : list (string * string) :=
  [ ("alabama", "al"); ("alaska", "ak"); ("arizona", "az"); ("arkansas", "ar");
    ("california", "ca"); ("colorado", "co"); ("connecticut", "ct");
    ("delaware", "de"); ("florida", "fl"); ("georgia", "ga"); ("hawaii", "hi");
    ("idaho", "id"); ("illinois", "il"); ("indiana", "in"); ("iowa", "ia");
    ("kansas", "ks"); ("kentucky", "ky"); ("louisiana", "la"); ("maine", "me");
    ("maryland", "md"); ("massachusetts", "ma"); ("michigan", "mi");
    ("minnesota", "mn"); ("mississippi", "ms"); ("missouri", "mo");
    ("montana", "mt"); ("nebraska", "ne"); ("nevada", "nv");
    ("new hampshire", "nh"); ("new jersey", "nj"); ("new mexico", "nm");
    ("new york", "ny"); ("north carolina", "nc"); ("north dakota", "nd");
    ("ohio", "oh"); ("oklahoma", "ok"); ("oregon", "or"); ("pennsylvania", "pa");
    ("rhode island", "ri"); ("south carolina", "sc"); ("south dakota", "sd");
    ("tennessee", "tn"); ("texas", "tx"); ("utah", "ut"); ("vermont", "vt");
    ("virginia", "va"); ("washington", "wa"); ("west virginia", "wv");
    ("wisconsin", "wi"); ("wyoming", "wy"); ("district of columbia", "dc");
    ("washington dc", "dc") ]%string.

(** ** getStateAbbr *)
Definition getStateAbbr (state : string) : value :=
  match chars state with
  | [] => Str []
  | _ :: _ =>
      let s := trim (chars state) in
      if length s =? 2 then Str (toLowerCase s)
      else
        match getProperty STATE_TO_ABBR (toLowerCase s) with
        | Some v => v
        | None => Str (toLowerCase s)
        end
  end.

(** ** getSearchVariations *)

Definition sameValue (a b : value) : bool :=
  match a, b with
  | Str x, Str y => textEqb x y
  | Proto ObjectFunction, Proto ObjectFunction => true
  | Proto ObjectPrototype, Proto ObjectPrototype => true
  | _, _ => false
  end.

(** [set.add(v)] on a [Set] kept in insertion order. *)
Definition setAdd (v : value) (set : list value) : list value :=
  if existsb (sameValue v) set then set else set ++ [v].

(** [const x = table[p]; if (x) variations.add(x)] *)
Definition addFound (found : option value) (set : list value) : list value :=
  match found with
  | Some v => if truthy v then setAdd v set else set
  | None => set
  end.

Definition addWhen (condition : bool) (term : string) (set : list value) : list value :=
  if condition then setAdd (Str (chars term)) set else set.

Definition expandMap : list (string * string) :=
  [ ("st", "saint"); ("st.", "saint"); ("ft", "fort"); ("ft.", "fort");
    ("mt", "mount"); ("mt.", "mount"); ("n", "north"); ("n.", "north");
    ("s", "south"); ("s.", "south"); ("e", "east"); ("e.", "east");
    ("w", "west"); ("w.", "west") ]%string.

Definition abbreviateMap : list (string * string) :=
  [ ("saint", "st"); ("fort", "ft"); ("mount", "mt"); ("north", "n");
    ("south", "s"); ("east", "e"); ("west", "w") ]%string.

(** The body of the function once [p] is known and not empty. *)
Definition variationsOf (p : list ascii) : list value :=
  let variations := [Str p] in
  let variations := addFound (getProperty expandMap p) variations in
  let variations := addFound (getProperty abbreviateMap p) variations in
  let variations := addWhen (textEqb p (chars "fallon")) "ofallon" variations in
  let variations :=
    addWhen (textEqb p (chars "ofallon") || textEqb p (chars "o'fallon")) "fallon"
      variations in
  let variations :=
    addWhen (startsWith p (chars "spring") && (length p <? 10)) "springfield"
      variations in
  let variations :=
    addWhen (startsWith p (chars "columb") && (length p <? 8)) "columbia"
      variations in
  let variations :=
    addWhen (startsWith p (chars "jefferson") && (length p <? 12)) "jefferson city"
      variations in
  let variations :=
    addWhen (startsWith p (chars "kansas") && (length p <? 10)) "kansas city"
      variations in
  variations.

Definition getSearchVariations (partial : string) : list value :=
  let p := toLowerCase (trim (chars partial)) in
  if isEmpty p then [] else variationsOf p.

(** ** encodeURIComponent

    On the code units of the model: the unreserved characters stay, every
    other one becomes the bytes of its UTF-8 form, each written as [%]
    and two upper-case hexadecimal digits. *)
Definition isUnreserved (c : ascii) : bool :=
  inRange 65 90 c || inRange 97 122 c || inRange 48 57 c ||
  existsb (Ascii.eqb c) (chars "-_.!~*'()").

Definition hexDigit (n : N) : ascii :=
  if (n <? 10)%N then ascii_of_N (48 + n) else ascii_of_N (55 + n).

Definition percentByte (b : N) : list ascii :=
  [ "%"%char; hexDigit (b / 16); hexDigit (b mod 16) ].

Definition utf8Bytes (c : ascii) : list N :=
  let n := code c in
  if (n <? 128)%N then [n] else [ (192 + n / 64)%N; (128 + n mod 64)%N ].

Definition encodeChar (c : ascii) : list ascii :=
  if isUnreserved c then [c] else flat_map percentByte (utf8Bytes c).

Definition encodeURIComponent (s : list ascii) : list ascii :=
  flat_map encodeChar s.

(** A character of an encoded component. *)
Definition isEncoded (c : ascii) : bool :=
  isUnreserved c || Ascii.eqb c "%"%char.

(** ** The lookup service *)

Record Place : Type := mkPlace {
  place_name : option string;
  latitude : option string;
  longitude : option string
}.

Record PlacesData : Type := mkPlacesData {
  places : option (list Place);
  state_abbreviation : option string
}.

(** What [fetch] and [res.json()] do for a URL: the request fails, or a
    response arrives with its [ok] flag and a body that parses or not. *)
Inductive FetchResult : Type :=
| FetchRejected
| FetchResponse (ok : bool) (json : option PlacesData).

Definition apiBase : list ascii := chars "https://api.zippopotam.us/us/".

Section Service.
Context {num : Type}.
Variable parseFloat : string -> num.
Variable fetch : list ascii -> FetchResult.
(** [String(v)] for the two objects a table lookup can give. *)
Variable objectText : protoMember -> list ascii.

(** [data.places?.[0]], then the two coordinates if neither is missing or
    empty. *)
Definition firstPlaceCoords (data : PlacesData) : option (EventList.Coords num) :=
  match places data with
  | Some (place :: _) =>
      match latitude place, longitude place with
      | Some (String a la), Some (String o lo) =>
          Some (EventList.mkCoords (parseFloat (String a la)) (parseFloat (String o lo)))
      | _, _ => None
      end
  | _ => None
  end.

(** The [try] block common to both lookups; the [catch] gives [null]. *)
Definition lookupCoords (url : list ascii) : option (EventList.Coords num) :=
  match fetch url with
  | FetchRejected => None
  | FetchResponse ok json =>
      if negb ok then None
      else
        match json with
        | Some data => firstPlaceCoords data
        | None => None
        end
  end.

(** [fetchZipCoords]: the result and the URLs requested. *)
Definition fetchZipCoords (zip : string)
  : option (EventList.Coords num) * list (list ascii) :=
  let cleaned := firstn 5 (List.filter EventList.isDigit (chars zip)) in
  if length cleaned <? 5 then (None, [])
  else
    let url := apiBase ++ cleaned in
    (lookupCoords url, [url]).

Definition valueText (v : value) : list ascii :=
  match v with
  | Str s => s
  | Proto m => objectText m
  end.

(** [fetchCityCoords]: the result and the URLs requested. *)
Definition fetchCityCoords (city state : string)
  : option (EventList.Coords num) * list (list ascii) :=
  let cityEnc := encodeURIComponent (trim (chars city)) in
  let stateAbbr := getStateAbbr state in
  if isEmpty cityEnc || negb (truthy stateAbbr) then (None, [])
  else
    let url := apiBase ++ valueText stateAbbr ++ chars "/" ++ cityEnc in
    (lookupCoords url, [url]).

End Service.

(** ** Vocabulary for the properties of the lookups *)

(** The names a lower-case key finds on the prototype. *)
Definition protoName (m : protoMember) : list ascii :=
  match m with
  | ObjectFunction => chars "constructor"
  | ObjectPrototype => chars "__proto__"
  end.

(** What the table of state names holds: names longer than two characters,
    and codes of two lower-case characters without white space around, each
    the lower-case form of an entry of [US_STATE_ABBREVS]. *)
Definition stateEntryOk (e : string * string) : bool :=
  negb (length (chars (fst e)) =? 2) &&
  (length (chars (snd e)) =? 2) &&
  textEqb (toLowerCase (chars (snd e))) (chars (snd e)) &&
  textEqb (trim (chars (snd e))) (chars (snd e)) &&
  existsb (fun a => textEqb (toLowerCase (chars a)) (chars (snd e))) US_STATE_ABBREVS.

(** The shape of the result: the query, alone or followed by one other
    term. *)
Definition queryFirst (p : list ascii) (l : list value) : bool :=
  match l with
  | [a] => sameValue a (Str p)
  | [a; v] => sameValue a (Str p) && negb (sameValue v (Str p))
  | _ => false
  end.

(** The queries that an exact comparison or a table singles out. *)
Definition specialQueries : list string :=
  map fst expandMap ++ map fst abbreviateMap ++
  [ "fallon"; "ofallon"; "o'fallon"; "constructor"; "__proto__" ]%string.

End GeoLookup.

(** * More of the event list: the dates offered and the origin *)

Module Origin.
Import Geo GeoLookup EventList.

Definition text (l : list ascii) : string := string_of_list_ascii l.

(** ** uniqueDates *)

(** [Array.from(new Set(dates))]: the first occurrence of each date, in
    order. *)
Definition addDate (seen : list string) (d : string) : list string :=
  if existsb (String.eqb d) seen then seen else seen ++ [d].

Definition distinctDates (dates : list string) : list string :=
  fold_left addDate dates [].

(** The order of strings: by code units, a proper prefix first. *)
Fixpoint textCompare (a b : list ascii) : comparison :=
  match a, b with
  | [], [] => Eq
  | [], _ :: _ => Lt
  | _ :: _, [] => Gt
  | x :: a', y :: b' =>
      match N.compare (code x) (code y) with
      | Eq => textCompare a' b'
      | c => c
      end
  end.

Definition textLtb (a b : string) : bool :=
  match textCompare (chars a) (chars b) with
  | Lt => true
  | _ => false
  end.

(** The comparison [sort()] makes without a comparator. *)
Definition defaultCompare (a b : string) : sign :=
  if textLtb a b then Negative else if textLtb b a then Positive else Zero.

Definition uniqueDates {num} (events : list (EventWithLocation num)) : list string :=
  sort defaultCompare (distinctDates (map event_date events)).

(** ** The city and the state of an event *)

Definition getLocationCity {num} (event : EventWithLocation num) : string :=
  match location event with
  | Some loc =>
      match loc_city loc with
      | Some (String c r) => text (trim (chars (String c r)))
      | _ => ""
      end
  | None => ""
  end.

Definition getLocationState {num} (event : EventWithLocation num) : string :=
  match location event with
  | Some loc =>
      match loc_state loc with
      | Some (String c r) => text (trim (chars (String c r)))
      | _ => ""
      end
  | None => ""
  end.

(** ** resolveOrigin *)

(** [s.indexOf(c)]; [None] is -1. *)
Fixpoint indexOfChar (c : ascii) (s : list ascii) : option nat :=
  match s with
  | x :: r => if Ascii.eqb x c then Some 0 else option_map S (indexOfChar c r)
  | [] => None
  end.

(** The text "City, ST" cut at its first comma, when that is not the first
    character: the city and the state, both trimmed. *)
Definition splitCityState (cityTrimmed : list ascii) : list ascii * list ascii :=
  match indexOfChar ","%char cityTrimmed with
  | Some (S i) => (trim (firstn (S i) cityTrimmed), trim (skipn (S i + 1) cityTrimmed))
  | _ => (cityTrimmed, [])
  end.

(** The three states the function sets. *)
Record GeoState (num : Type) : Type := mkGeoState {
  originCoords : option (Coords num);
  geoLoading : bool;
  geoError : option string
}.
Arguments mkGeoState {num}.
Arguments originCoords {num} g.
Arguments geoLoading {num} g.
Arguments geoError {num} g.

Section Resolve.
Context {num : Type}.
Variable parseFloat : string -> num.
Variable fetch : list ascii -> FetchResult.
Variable objectText : protoMember -> list ascii.

Definition errorUnless (coords : option (Coords num)) (message : string) : option string :=
  match coords with
  | Some _ => None
  | None => Some message
  end.

(** The states when the function has run to its end, and the URLs it
    requested. *)
Definition resolveOrigin (zipQuery cityQuery : string)
    (events : list (EventWithLocation num)) (before : GeoState num)
  : GeoState num * list (list ascii) :=
  let zipTrimmed := List.filter isDigit (trim (chars zipQuery)) in
  let cityTrimmed := trim (chars cityQuery) in
  if 5 <=? length zipTrimmed then
    let found := fetchZipCoords parseFloat fetch (text zipTrimmed) in
    (mkGeoState (fst found) false
       (errorUnless (fst found) "Could not find that zip code."), snd found)
  else if negb (isEmpty cityTrimmed) then
    let city := fst (splitCityState cityTrimmed) in
    let state := snd (splitCityState cityTrimmed) in
    let state :=
      if isEmpty state then
        match find (fun e => citiesMatch (getLocationCity e) (text city)) events with
        | Some matchingEvent => chars (getLocationState matchingEvent)
        | None => []
        end
      else state in
    if isEmpty state then
      (mkGeoState None false (Some "Add state (e.g. Saint Louis, MO)"%string), [])
    else
      let found := fetchCityCoords parseFloat fetch objectText (text city) (text state) in
      (mkGeoState (fst found) false
         (errorUnless (fst found) "Could not find that city."), snd found)
  else (mkGeoState None (geoLoading before) None, []).

End Resolve.

End Origin.

(** * More sample data *)

Module AdminSamples.
Import AdminOrders OrderSamples.

(** The update of the orders table is refused. *)
Definition failingDb : Env := mkEnv (Some "permission denied"%string) (Some "key"%string) None.

(** Everything works. *)
Definition workingEnv : Env := mkEnv None (Some "key"%string) None.

End AdminSamples.

(** * The e-mail module: escapeHtml *)

Module Email.
Import Geo.

(** [s.replace(/c/g, by)] for a pattern of one character: each occurrence
    gives way to the replacement text, which is not looked at again. *)
Fixpoint replaceChar (c : ascii) (by_ : list ascii) (s : list ascii) : list ascii :=
  match s with
  | x :: r => (if Ascii.eqb x c then by_ else [x]) ++ replaceChar c by_ r
  | [] => []
  end.

(** The double quote, U+0022. *)
Definition doubleQuote : ascii := ascii_of_nat 34.

Definition escapeHtmlChars (s : list ascii) : list ascii :=
  replaceChar doubleQuote (chars "&quot;")
    (replaceChar ">"%char (chars "&gt;")
       (replaceChar "<"%char (chars "&lt;")
          (replaceChar "&"%char (chars "&amp;") s))).

Definition escapeHtml (s : string) : string :=
  string_of_list_ascii (escapeHtmlChars (chars s)).

(** ** Vocabulary for the properties of escapeHtml *)

(** What becomes of one character. *)
Definition escapeChar (c : ascii) : list ascii :=
  if Ascii.eqb c "&"%char then chars "&amp;"
  else if Ascii.eqb c "<"%char then chars "&lt;"
  else if Ascii.eqb c ">"%char then chars "&gt;"
  else if Ascii.eqb c doubleQuote then chars "&quot;"
  else [c].

End Email.

(** * The order form and the server action placeOrder *)

Module OrderSubmit.
Import Geo EventList OrderForm.

Definition text (l : list ascii) : string := string_of_list_ascii l.

(** [s.trim()] *)
Definition trimmed (s : string) : string := text (trim (chars s)).

(** [s.trim() || null] *)
Definition trimmedOrNull (s : string) : option string :=
  if isEmpty (trim (chars s)) then None else Some (trimmed s).

(** ** sortCategories *)

Definition CATEGORY_ORDER : list string := ["fish"; "sides"; "drinks"; "desserts"]%string.

(** [l.indexOf(x)]; [None] is -1. *)
Fixpoint indexOf (x : string) (l : list string) : option nat :=
  match l with
  | y :: r => if String.eqb y x then Some 0 else option_map S (indexOf x r)
  | [] => None
  end.

Section Categories.
(** [a.localeCompare(b)], as far as [sort] looks at it. *)
Variable localeCompare : string -> string -> sign.

Definition categoryIndex (a : string) : option nat :=
  indexOf (text (toLowerCase (chars a))) CATEGORY_ORDER.

Definition compareCategories (a b : string) : sign :=
  match categoryIndex a, categoryIndex b with
  | None, None => localeCompare a b
  | None, Some _ => Positive
  | Some _, None => Negative
  | Some i, Some j => if i <? j then Negative else if j <? i then Positive else Zero
  end.

Definition sortCategories (categories : list string) : list string :=
  sort compareCategories categories.

End Categories.

(** The place of a category in the menu: that of its lower-case form in
    [CATEGORY_ORDER], and behind all of them when it is not there. *)
Definition categoryPlace (a : string) : nat :=
  default (length CATEGORY_ORDER) (categoryIndex a).

(** ** setQuantity

    The state [quantities] is a plain object.  Its own properties are the
    counts set so far; a key it does not own is looked up on
    [Object.prototype], and only a key found nowhere falls to [?? 0]. *)

(** What the object holds under a key: a count, or NaN. *)
Inductive count : Type :=
| Count (n : Z)
| NotANumber.

(** The names of the properties of [Object.prototype]. *)
Definition prototypeNames : list string :=
  [ "constructor"; "__defineGetter__"; "__defineSetter__"; "hasOwnProperty";
    "__lookupGetter__"; "__lookupSetter__"; "isPrototypeOf"; "propertyIsEnumerable";
    "toString"; "valueOf"; "__proto__"; "toLocaleString" ]%string.

Definition inherited (key : string) : bool := existsb (String.eqb key) prototypeNames.

(** [prev[itemId] ?? 0]: an own value, else 0; [None] for a function or an
    object taken off the prototype. *)
Definition lookupQuantity (prev : gmap string count) (itemId : string) : option count :=
  match prev !! itemId with
  | Some c => Some c
  | None => if inherited itemId then None else Some (Count 0)
  end.

(** [Math.max(0, (prev[itemId] ?? 0) + delta)]: with NaN the sum and the
    maximum are NaN; a function or an object plus a number is a string that
    spells no number, of which the maximum with 0 is NaN. *)
Definition nextCount (prev : gmap string count) (itemId : string) (delta : Z) : count :=
  match lookupQuantity prev itemId with
  | Some (Count n) => Count (Z.max 0 (n + delta))
  | Some NotANumber | None => NotANumber
  end.

(** [{ ...prev, [itemId]: Math.max(0, next) }] *)
Definition setQuantity (itemId : string) (delta : Z) (prev : gmap string count)
  : gmap string count :=
  <[itemId := nextCount prev itemId delta]> prev.

(** The counts of the form are numbers not below zero. *)
Definition countsValid (quantities : gmap string count) : Prop :=
  forall k, inherited k = false ->
    exists n, lookupQuantity quantities k = Some (Count n) /\ (0 <= n)%Z.

(** The form reads its counts for the ids of menu items, which are keys of
    rows of the menu table; there an id without a count reads as 0. *)
(** [quantities[id] ?? 0] *)
Definition quantityOf (quantities : gmap string Z) (itemId : string) : Z :=
  default 0%Z (quantities !! itemId).

Section Submit.
Context {num : Type}.
(** [getPrice]: the price of an item as a number. *)
Variable getPrice : MenuItem -> num.
Variable zero : num.
Variable add mul : num -> num -> num.
Variable ofInt : Z -> num.

Record OrderData : Type := mkOrderData {
  customer_name : string;
  customer_phone : string;
  customer_email : string;
  order_type : OrderType;
  pickup_time : string;
  notes : string;
  estimatedWaitMinutes : option Z
}.

Record OrderItemInput : Type := mkOrderItemInput {
  menu_item_id : string;
  quantity : Z;
  item_name : string;
  item_price : num
}.

(** ** The form: handleSubmit *)

Record FormState : Type := mkFormState {
  form_name : string;
  form_phone : string;
  form_email : string;
  form_orderType : OrderType;
  form_preferredPickupTime : string;
  form_notes : string;
  form_quantities : gmap string Z
}.

(** The [items] the form hands to the server action. *)
Definition submittedItems (menuItems : list MenuItem) (form : FormState)
  : list OrderItemInput :=
  map (fun m => mkOrderItemInput (OrderForm.id m) (quantityOf (form_quantities form) (OrderForm.id m))
                  (OrderForm.name m) (getPrice m))
    (List.filter (fun m => (0 <? quantityOf (form_quantities form) (OrderForm.id m))%Z)
       (filteredMenuItems menuItems (form_orderType form))).

(** What the form does on submit: it shows an error, or calls the server
    action with these arguments. *)
Inductive Submission : Type :=
| ShowError (message : string)
| CallPlaceOrder (eventId : string) (orderData : OrderData) (items : list OrderItemInput).

Definition handleSubmit (eventId : string) (menuItems : list MenuItem) (form : FormState)
  : Submission :=
  if isEmpty (trim (chars (form_name form))) then ShowError "Please enter your name."
  else if isEmpty (trim (chars (form_email form))) then ShowError "Please enter your email."
  else
    CallPlaceOrder eventId
      (mkOrderData (trimmed (form_name form)) (trimmed (form_phone form))
         (trimmed (form_email form)) (form_orderType form)
         (trimmed (form_preferredPickupTime form)) (trimmed (form_notes form))
         (OrderForm.estimatedWaitMinutes
            (lineItems menuItems (form_orderType form) (form_quantities form))))
      (submittedItems menuItems form).

(** The lines of the confirmation the form shows after a success: name,
    quantity and unit price. *)
Definition confirmationLines (menuItems : list MenuItem) (form : FormState)
  : list (string * Z * num) :=
  map (fun l => (OrderForm.name (item l), qty l, getPrice (item l)))
    (lineItems menuItems (form_orderType form) (form_quantities form)).

(** ** The server action: placeOrder *)

(** The row inserted into [orders]. *)
Record NewOrder : Type := mkNewOrder {
  new_event_id : string;
  new_customer_name : string;
  new_customer_phone : option string;
  new_customer_email : option string;
  new_order_type : OrderType;
  new_pickup_time : option string;
  new_notes : option string;
  new_status : string
}.

(** A row inserted into [order_items]. *)
Record OrderItemRow : Type := mkOrderItemRow {
  row_order_id : string;
  row_menu_item_id : string;
  row_quantity : Z;
  row_item_name : string;
  row_item_price : num
}.

(** The columns selected from the inserted order. *)
Record InsertedOrder : Type := mkInsertedOrder {
  inserted_id : string;
  inserted_customer_name : string
}.

(** The row of [events] with its location: [locations] is absent, or one
    object or an array of them, here the list of their names. *)
Record EventRow : Type := mkEventRow {
  row_event_date : string;
  row_locations : option (list (option string))
}.

Record OrderConfirmationData : Type := mkOrderConfirmationData {
  locationName : string;
  eventDate : string;
  items : list (string * Z * num);
  total : num;
  conf_estimatedWaitMinutes : option Z;
  pickupTime : option string
}.

Inductive Effect : Type :=
| InsertOrder (row : NewOrder)
| InsertOrderItems (rows : list OrderItemRow)
| SelectEvent (eventId : string)
| SendOrderConfirmation (to : string) (data : OrderConfirmationData)
| ConsoleError (message : string).

(** The answers of the outside world. *)
Record Env : Type := mkEnv {
  (** the [data] and the message of the [error] of the insert into [orders] *)
  insertOrder : NewOrder -> option InsertedOrder * option string;
  (** the message of the [error] of the insert into [order_items] *)
  insertOrderItems : list OrderItemRow -> option string;
  (** the [data] of the select from [events] *)
  selectEvent : string -> option EventRow;
  (** [new Date(d + "T12:00:00").toLocaleDateString("en-US", ...)] *)
  formatEventDate : string -> string
}.

Inductive PlaceOrderResult : Type :=
| Failure (error : string)
| Success (order : InsertedOrder).

Definition positiveItems (items : list OrderItemInput) : list OrderItemInput :=
  List.filter (fun i => (0 <? quantity i)%Z) items.

Definition orderTotal (items : list OrderItemInput) : num :=
  fold_left (fun sum i => add sum (mul (ofInt (quantity i)) (item_price i))) items zero.

Definition confirmationData (env : Env) (eventId : string) (orderData : OrderData)
    (items : list OrderItemInput) : OrderConfirmationData :=
  let eventRow := selectEvent env eventId in
  let locationName :=
    match eventRow with
    | Some row =>
        match row_locations row with
        | Some (Some n :: _) => n
        | _ => "Fish Fry"%string
        end
    | None => "Fish Fry"%string
    end in
  let eventDate :=
    match eventRow with
    | Some row =>
        if isEmpty (chars (row_event_date row)) then ""%string
        else formatEventDate env (row_event_date row)
    | None => ""%string
    end in
  let orderItemsForEmail := positiveItems items in
  mkOrderConfirmationData locationName eventDate
    (map (fun i => (item_name i, quantity i, item_price i)) orderItemsForEmail)
    (orderTotal orderItemsForEmail)
    (estimatedWaitMinutes orderData)
    (trimmedOrNull (pickup_time orderData)).

(** The row the action inserts into [orders]. *)
Definition newOrder (eventId : string) (orderData : OrderData) : NewOrder :=
  mkNewOrder eventId (trimmed (customer_name orderData))
    (trimmedOrNull (customer_phone orderData))
    (trimmedOrNull (customer_email orderData))
    (order_type orderData)
    (trimmedOrNull (pickup_time orderData))
    (trimmedOrNull (notes orderData))
    "pending".

(** The rows the action inserts into [order_items]. *)
Definition orderItemRows (order : InsertedOrder) (items : list OrderItemInput)
  : list OrderItemRow :=
  map (fun i => mkOrderItemRow (inserted_id order) (menu_item_id i) (quantity i)
                  (item_name i) (item_price i))
    (positiveItems items).

(** The result of the action and, in order, what it did to the tables, the
    e-mail module and the console. *)
Definition placeOrder (env : Env) (eventId : string) (orderData : OrderData)
    (items : list OrderItemInput) : PlaceOrderResult * list Effect :=
  let row := newOrder eventId orderData in
  match insertOrder env row with
  | (_, Some message) =>
      (Failure message, [InsertOrder row; ConsoleError "Order insert error:"])
  | (None, None) =>
      (Failure "Failed to create order", [InsertOrder row; ConsoleError "Order insert error:"])
  | (Some order, None) =>
      let orderItems := orderItemRows order items in
      let itemsError :=
        if (0 <? length orderItems)%nat then insertOrderItems env orderItems else None in
      let itemsEffects :=
        if (0 <? length orderItems)%nat then [InsertOrderItems orderItems] else [] in
      match itemsError with
      | Some message =>
          (Failure message,
           [InsertOrder row] ++ itemsEffects ++ [ConsoleError "Order items insert error:"])
      | None =>
          let customerEmail := trimmed (customer_email orderData) in
          let mail :=
            if isEmpty (chars customerEmail) then []
            else [SelectEvent eventId;
                  SendOrderConfirmation customerEmail
                    (confirmationData env eventId orderData items)] in
          (Success (mkInsertedOrder (inserted_id order) (inserted_customer_name order)),
           [InsertOrder row] ++ itemsEffects ++ mail)
      end
  end.

End Submit.

Arguments mkOrderItemInput {num}.
Arguments menu_item_id {num} o.
Arguments quantity {num} o.
Arguments item_name {num} o.
Arguments item_price {num} o.
Arguments CallPlaceOrder {num}.
Arguments ShowError {num}.
Arguments InsertOrder {num}.
Arguments InsertOrderItems {num}.
Arguments SelectEvent {num}.
Arguments SendOrderConfirmation {num}.
Arguments ConsoleError {num}.
Arguments mkEnv {num}.
Arguments insertOrder {num} e.
Arguments insertOrderItems {num} e.
Arguments selectEvent {num} e.
Arguments formatEventDate {num} e.
Arguments mkOrderItemRow {num}.
Arguments row_order_id {num} o.
Arguments row_menu_item_id {num} o.
Arguments row_quantity {num} o.
Arguments row_item_name {num} o.
Arguments row_item_price {num} o.
Arguments mkOrderConfirmationData {num}.
Arguments locationName {num} o.
Arguments eventDate {num} o.
Arguments items {num} o.
Arguments total {num} o.
Arguments conf_estimatedWaitMinutes {num} o.
Arguments pickupTime {num} o.
Arguments positiveItems {num}.

(** ** Vocabulary for the properties of placeOrder *)

(** A confirmation was handed to the e-mail module. *)
Definition mailed {num} (effects : list (Effect (num := num))) : Prop :=
  exists to data, In (SendOrderConfirmation to data) effects.

End OrderSubmit.

Module SubmitSamples.
Import EventList OrderForm OrderSubmit.

Definition sampleMenu : list MenuItem :=
  [ mkMenuItem "m1" "Cod" None "12.00" "Fish" (Some 15%Z) None None None;
    mkMenuItem "m2" "Fries" None "3.00" "Sides" None None (Some true) None;
    mkMenuItem "m3" "Pie" None "4.00" "Desserts" (Some 5%Z) None None None ].

(** Prices in whole dollars. *)
Definition samplePrice (m : MenuItem) : Z :=
  if String.eqb (OrderForm.id m) "m1" then 12%Z
  else if String.eqb (OrderForm.id m) "m2" then 3%Z else 4%Z.

Definition sampleCounts : gmap string count :=
  <["m1"%string := Count 2]> (<["m2"%string := Count 1]> ∅).

Definition sampleQuantities : gmap string Z :=
  <["m1"%string := 2%Z]> (<["m2"%string := 1%Z]> ∅).

Definition sampleForm : FormState :=
  mkFormState " Pat " "" "pat@example.org " pickup "" "" sampleQuantities.

Definition sampleEventRow : EventRow :=
  mkEventRow "2026-03-06" (Some [Some "Parish Hall"%string]).

(** Both inserts succeed. *)
Definition sampleEnv : Env (num := Z) :=
  mkEnv (fun row => (Some (mkInsertedOrder "o7" (new_customer_name row)), None))
    (fun _ => None) (fun _ => Some sampleEventRow) (fun d => d).

(** The insert of the items is refused. *)
Definition itemsRefused : Env (num := Z) :=
  mkEnv (fun row => (Some (mkInsertedOrder "o7" (new_customer_name row)), None))
    (fun _ => Some "items refused"%string) (fun _ => Some sampleEventRow) (fun d => d).

Definition sampleOrderData : OrderData :=
  mkOrderData "Pat" "" "pat@example.org" pickup "" "" (Some 15%Z).

Definition sampleItems : list (OrderItemInput (num := Z)) :=
  [ mkOrderItemInput "m1" 2%Z "Cod" 12%Z; mkOrderItemInput "m3" 0%Z "Pie" 4%Z ].

(** What the form hands over for [sampleForm]: the fries are for dining in
    only and the order is for pickup. *)
Definition submittedSample : list (OrderItemInput (num := Z)) :=
  [ mkOrderItemInput "m1" 2%Z "Cod" 12%Z ].

End SubmitSamples.

Module OriginSamples.
Import Geo EventList GeoLookup Origin.

(** A world without network: every request fails. *)
Definition offline (url : list ascii) : FetchResult := FetchRejected.

Definition noFloat (s : string) : Z := 0%Z.

(** [String(Object)] and [String(Object.prototype)]. *)
Definition objectText (m : protoMember) : list ascii :=
  match m with
  | ObjectFunction => chars "function Object() { [native code] }"
  | ObjectPrototype => chars "[object Object]"
  end.

Definition idle : GeoState Z := mkGeoState None false None.

End OriginSamples.

(** * Proofs: geo primitives *)

Module GeoFacts.
Import Geo.

Ltac ascii_cases c := destruct c as [[] [] [] [] [] [] [] []].

Lemma word_not_space c : isWordChar c = true -> isWhiteSpace c = false.
Proof. ascii_cases c; vm_compute; congruence. Qed.

Lemma toLowerChar_idem c : toLowerChar (toLowerChar c) = toLowerChar c.
Proof. ascii_cases c; vm_compute; reflexivity. Qed.

Lemma chars_of_string l : chars (string_of_list_ascii l) = l.
Proof. apply list_ascii_of_string_of_list_ascii. Qed.

(** *** Substrings *)

Lemma startsWith_spec s sub :
  startsWith s sub = true <-> exists post, s = sub ++ post.
Proof.
  revert s. induction sub as [|x sub IH]; intros s; simpl.
  - split; [intros _; exists s; reflexivity | reflexivity].
  - destruct s as [|c r].
    + split; [discriminate | intros [post H]; discriminate].
    + rewrite andb_true_iff, Ascii.eqb_eq, IH. split.
      * intros [-> [post ->]]. exists post. reflexivity.
      * intros [post H]. injection H as -> ->. split; [reflexivity | eauto].
Qed.

Lemma includes_spec s sub : includes s sub = true <-> Substring sub s.
Proof.
  unfold Substring. induction s as [|c r IH].
  - simpl. rewrite orb_false_r, startsWith_spec. split.
    + intros [post H]. exists [], post. exact H.
    + intros [pre [post H]]. destruct pre; [|discriminate].
      exists post. exact H.
  - change (includes (c :: r) sub) with (startsWith (c :: r) sub || includes r sub).
    rewrite orb_true_iff, startsWith_spec, IH. split.
    + intros [[post H] | [pre [post H]]].
      * exists [], post. exact H.
      * exists (c :: pre), post. simpl. rewrite H. reflexivity.
    + intros [pre [post H]]. destruct pre as [|p pre].
      * left. exists post. exact H.
      * right. injection H as _ H. exists pre, post. exact H.
Qed.


(** *** The literal matcher *)

Lemma stripLiteral_spec lit s rest :
  stripLiteral lit s = Some rest <-> s = lit ++ rest.
Proof.
  revert s. induction lit as [|x lit IH]; intros s; simpl.
  - split; [intros [= ->] | intros ->]; reflexivity.
  - destruct s as [|c r]; [split; discriminate|].
    destruct (Ascii.eqb x c) eqn:E.
    + apply Ascii.eqb_eq in E as ->. rewrite IH. split; [intros -> | intros [= ->]]; reflexivity.
    + apply Ascii.eqb_neq in E. split; [discriminate | intros [= -> _]; congruence].
Qed.

Lemma wholeWordAt_nil s : wholeWordAt [] s = negb (headIsWord s).
Proof. reflexivity. Qed.

Lemma wholeWordAt_cons x w c s :
  wholeWordAt (x :: w) (c :: s) = Ascii.eqb x c && wholeWordAt w s.
Proof. unfold wholeWordAt. simpl. destruct (Ascii.eqb x c); reflexivity. Qed.

Lemma wholeWordAt_cons_nil x w : wholeWordAt (x :: w) [] = false.
Proof. reflexivity. Qed.

Lemma lastIsWord_word lit :
  lit <> [] -> forallb isWordChar lit = true -> lastIsWord lit = true.
Proof.
  intros Hne Hall. unfold lastIsWord.
  destruct (rev lit) as [|c l] eqn:E.
  - apply (f_equal (@rev ascii)) in E. rewrite rev_involutive in E. contradiction.
  - rewrite forallb_forall in Hall. apply Hall. apply in_rev. rewrite E. left. reflexivity.
Qed.

(** A pattern whose literal is made of word characters matches at a position
    exactly when the literal stands there as a whole word; the optional dot
    changes the length of the match, never its existence. *)
Lemma matchAbbrev_word lit pw s :
  lit <> [] -> forallb isWordChar lit = true ->
  match matchAbbrev lit pw s with
  | Some (w, rest) =>
      pw = false /\ wholeWordAt lit s = true /\
      ((w = true /\ s = lit ++ rest /\ headIsWord rest = false) \/
       (w = false /\ s = lit ++ "."%char :: rest /\ headIsWord rest = true))
  | None => negb pw && wholeWordAt lit s = false
  end.
Proof.
  intros Hne Hall. pose proof (lastIsWord_word lit Hne Hall) as Hlast.
  unfold matchAbbrev, wholeWordAt. destruct lit as [|x lit]; [contradiction|].
  rewrite Hlast. unfold atBoundary.
  destruct (stripLiteral (x :: lit) s) as [rest|] eqn:E.
  - apply stripLiteral_spec in E as Es.
    assert (Hhead : headIsWord s = true).
    { rewrite Es. simpl in *. apply andb_true_iff in Hall. tauto. }
    rewrite Hhead. destruct pw; simpl; [reflexivity|].
    destruct rest as [|d rest']; simpl.
    + repeat split; try reflexivity. left. repeat split; assumption.
    + destruct (Ascii.eqb d ".") eqn:Ed; simpl.
      * apply Ascii.eqb_eq in Ed as ->.
        change (isWordChar ".") with false. simpl.
        destruct (headIsWord rest') eqn:Eh.
        -- repeat split; try reflexivity. right. repeat split; assumption.
        -- repeat split; try reflexivity. left. repeat split; assumption.
      * destruct (isWordChar d) eqn:Ew; simpl; [reflexivity|].
        repeat split; try reflexivity. left. repeat split; try assumption.
  - destruct (xorb pw (headIsWord s)); [|apply andb_false_r]. apply andb_false_r.
Qed.

Lemma matchAbbrev_shorter lit pw s w rest :
  matchAbbrev lit pw s = Some (w, rest) -> length rest < length s.
Proof.
  unfold matchAbbrev. destruct lit as [|x lit]; [discriminate|].
  destruct (atBoundary pw s); [|discriminate].
  destruct (stripLiteral (x :: lit) s) as [rest0|] eqn:E; [|discriminate].
  apply stripLiteral_spec in E as ->. simpl. rewrite length_app.
  destruct rest0 as [|d rest']; simpl;
    repeat match goal with
      | |- context [if ?b then _ else _] => destruct b
      end;
    try discriminate; intros [= _ <-]; simpl; lia.
Qed.

(** *** The global replace: fuel and unfolding *)

Lemma replaceFuel_enough lit rep n : forall m pw s,
  length s <= n -> length s <= m ->
  replaceFuel n lit rep pw s = replaceFuel m lit rep pw s.
Proof.
  induction n as [|n IH]; intros m pw s Hn Hm.
  - destruct s; [|simpl in Hn; lia]. destruct m; reflexivity.
  - destruct m as [|m]; [destruct s; [reflexivity | simpl in Hm; lia]|].
    simpl. destruct s as [|c r]; [reflexivity|].
    destruct (matchAbbrev lit pw (c :: r)) as [[w rest]|] eqn:E.
    + apply matchAbbrev_shorter in E. simpl in *. f_equal. apply IH; lia.
    + simpl in *. f_equal. apply IH; lia.
Qed.

Lemma replaceFrom_nil lit rep pw : replaceFrom lit rep pw [] = [].
Proof. reflexivity. Qed.

Lemma replaceFrom_cons lit rep pw c r :
  replaceFrom lit rep pw (c :: r) =
  match matchAbbrev lit pw (c :: r) with
  | Some (w, rest) => rep ++ replaceFrom lit rep w rest
  | None => c :: replaceFrom lit rep (isWordChar c) r
  end.
Proof.
  unfold replaceFrom. simpl.
  destruct (matchAbbrev lit pw (c :: r)) as [[w rest]|] eqn:E; [|reflexivity].
  apply matchAbbrev_shorter in E. simpl in E. f_equal.
  apply replaceFuel_enough; lia.
Qed.


(** *** Runs of word characters *)

(** A short word cannot stand at the start of a longer run of word
    characters. *)
Lemma wholeWordAt_longer_word w : forall l t,
  forallb isWordChar l = true -> length w < length l ->
  wholeWordAt w (l ++ t) = false.
Proof.
  induction w as [|x w IH]; intros l t Hl Hlen.
  - destruct l as [|y l]; [simpl in Hlen; lia|]. simpl in Hl.
    apply andb_true_iff in Hl as [Hy _]. rewrite wholeWordAt_nil. simpl. rewrite Hy. reflexivity.
  - destruct l as [|y l]; [simpl in Hlen; lia|]. simpl in Hl.
    apply andb_true_iff in Hl as [_ Hl]. simpl app. rewrite wholeWordAt_cons.
    rewrite IH; [apply andb_false_r | exact Hl | simpl in Hlen; lia].
Qed.

Lemma hasMatch_through_word lit l : forall t,
  forallb isWordChar l = true ->
  hasMatch lit true (l ++ t) = hasMatch lit true t.
Proof.
  induction l as [|y l IH]; intros t Hl; [reflexivity|].
  simpl in Hl. apply andb_true_iff in Hl as [Hy Hl].
  simpl. rewrite Hy. apply IH. exact Hl.
Qed.

Lemma hasMatch_word_app lit l pw t :
  forallb isWordChar l = true -> length lit < length l ->
  hasMatch lit pw (l ++ t) = hasMatch lit true t.
Proof.
  intros Hl Hlen. destruct l as [|y l]; [simpl in Hlen; lia|].
  change ((y :: l) ++ t) with (y :: l ++ t).
  cbn [hasMatch]. change (y :: l ++ t) with ((y :: l) ++ t).
  rewrite wholeWordAt_longer_word by assumption.
  simpl in Hl. apply andb_true_iff in Hl as [Hy Hl].
  rewrite Hy, andb_false_r. simpl. apply hasMatch_through_word. exact Hl.
Qed.

(** *** One replacement pass *)

Section OnePass.
Variables lit rep : list ascii.
Hypothesis lit_nonempty : lit <> [].
Hypothesis lit_word : forallb isWordChar lit = true.

(** After a word character nothing matches, so the character is copied. *)
Lemma replaceFrom_after_word d r :
  replaceFrom lit rep true (d :: r) = d :: replaceFrom lit rep (isWordChar d) r.
Proof.
  rewrite replaceFrom_cons.
  pose proof (matchAbbrev_word lit true (d :: r) lit_nonempty lit_word) as H.
  destruct (matchAbbrev lit true (d :: r)) as [[w rest]|]; [|reflexivity].
  destruct H as [H _]. discriminate.
Qed.

(** Without a whole-word occurrence the pass changes nothing. *)
Lemma replaceFrom_no_match s : forall pw,
  hasMatch lit pw s = false -> replaceFrom lit rep pw s = s.
Proof.
  induction s as [|c r IH]; intros pw H; [reflexivity|].
  simpl in H. apply orb_false_iff in H as [H1 H2].
  rewrite replaceFrom_cons.
  pose proof (matchAbbrev_word lit pw (c :: r) lit_nonempty lit_word) as Hm.
  destruct (matchAbbrev lit pw (c :: r)) as [[w rest]|].
  - destruct Hm as [-> [Hw _]]. simpl in H1. congruence.
  - f_equal. apply IH. exact H2.
Qed.

(** Whether a word stands at the head is not changed by the pass when the
    head follows a word character. *)
Lemma wholeWordAt_replaceFrom w : forallb isWordChar w = true -> forall r,
  wholeWordAt w (replaceFrom lit rep true r) = wholeWordAt w r.
Proof.
  induction w as [|x w IH]; intros Hw r.
  - destruct r as [|d r]; [reflexivity|]. rewrite replaceFrom_after_word. reflexivity.
  - destruct r as [|d r]; [reflexivity|]. rewrite replaceFrom_after_word.
    rewrite !wholeWordAt_cons. simpl in Hw. apply andb_true_iff in Hw as [Hx Hw].
    destruct (Ascii.eqb x d) eqn:E; [|reflexivity].
    apply Ascii.eqb_eq in E as <-. rewrite Hx. simpl. apply IH. exact Hw.
Qed.

Hypothesis rep_word : forallb isWordChar rep = true.

Section Other.
Variable lit' : list ascii.
Hypothesis lit'_nonempty : lit' <> [].
Hypothesis lit'_word : forallb isWordChar lit' = true.
Hypothesis lit'_short : length lit' < length rep.

Lemma hasMatch_rep_app pw t :
  hasMatch lit' pw (rep ++ t) = hasMatch lit' true t.
Proof. apply hasMatch_word_app; assumption. Qed.

(** A match later in the text is a match of the whole text. *)
Lemma hasMatchAvoid_suffix pre : forall pw rest,
  hasMatchAvoid lit' lit (match rev pre with c :: _ => isWordChar c | [] => pw end) rest = true ->
  hasMatchAvoid lit' lit pw (pre ++ rest) = true.
Proof.
  induction pre as [|c pre IH]; intros pw rest H; [exact H|].
  simpl. apply orb_true_iff. right. apply IH.
  simpl in H. destruct (rev pre) as [|z l] eqn:E; simpl in H; exact H.
Qed.

(** Every whole-word occurrence of [lit'] in the output of the pass comes
    from one in the input, at a place where [lit] did not match.  The
    output is read after a character of wordness [pwOut]; this is either
    the wordness [pwIn] of the input character, or the end of a
    replacement that swallowed a dot, and then a word character follows. *)
Lemma hasMatch_replaceFrom n : forall s pwIn pwOut,
  length s <= n ->
  pwIn = pwOut \/ (pwIn = false /\ pwOut = true /\ headIsWord s = true) ->
  hasMatch lit' pwOut (replaceFrom lit rep pwIn s) = true ->
  hasMatchAvoid lit' lit pwIn s = true.
Proof.
  induction n as [|n IH]; intros s pwIn pwOut Hlen Hst Hout.
  - destruct s; [discriminate | simpl in Hlen; lia].
  - destruct s as [|c r]; [discriminate|].
    rewrite replaceFrom_cons in Hout.
    pose proof (matchAbbrev_word lit pwIn (c :: r) lit_nonempty lit_word) as Hm.
    destruct (matchAbbrev lit pwIn (c :: r)) as [[w rest]|] eqn:E.
    + rewrite hasMatch_rep_app in Hout.
      apply matchAbbrev_shorter in E as Hsh.
      assert (Hrest : hasMatchAvoid lit' lit w rest = true).
      { apply (IH rest w true); [simpl in *; lia | | exact Hout].
        destruct Hm as [_ [_ [[-> _] | [-> [_ Hh]]]]]; [left; reflexivity | right; auto]. }
      destruct Hm as [_ [_ [[-> [-> _]] | [-> [-> _]]]]].
      * apply hasMatchAvoid_suffix.
        pose proof (lastIsWord_word lit lit_nonempty lit_word) as Hl.
        unfold lastIsWord in Hl. destruct (rev lit); [discriminate|].
        rewrite Hl. exact Hrest.
      * change (lit ++ "."%char :: rest) with (lit ++ ["."%char] ++ rest).
        rewrite app_assoc. apply hasMatchAvoid_suffix.
        rewrite rev_app_distr. simpl. exact Hrest.
    + simpl in Hout. apply orb_true_iff in Hout as [Hhead | Htail].
      * apply andb_true_iff in Hhead as [Hpw Hw].
        destruct pwOut; [discriminate|].
        destruct Hst as [-> | [_ [? _]]]; [|discriminate].
        simpl in Hm. simpl. rewrite Hm.
        destruct lit' as [|x l'] eqn:E'; [contradiction|].
        rewrite wholeWordAt_cons in Hw |- *.
        apply andb_true_iff in Hw as [Hx Hw]. rewrite Hx. simpl.
        apply Ascii.eqb_eq in Hx as <-.
        simpl in lit'_word. apply andb_true_iff in lit'_word as [Hxw Hl'].
        rewrite Hxw in Hw. rewrite wholeWordAt_replaceFrom in Hw by exact Hl'.
        rewrite Hw. reflexivity.
      * simpl. apply orb_true_iff. right.
        apply (IH r (isWordChar c) (isWordChar c)); [simpl in Hlen; lia | left; reflexivity | exact Htail].
Qed.

Lemma hasMatchAvoid_hasMatch s : forall pw,
  hasMatchAvoid lit' lit pw s = true -> hasMatch lit' pw s = true.
Proof.
  induction s as [|c r IH]; intros pw H; [discriminate|].
  simpl in *. apply orb_true_iff in H as [H | H]; apply orb_true_iff.
  - left. apply andb_true_iff in H as [H _]. exact H.
  - right. apply IH. exact H.
Qed.

(** The pass creates no whole-word occurrence of another short word. *)
Lemma replaceAll_keeps_absent s :
  hasMatch lit' false s = false -> hasMatch lit' false (replaceAll lit rep s) = false.
Proof.
  intros H. destruct (hasMatch lit' false (replaceAll lit rep s)) eqn:E; [|reflexivity].
  apply (hasMatch_replaceFrom (length s)) in E; [|lia|left; reflexivity].
  apply hasMatchAvoid_hasMatch in E. congruence.
Qed.
End Other.

Lemma hasMatchAvoid_self s : forall pw, hasMatchAvoid lit lit pw s = false.
Proof.
  induction s as [|c r IH]; intros pw; [reflexivity|].
  simpl. rewrite IH. destruct (wholeWordAt lit (c :: r)), pw; reflexivity.
Qed.

(** The pass removes every whole-word occurrence of its own literal. *)
Lemma replaceAll_removes s :
  length lit < length rep -> hasMatch lit false (replaceAll lit rep s) = false.
Proof.
  intros Hlen. destruct (hasMatch lit false (replaceAll lit rep s)) eqn:E; [|reflexivity].
  apply (hasMatch_replaceFrom lit lit_nonempty lit_word Hlen (length s)) in E;
    [|lia|left; reflexivity].
  rewrite hasMatchAvoid_self in E. discriminate.
Qed.

End OnePass.

(** The pass outputs characters of the input and of the replacement only. *)
Lemma matchAbbrev_suffix lit pw s w rest :
  matchAbbrev lit pw s = Some (w, rest) -> exists pre, s = pre ++ rest.
Proof.
  unfold matchAbbrev. destruct lit as [|x lit]; [discriminate|].
  destruct (atBoundary pw s); [|discriminate].
  destruct (stripLiteral (x :: lit) s) as [rest0|] eqn:E; [|discriminate].
  apply stripLiteral_spec in E as ->.
  destruct rest0 as [|d rest'];
    repeat match goal with
      | |- context [if ?b then _ else _] => destruct b
      end;
    try discriminate; intros [= _ <-].
  - exists (x :: lit). reflexivity.
  - exists ((x :: lit) ++ [d]). rewrite <- app_assoc. reflexivity.
  - exists (x :: lit). reflexivity.
Qed.

Lemma replaceFuel_Forall (P : ascii -> Prop) lit rep n : forall pw s,
  Forall P rep -> Forall P s -> Forall P (replaceFuel n lit rep pw s).
Proof.
  induction n as [|n IH]; intros pw s Hrep Hs; [exact Hs|].
  simpl. destruct s as [|c r]; [constructor|].
  destruct (matchAbbrev lit pw (c :: r)) as [[w rest]|] eqn:E.
  - apply matchAbbrev_suffix in E as [pre E]. rewrite E in Hs.
    apply Forall_app in Hs as [_ Hs]. apply Forall_app. split; [exact Hrep | apply IH; assumption].
  - inversion Hs; subst. constructor; [assumption | apply IH; assumption].
Qed.

(** *** White space *)

Lemma space_not_word c : isWhiteSpace c = true -> isWordChar c = false.
Proof.
  intros H. destruct (isWordChar c) eqn:E; [|reflexivity].
  apply word_not_space in E. congruence.
Qed.

Lemma collapseFrom_Forall (P : ascii -> Prop) s : forall b,
  P " "%char -> Forall P s -> Forall P (collapseFrom b s).
Proof.
  induction s as [|c r IH]; intros b Hsp Hs; [constructor|].
  inversion Hs; subst. simpl.
  destruct (isWhiteSpace c); [destruct b|]; try constructor; auto.
Qed.

Lemma trimStart_Forall (P : ascii -> Prop) s : Forall P s -> Forall P (trimStart s).
Proof.
  induction s as [|c r IH]; intros Hs; [constructor|].
  simpl. destruct (isWhiteSpace c); [|exact Hs]. inversion Hs; auto.
Qed.

Lemma trimEnd_Forall (P : ascii -> Prop) s : Forall P s -> Forall P (trimEnd s).
Proof.
  induction s as [|c r IH]; intros Hs; [constructor|].
  inversion Hs as [|? ? Hc Hr]; subst. simpl. specialize (IH Hr).
  destruct (trimEnd r) as [|d r'].
  - destruct (isWhiteSpace c); [constructor | constructor; [exact Hc | constructor]].
  - constructor; [exact Hc | exact IH].
Qed.

Lemma trimEnd_idem s : trimEnd (trimEnd s) = trimEnd s.
Proof.
  induction s as [|c r IH]; [reflexivity|].
  simpl. destruct (trimEnd r) as [|d r'] eqn:E.
  - destruct (isWhiteSpace c) eqn:Ec; [reflexivity|]. simpl. rewrite Ec. reflexivity.
  - change (trimEnd (c :: d :: r')) with
      (match trimEnd (d :: r') with
       | [] => if isWhiteSpace c then [] else [c]
       | r'' => c :: r''
       end).
    rewrite IH. reflexivity.
Qed.

Lemma trimStart_head s :
  match trimStart s with
  | c :: _ => isWhiteSpace c = false
  | [] => True
  end.
Proof.
  induction s as [|c r IH]; [exact I|].
  simpl. destruct (isWhiteSpace c) eqn:E; [exact IH | exact E].
Qed.

Lemma trimStart_trimEnd_trimStart s :
  trimStart (trimEnd (trimStart s)) = trimEnd (trimStart s).
Proof.
  pose proof (trimStart_head s) as H.
  destruct (trimStart s) as [|c r]; [reflexivity|].
  simpl. destruct (trimEnd r); simpl; rewrite H; simpl; rewrite ?H; reflexivity.
Qed.

Lemma trim_idem s : trim (trim s) = trim s.
Proof.
  unfold trim. rewrite trimStart_trimEnd_trimStart. apply trimEnd_idem.
Qed.

Lemma trimEnd_split s :
  exists sfx, s = trimEnd s ++ sfx /\ forallb isWhiteSpace sfx = true.
Proof.
  induction s as [|c r [sfx [IH Hs]]]; [exists []; split; reflexivity|].
  simpl. destruct (trimEnd r) as [|d r'] eqn:E.
  - destruct (isWhiteSpace c) eqn:Ec.
    + exists (c :: sfx). simpl in IH. subst r. split; [reflexivity|]. simpl. rewrite Ec. exact Hs.
    + exists sfx. simpl in *. subst r. split; [reflexivity | exact Hs].
  - exists sfx. split; [|exact Hs]. simpl. f_equal. exact IH.
Qed.

(** *** Collapsed texts *)

Lemma collapsedFrom_collapseFrom s : forall b,
  collapsedFrom b (collapseFrom b s) = true.
Proof.
  induction s as [|c r IH]; intros b; [reflexivity|].
  simpl. destruct (isWhiteSpace c) eqn:E.
  - destruct b; [apply IH|]. simpl. apply IH.
  - simpl. rewrite E. apply IH.
Qed.

Lemma collapseFrom_fixed s : forall b,
  collapsedFrom b s = true -> collapseFrom b s = s.
Proof.
  induction s as [|c r IH]; intros b H; [reflexivity|].
  simpl in *. destruct (isWhiteSpace c).
  - apply andb_true_iff in H as [H Hr]. apply andb_true_iff in H as [Hb Hc].
    destruct b; [discriminate|]. apply Ascii.eqb_eq in Hc as ->.
    f_equal. apply IH. exact Hr.
  - f_equal. apply IH. exact H.
Qed.

Lemma collapsedFrom_weaken s : collapsedFrom true s = true -> collapsedFrom false s = true.
Proof.
  destruct s as [|c r]; [reflexivity|]. simpl.
  destruct (isWhiteSpace c); [discriminate | auto].
Qed.

Lemma collapsedFrom_trimStart s : forall b,
  collapsedFrom b s = true -> collapsedFrom false (trimStart s) = true.
Proof.
  induction s as [|c r IH]; intros b H; [reflexivity|].
  simpl in *. destruct (isWhiteSpace c) eqn:E.
  - apply andb_true_iff in H as [_ Hr]. apply (IH true). exact Hr.
  - simpl. rewrite E. exact H.
Qed.

Lemma collapsedFrom_trimEnd s : forall b,
  collapsedFrom b s = true -> collapsedFrom b (trimEnd s) = true.
Proof.
  induction s as [|c r IH]; intros b H; [reflexivity|].
  simpl in H. simpl trimEnd.
  destruct (trimEnd r) as [|d r'] eqn:E.
  - destruct (isWhiteSpace c) eqn:Ec; [reflexivity|]. simpl. rewrite Ec. reflexivity.
  - simpl. destruct (isWhiteSpace c).
    + apply andb_true_iff in H as [H Hr]. rewrite H. apply (IH true) in Hr. exact Hr.
    + apply (IH false) in H. exact H.
Qed.

(** *** Whole words and white space *)

Section Words.
Variable lit : list ascii.
Hypothesis lit_nonempty : lit <> [].
Hypothesis lit_word : forallb isWordChar lit = true.

Lemma wholeWordAt_collapse w : forallb isWordChar w = true -> forall s,
  wholeWordAt w (collapseFrom false s) = wholeWordAt w s.
Proof.
  induction w as [|x w IH]; intros Hw s.
  - destruct s as [|c r]; [reflexivity|]. simpl.
    destruct (isWhiteSpace c) eqn:E; [|reflexivity].
    rewrite !wholeWordAt_nil. simpl. rewrite (space_not_word c E). reflexivity.
  - simpl in Hw. apply andb_true_iff in Hw as [Hx Hw].
    destruct s as [|c r]; [reflexivity|]. simpl.
    destruct (isWhiteSpace c) eqn:E.
    + rewrite !wholeWordAt_cons.
      destruct (Ascii.eqb x " ") eqn:E1.
      { apply Ascii.eqb_eq in E1. subst x. discriminate. }
      destruct (Ascii.eqb x c) eqn:E2; [|reflexivity].
      apply Ascii.eqb_eq in E2. subst x. apply space_not_word in E. congruence.
    + rewrite !wholeWordAt_cons. rewrite IH by exact Hw. reflexivity.
Qed.

Lemma wholeWordAt_lit_space c r :
  isWordChar c = false -> wholeWordAt lit (c :: r) = false.
Proof.
  intros Hc. destruct lit as [|x l]; [contradiction|].
  rewrite wholeWordAt_cons. simpl in lit_word.
  apply andb_true_iff in lit_word as [Hx _].
  destruct (Ascii.eqb x c) eqn:E; [|reflexivity].
  apply Ascii.eqb_eq in E. congruence.
Qed.

Lemma hasMatch_collapse s : forall b pw,
  (b = true -> pw = false) ->
  hasMatch lit pw (collapseFrom b s) = true -> hasMatch lit pw s = true.
Proof.
  induction s as [|c r IH]; intros b pw Hb H; [discriminate|].
  simpl in H. cbn [hasMatch]. apply orb_true_iff.
  destruct (isWhiteSpace c) eqn:E.
  - rewrite (space_not_word c E). right. destruct b.
    + rewrite Hb in H by reflexivity. apply (IH true false); auto.
    + cbn [hasMatch] in H.
      rewrite (wholeWordAt_lit_space " "%char) in H by reflexivity.
      rewrite andb_false_r in H. simpl in H. apply (IH true false); auto.
  - cbn [hasMatch] in H. apply orb_true_iff in H as [H | H].
    + left. apply andb_true_iff in H as [Hpw H]. rewrite Hpw. simpl.
      destruct lit as [|x l]; [contradiction|].
      rewrite wholeWordAt_cons in H |- *.
      simpl in lit_word. apply andb_true_iff in lit_word as [_ Hl].
      rewrite wholeWordAt_collapse in H by exact Hl. exact H.
    + right. apply (IH false); [discriminate | exact H].
Qed.

Lemma hasMatch_trimStart s :
  hasMatch lit false (trimStart s) = true -> hasMatch lit false s = true.
Proof.
  induction s as [|c r IH]; intros H; [discriminate|].
  simpl in H. destruct (isWhiteSpace c) eqn:E; [|exact H].
  cbn [hasMatch]. rewrite (space_not_word c E). apply orb_true_iff. right. auto.
Qed.

Lemma wholeWordAt_app_space w : forall t sfx,
  forallb isWhiteSpace sfx = true ->
  wholeWordAt w t = true -> wholeWordAt w (t ++ sfx) = true.
Proof.
  induction w as [|x w IH]; intros t sfx Hs H.
  - destruct t as [|d t]; [|exact H]. simpl. rewrite wholeWordAt_nil.
    destruct sfx as [|z sfx]; [reflexivity|]. simpl in *.
    apply andb_true_iff in Hs as [Hz _]. rewrite (space_not_word z Hz). reflexivity.
  - destruct t as [|d t]; [discriminate|]. simpl app.
    rewrite wholeWordAt_cons in H |- *. apply andb_true_iff in H as [-> H].
    simpl. apply IH; assumption.
Qed.

Lemma hasMatch_app_space t : forall pw sfx,
  forallb isWhiteSpace sfx = true ->
  hasMatch lit pw t = true -> hasMatch lit pw (t ++ sfx) = true.
Proof.
  induction t as [|c r IH]; intros pw sfx Hs H; [discriminate|].
  simpl app. cbn [hasMatch] in *. apply orb_true_iff in H as [H | H]; apply orb_true_iff.
  - left. apply andb_true_iff in H as [-> H]. simpl.
    apply (wholeWordAt_app_space lit (c :: r) sfx Hs H).
  - right. apply IH; assumption.
Qed.

Lemma hasMatch_trimEnd s pw :
  hasMatch lit pw (trimEnd s) = true -> hasMatch lit pw s = true.
Proof.
  intros H. destruct (trimEnd_split s) as [sfx [Hs Hws]].
  rewrite Hs. apply hasMatch_app_space; assumption.
Qed.

(** Trimming and collapsing bring no whole word into a text. *)
Lemma hasMatch_tidy s :
  hasMatch lit false s = false ->
  hasMatch lit false (trim (collapseWhitespace s)) = false.
Proof.
  intros H. destruct (hasMatch lit false (trim (collapseWhitespace s))) eqn:E; [|reflexivity].
  unfold trim, collapseWhitespace in E.
  apply hasMatch_trimEnd, hasMatch_trimStart in E.
  apply (hasMatch_collapse s false false) in E; [congruence | discriminate].
Qed.
End Words.

(** *** The table of replacements *)

Lemma replacements_good : forallb goodPair replacements = true.
Proof. reflexivity. Qed.

Lemma shortWord_inv w :
  shortWord w = true -> w <> [] /\ forallb isWordChar w = true /\ length w <= 2.
Proof.
  unfold shortWord. intros H.
  apply andb_true_iff in H as [H Hl]. apply andb_true_iff in H as [He Hw].
  apply Nat.leb_le in Hl. repeat split; try assumption.
  intros ->. discriminate.
Qed.

Lemma goodPair_inv p :
  goodPair p = true ->
  shortWord (fst p) = true /\ forallb isWordChar (snd p) = true /\ 3 <= length (snd p).
Proof.
  unfold goodPair. intros H.
  apply andb_true_iff in H as [H Hl]. apply andb_true_iff in H as [Hs Hw].
  apply Nat.leb_le in Hl. auto.
Qed.

Lemma step_removes p s :
  goodPair p = true -> hasMatch (fst p) false (step s p) = false.
Proof.
  intros Hp. apply goodPair_inv in Hp as [Hs [Hw Hl]].
  apply shortWord_inv in Hs as [Hne [Hlw Hll]].
  apply replaceAll_removes; try assumption. lia.
Qed.

Lemma step_keeps_absent p a s :
  goodPair p = true -> shortWord a = true ->
  hasMatch a false s = false -> hasMatch a false (step s p) = false.
Proof.
  intros Hp Ha H. apply goodPair_inv in Hp as [Hs [Hw Hl]].
  apply shortWord_inv in Hs as [Hne [Hlw Hll]].
  apply shortWord_inv in Ha as [Hane [Haw Hal]].
  apply replaceAll_keeps_absent; try assumption. lia.
Qed.

(** After the passes of a table no literal of the table that was absent
    before, or that one of the passes handles, stands as a whole word. *)
Lemma fold_absent rs : forallb goodPair rs = true -> forall s a,
  shortWord a = true ->
  hasMatch a false s = false \/ In a (map fst rs) ->
  hasMatch a false (fold_left step rs s) = false.
Proof.
  induction rs as [|p rs IH]; intros Hrs s a Ha H.
  - destruct H as [H | []]. exact H.
  - simpl in Hrs. apply andb_true_iff in Hrs as [Hp Hrs]. simpl.
    apply IH; try assumption.
    destruct H as [H | [<- | H]].
    + left. apply step_keeps_absent; assumption.
    + left. apply step_removes. exact Hp.
    + right. exact H.
Qed.

Lemma fold_fixed rs : forallb goodPair rs = true -> forall s,
  (forall p, In p rs -> hasMatch (fst p) false s = false) ->
  fold_left step rs s = s.
Proof.
  induction rs as [|p rs IH]; intros Hrs s H; [reflexivity|].
  simpl in Hrs. apply andb_true_iff in Hrs as [Hp Hrs]. simpl.
  assert (Hs : step s p = s).
  { apply goodPair_inv in Hp as [Hs _]. apply shortWord_inv in Hs as [Hne [Hw _]].
    apply replaceFrom_no_match; try assumption. apply H. left. reflexivity. }
  rewrite Hs. apply IH; [exact Hrs|]. intros q Hq. apply H. right. exact Hq.
Qed.

Lemma fold_Forall (P : ascii -> Prop) rs : forall s,
  Forall (fun p => Forall P (snd p)) rs -> Forall P s ->
  Forall P (fold_left step rs s).
Proof.
  induction rs as [|p rs IH]; intros s Hrs Hs; [exact Hs|].
  inversion Hrs; subst. simpl. apply IH; [assumption|].
  apply replaceFuel_Forall; assumption.
Qed.

(** *** Lower case *)

Lemma toLowerCase_lowerFixed s : Forall lowerFixed (toLowerCase s).
Proof.
  induction s as [|c r IH]; constructor; [apply toLowerChar_idem | exact IH].
Qed.

Lemma toLowerCase_fixed s : Forall lowerFixed s -> toLowerCase s = s.
Proof.
  induction 1 as [|c r Hc _ IH]; [reflexivity|].
  simpl. rewrite Hc. f_equal. exact IH.
Qed.

Lemma replacements_lowerFixed :
  Forall (fun p => Forall lowerFixed (snd p)) replacements.
Proof. repeat constructor. Qed.

(** *** normalizeChars *)

Lemma normalizeChars_eq s :
  normalizeChars s =
  trim (collapseWhitespace (applyReplacements (toLowerCase (trim s)))).
Proof. destruct s; reflexivity. Qed.

Lemma normalizeChars_idem s :
  normalizeChars (normalizeChars s) = normalizeChars s.
Proof.
  rewrite (normalizeChars_eq (normalizeChars s)).
  rewrite (normalizeChars_eq s).
  set (u := applyReplacements (toLowerCase (trim s))).
  set (t := trim (collapseWhitespace u)).
  assert (Hu : Forall lowerFixed u).
  { apply fold_Forall; [apply replacements_lowerFixed | apply toLowerCase_lowerFixed]. }
  assert (Ht : Forall lowerFixed t).
  { apply trimEnd_Forall, trimStart_Forall, collapseFrom_Forall; [reflexivity | exact Hu]. }
  assert (Hm : forall p, In p replacements -> hasMatch (fst p) false t = false).
  { intros p Hp.
    assert (Hg : goodPair p = true).
    { pose proof replacements_good as H. rewrite forallb_forall in H. apply H. exact Hp. }
    apply goodPair_inv in Hg as [Hs _].
    apply shortWord_inv in Hs as Hs'. destruct Hs' as [Hne [Hw _]].
    apply hasMatch_tidy; try assumption.
    apply fold_absent; [apply replacements_good | exact Hs |].
    right. apply in_map. exact Hp. }
  assert (Hc : collapsedFrom false t = true).
  { apply collapsedFrom_trimEnd, (collapsedFrom_trimStart _ false), collapsedFrom_collapseFrom. }
  replace (trim t) with t by (symmetry; apply trim_idem).
  rewrite (toLowerCase_fixed t Ht).
  unfold applyReplacements at 1. rewrite (fold_fixed replacements replacements_good t Hm).
  unfold collapseWhitespace at 1. rewrite (collapseFrom_fixed t false Hc).
  apply trim_idem.
Qed.

End GeoFacts.

(** * Claims on the geo primitives *)

Module GeoClaims.
Import Geo GeoFacts.

(** C5.  What [normalizeCityName] returns on the three spellings: the one
    with the dot keeps its dot, since no word boundary lies between the dot
    and the space that follows it, so the three results are not one string
    (and [citiesMatch] does not match "St. Louis" with "Saint Louis"). *)
Theorem normalizeCityName_three_spellings :
  normalizeCityName "St. Louis" = "saint. louis"%string /\
  normalizeCityName "Saint Louis" = "saint louis"%string /\
  normalizeCityName "st louis" = "saint louis"%string /\
  normalizeCityName "St. Louis" <> normalizeCityName "Saint Louis" /\
  citiesMatch "St. Louis" "Saint Louis" = false.
Proof.
  repeat split; try reflexivity. vm_compute. discriminate.
Qed.

(** C6.  [citiesMatch a b] is true exactly when both normalized names are
    non-empty and one of them occurs inside the other; "Saint Louis" matches
    "Louis", and "Kansas City" does not match "Jefferson City". *)
Theorem citiesMatch_spec :
  (forall a b : string,
     citiesMatch a b = true <->
     normalizeCityName a <> ""%string /\ normalizeCityName b <> ""%string /\
     (Substring (chars (normalizeCityName b)) (chars (normalizeCityName a)) \/
      Substring (chars (normalizeCityName a)) (chars (normalizeCityName b)))) /\
  citiesMatch "Saint Louis" "Louis" = true /\
  citiesMatch "Kansas City" "Jefferson City" = false.
Proof.
  split; [|split; reflexivity].
  intros a b. unfold citiesMatch.
  assert (He : forall s : string, isEmpty (chars s) = false <-> s <> ""%string).
  { intros [|c s]; simpl; split; congruence. }
  destruct (isEmpty (chars (normalizeCityName a))) eqn:Ea; simpl.
  - split; [discriminate|]. intros [Hn _]. apply He in Hn. congruence.
  - destruct (isEmpty (chars (normalizeCityName b))) eqn:Eb; simpl.
    + split; [discriminate|]. intros [_ [Hn _]]. apply He in Hn. congruence.
    + rewrite orb_true_iff, !includes_spec. apply He in Ea, Eb. tauto.
Qed.

(** C10.  [normalizeCityName] is idempotent: a second pass finds no
    abbreviation standing as a whole word, no upper-case letter and no white
    space to collapse or trim. *)
Theorem normalizeCityName_idempotent (s : string) :
  normalizeCityName (normalizeCityName s) = normalizeCityName s.
Proof.
  unfold normalizeCityName. rewrite chars_of_string.
  rewrite normalizeChars_idem. reflexivity.
Qed.

End GeoClaims.

(** * The distance on the doubles *)

Module HaversineClaims.
Import Geo EventList FloatEngine FloatSamples.

Lemma sinTable_agrees : agreesOn sinTable sinValues.
Proof.
  intros x v H. simpl in H.
  repeat (destruct H as [[= <- <-] | H]; [vm_compute; reflexivity|]). destruct H.
Qed.

Lemma cosTable_agrees : agreesOn cosTable cosValues.
Proof.
  intros x v H. simpl in H.
  repeat (destruct H as [[= <- <-] | H]; [vm_compute; reflexivity|]). destruct H.
Qed.

Lemma atan2Table_agrees : agreesOn2 atan2Table atan2Values.
Proof.
  intros y x v H. simpl in H.
  repeat (destruct H as [[= <- <- <-] | H]; [vm_compute; reflexivity|]). destruct H.
Qed.

Lemma atan2Table_nan y : atan2Table y nan = nan.
Proof. unfold atan2Table, valueAt2. reflexivity. Qed.

Section OnDoubles.
Variables sin cos : float -> float.
Variable atan2 : float -> float -> float.
Hypothesis sin_values : agreesOn sin sinValues.
Hypothesis cos_values : agreesOn cos cosValues.
Hypothesis atan2_values : agreesOn2 atan2 atan2Values.
(** [Math.atan2] of a NaN is NaN. *)
Hypothesis atan2_nan : forall y, atan2 y nan = nan.

Local Abbreviation hav := (haversineMiles sin cos atan2).

(** Replace the calls of the [Math] functions at arguments of the tables
    by their values. *)
Ltac in_table := vm_compute; repeat (first [left; reflexivity | right]).
Ltac use_tables :=
  repeat match goal with
    | |- context [sin ?x] =>
        let v := eval vm_compute in (valueAt sinValues x) in
        rewrite (sin_values x v ltac:(in_table))
    | |- context [cos ?x] =>
        let v := eval vm_compute in (valueAt cosValues x) in
        rewrite (cos_values x v ltac:(in_table))
    | |- context [atan2 ?y ?x] =>
        let v := eval vm_compute in (valueAt2 atan2Values y x) in
        rewrite (atan2_values y x v ltac:(in_table))
    end.

Lemma haversine_to_antipode : hav originLat originLng antipodeLat antipodeLng = nan.
Proof.
  unfold haversineMiles. vm_compute. use_tables. vm_compute.
  rewrite atan2_nan. reflexivity.
Qed.

Lemma haversine_from_antipode : hav antipodeLat antipodeLng originLat originLng = nan.
Proof.
  unfold haversineMiles. vm_compute. use_tables. vm_compute.
  rewrite atan2_nan. reflexivity.
Qed.

Lemma haversine_home : hav originLat originLng originLat originLng = 0%float.
Proof.
  unfold haversineMiles. vm_compute. use_tables. vm_compute. use_tables. reflexivity.
Qed.

Lemma haversine_near :
  hav originLat originLng nearLat originLng = 0x1.ba397bc079256p+1%float.
Proof.
  unfold haversineMiles. vm_compute. use_tables. vm_compute. use_tables. reflexivity.
Qed.

Lemma haversine_north :
  hav originLat originLng northLat originLng = 0x1.1463ed584b9d7p+6%float.
Proof.
  unfold haversineMiles. vm_compute. use_tables. vm_compute. use_tables. reflexivity.
Qed.

(** C4.  From the sample origin (36.97, -90.5) to the opposite point of
    the globe (-36.97, 89.5) the rounded sum under the square root is
    above 1, so that [haversineMiles] returns NaN in either direction: the
    two results are not [==], and neither is a distance.  From the origin
    to itself the result is 0. *)
Theorem haversineMiles_opposite_points :
  hav originLat originLng antipodeLat antipodeLng = nan /\
  hav antipodeLat antipodeLng originLat originLng = nan /\
  PrimFloat.eqb (hav originLat originLng antipodeLat antipodeLng)
                (hav antipodeLat antipodeLng originLat originLng) = false /\
  hav originLat originLng originLat originLng = 0%float.
Proof.
  rewrite haversine_to_antipode, haversine_from_antipode, haversine_home.
  repeat split.
Qed.

End OnDoubles.

Lemma haversineMiles_opposite_points_witness :
  agreesOn sinTable sinValues /\
  haversineMiles sinTable cosTable atan2Table originLat originLng antipodeLat antipodeLng = nan.
Proof.
  split; [exact sinTable_agrees|].
  exact (proj1 (haversineMiles_opposite_points sinTable cosTable atan2Table
                  sinTable_agrees cosTable_agrees atan2Table_agrees atan2Table_nan)).
Defined.

End HaversineClaims.

(** * Proofs: the event list *)

Module EventListFacts.
Import EventList.

Section SortFacts.
Context {A : Type}.
Variable compareFn : A -> A -> sign.

Local Abbreviation mayPrecede := (mayPrecede compareFn).

Lemma insertSorted_In x l y :
  In y (insertSorted compareFn x l) <-> y = x \/ In y l.
Proof.
  induction l as [|z l IH]; simpl.
  - split; [intros [<- | []]; auto | intros [-> | []]; auto].
  - destruct (comesAfter (compareFn x z)); simpl; [rewrite IH|]; intuition congruence.
Qed.

Lemma sort_In l y : In y (sort compareFn l) <-> In y l.
Proof.
  induction l as [|x l IH]; simpl; [reflexivity|].
  rewrite insertSorted_In, IH. intuition congruence.
Qed.

Lemma filter_insertSorted_out (p : A -> bool) x l :
  p x = false ->
  List.filter p (insertSorted compareFn x l) = List.filter p l.
Proof.
  intros Hx. induction l as [|z l IH]; simpl; [rewrite Hx; reflexivity|].
  destruct (comesAfter (compareFn x z)); simpl.
  - rewrite IH. reflexivity.
  - rewrite Hx. reflexivity.
Qed.

Lemma filter_insertSorted_in (p : A -> bool) x l :
  p x = true ->
  (forall y, In y l -> p y = true -> mayPrecede x y) ->
  List.filter p (insertSorted compareFn x l) = x :: List.filter p l.
Proof.
  intros Hx. induction l as [|z l IH]; intros Hl; simpl; [rewrite Hx; reflexivity|].
  destruct (comesAfter (compareFn x z)) eqn:E; simpl.
  - destruct (p z) eqn:Ez.
    + specialize (Hl z (or_introl eq_refl) Ez). unfold mayPrecede in Hl. congruence.
    + apply IH. intros y Hy. apply Hl. right. exact Hy.
  - rewrite Hx. reflexivity.
Qed.

(** Stability: the elements of a class in which nobody comes after
    anybody keep their order. *)
Lemma sort_stable (p : A -> bool) l :
  (forall x y, p x = true -> p y = true -> mayPrecede x y) ->
  List.filter p (sort compareFn l) = List.filter p l.
Proof.
  intros Hp. induction l as [|x l IH]; simpl; [reflexivity|].
  destruct (p x) eqn:Ex.
  - rewrite filter_insertSorted_in; [rewrite IH; reflexivity | exact Ex |].
    intros y _ Hy. apply Hp; assumption.
  - rewrite filter_insertSorted_out by exact Ex. exact IH.
Qed.

Hypothesis total : forall x y, comesAfter (compareFn x y) = true -> mayPrecede y x.
Hypothesis trans : forall x y z, mayPrecede x y -> mayPrecede y z -> mayPrecede x z.

Lemma insertSorted_sorted x l :
  StronglySorted mayPrecede l -> StronglySorted mayPrecede (insertSorted compareFn x l).
Proof.
  induction 1 as [|z l Hl IH Hz]; simpl; [repeat constructor|].
  destruct (comesAfter (compareFn x z)) eqn:E.
  - constructor; [exact IH|]. apply List.Forall_forall. intros y Hy.
    apply insertSorted_In in Hy as [-> | Hy]; [apply total; exact E|].
    rewrite List.Forall_forall in Hz. apply Hz. exact Hy.
  - constructor; [constructor; assumption|]. constructor; [exact E|].
    apply List.Forall_forall. intros y Hy. rewrite List.Forall_forall in Hz.
    apply (trans x z y); [exact E | apply Hz; exact Hy].
Qed.

Lemma sort_sorted l : StronglySorted mayPrecede (sort compareFn l).
Proof.
  induction l as [|x l IH]; simpl; [constructor | apply insertSorted_sorted; exact IH].
Qed.

Lemma mayPrecede_refl x : mayPrecede x x.
Proof.
  destruct (comesAfter (compareFn x x)) eqn:E; [|exact E].
  pose proof (total x x E) as H. unfold EventList.mayPrecede in H. congruence.
Qed.

(** Two sorted lists that agree on every class of ties are the same list.
    With [sort_sorted] and [sort_stable]: whatever stable sorting method an
    engine uses, its result on a list is the result of [sort]. *)
Lemma sorted_stable_unique (tie : A -> A -> bool) :
  (forall x y, tie x y = true <-> mayPrecede x y /\ mayPrecede y x) ->
  forall l1 l2,
  StronglySorted mayPrecede l1 -> StronglySorted mayPrecede l2 ->
  (forall x, List.filter (tie x) l1 = List.filter (tie x) l2) ->
  l1 = l2.
Proof.
  intros Htie. induction l1 as [|a l1 IH]; intros l2 H1 H2 Hf.
  - destruct l2 as [|b l2]; [reflexivity|]. specialize (Hf b). simpl in Hf.
    assert (Hb : tie b b = true) by (apply Htie; split; apply mayPrecede_refl).
    rewrite Hb in Hf. discriminate.
  - assert (Ha : tie a a = true) by (apply Htie; split; apply mayPrecede_refl).
    destruct l2 as [|b l2].
    { specialize (Hf a). simpl in Hf. rewrite Ha in Hf. discriminate. }
    assert (Hb : tie b b = true) by (apply Htie; split; apply mayPrecede_refl).
    apply StronglySorted_inv in H1 as [H1 Ha1]. apply StronglySorted_inv in H2 as [H2 Hb2].
    rewrite List.Forall_forall in Ha1, Hb2.
    assert (Hba : mayPrecede b a).
    { assert (Hin : In a (List.filter (tie a) (b :: l2))).
      { rewrite <- Hf. simpl. rewrite Ha. left. reflexivity. }
      apply filter_In in Hin as [[-> | Hin] _]; [apply mayPrecede_refl | apply Hb2; exact Hin]. }
    assert (Hab : mayPrecede a b).
    { assert (Hin : In b (List.filter (tie b) (a :: l1))).
      { rewrite Hf. simpl. rewrite Hb. left. reflexivity. }
      apply filter_In in Hin as [[-> | Hin] _]; [apply mayPrecede_refl | apply Ha1; exact Hin]. }
    assert (Eab : a = b).
    { pose proof (Hf a) as H. simpl in H. rewrite Ha in H.
      assert (Hab' : tie a b = true) by (apply Htie; auto).
      rewrite Hab' in H. congruence. }
    subst b. f_equal. apply IH; try assumption.
    intros x. specialize (Hf x). simpl in Hf.
    destruct (tie x a); [congruence | exact Hf].
Qed.
End SortFacts.

Lemma insertSorted_ext {A} (f g : A -> A -> sign) x l :
  (forall y, In y l -> f x y = g x y) ->
  insertSorted f x l = insertSorted g x l.
Proof.
  induction l as [|z l IH]; intros H; simpl; [reflexivity|].
  rewrite (H z) by (left; reflexivity).
  destruct (comesAfter (g x z)); [|reflexivity].
  f_equal. apply IH. intros y Hy. apply H. right. exact Hy.
Qed.

(** The sort only looks at the comparator on the elements of the list. *)
Lemma sort_ext {A} (f g : A -> A -> sign) l :
  (forall x y, In x l -> In y l -> f x y = g x y) ->
  sort f l = sort g l.
Proof.
  induction l as [|x l IH]; intros H; simpl; [reflexivity|].
  rewrite IH by (intros; apply H; right; assumption).
  apply insertSorted_ext. intros y Hy. apply sort_In in Hy.
  apply H; [left; reflexivity | right; exact Hy].
Qed.

Lemma StronglySorted_filter {A} (R : A -> A -> Prop) (p : A -> bool) l :
  StronglySorted R l -> StronglySorted R (List.filter p l).
Proof.
  induction 1 as [|x l Hl IH Hx]; simpl; [constructor|].
  destruct (p x); [|exact IH]. constructor; [exact IH|].
  apply List.Forall_forall. intros y Hy. apply filter_In in Hy as [Hy _].
  rewrite List.Forall_forall in Hx. apply Hx. exact Hy.
Qed.

Lemma StronglySorted_impl {A} (R R' : A -> A -> Prop) l :
  (forall a b, R a b -> R' a b) -> StronglySorted R l -> StronglySorted R' l.
Proof.
  intros HR. induction 1 as [|x l Hl IH Hx]; constructor; [exact IH|].
  eapply List.Forall_impl; [|exact Hx]. apply HR.
Qed.

Lemma StronglySorted_later {A} (R : A -> A -> Prop) l1 x l2 y :
  StronglySorted R (l1 ++ x :: l2) -> In y l2 -> R x y.
Proof.
  induction l1 as [|z l1 IH]; simpl; intros H Hy.
  - apply StronglySorted_inv in H as [_ H]. rewrite List.Forall_forall in H. apply H. exact Hy.
  - apply StronglySorted_inv in H as [H _]. apply IH; assumption.
Qed.

Lemma filter_filter_comm {A} (p q : A -> bool) l :
  List.filter p (List.filter q l) = List.filter (fun x => p x && q x) l.
Proof.
  induction l as [|x l IH]; simpl; [reflexivity|].
  destruct (q x); simpl; [destruct (p x); simpl; rewrite IH; reflexivity|].
  rewrite andb_false_r. exact IH.
Qed.


Section EngineFacts.
Context {num : Type}.
Variable sub : num -> num -> num.
Variable ltb leb : num -> num -> bool.
Variable zero infinity : num.
Variable ofInt : Z -> num.
Variable haversineMiles : num -> num -> num -> num -> num.

Local Abbreviation engine :=
  (filteredAndSortedEvents sub ltb leb zero infinity ofInt haversineMiles).
Local Abbreviation dist := (eventDistance infinity haversineMiles).
Local Abbreviation sortedByDistance :=
  (sortedByDistance sub ltb zero infinity haversineMiles).

Lemma eventDistance_coords origin e1 e2 :
  getLocationCoords e1 = getLocationCoords e2 -> dist origin e1 = dist origin e2.
Proof. unfold eventDistance. intros ->. reflexivity. Qed.

Lemma fold_insert_lookup origin (k : string) (d : num) l :
  forall m : gmap string num,
  (forall e, In e l -> id e = k -> dist origin e = d) ->
  (exists e, In e l /\ id e = k) \/ m !! k = Some d ->
  fold_left (fun m e => <[id e := dist origin e]> m) l m !! k = Some d.
Proof.
  induction l as [|e l IH]; intros m Hd H; simpl.
  - destruct H as [[e [[] _]] | H]. exact H.
  - apply IH; [intros; apply Hd; [right|]; assumption|].
    destruct (decide (id e = k)) as [Hk | Hk].
    + right. rewrite Hk, lookup_insert_eq. f_equal. apply Hd; [left; reflexivity | exact Hk].
    + destruct H as [[e' [[-> | He'] Hk']] | H].
      * contradiction.
      * left. exists e'. auto.
      * right. rewrite lookup_insert_ne by exact Hk. exact H.
Qed.

(** Under [idsIdentify] the map gives each event of the list its own
    distance. *)
Lemma getDistance_fillDistMap origin l e :
  idsIdentify l -> In e l ->
  getDistance infinity (fillDistMap infinity haversineMiles origin l) (id e)
    = dist origin e.
Proof.
  intros Hids He. unfold getDistance, fillDistMap.
  rewrite (fold_insert_lookup origin (id e) (dist origin e)).
  - reflexivity.
  - intros e' He' Hk. apply eventDistance_coords. apply Hids; assumption.
  - left. exists e. auto.
Qed.

(** Distinct ids make [idsIdentify] hold. *)
Lemma unique_ids_identify (events : list (EventWithLocation num)) :
  List.NoDup (map id events) -> idsIdentify events.
Proof.
  induction events as [|e events IH]; intros Hnd e1 e2 H1 H2 Hid; [destruct H1|].
  simpl in Hnd. apply List.NoDup_cons_iff in Hnd as [Hnot Hnd].
  destruct H1 as [<- | H1], H2 as [<- | H2].
  - reflexivity.
  - exfalso. apply Hnot. rewrite Hid. apply in_map. exact H2.
  - exfalso. apply Hnot. rewrite <- Hid. apply in_map. exact H1.
  - apply IH; assumption.
Qed.

Lemma dateFiltered_In (events : list (EventWithLocation num)) dateFilter e :
  In e (dateFiltered events dateFilter) -> In e events.
Proof.
  unfold dateFiltered. destruct dateFilter; [auto|].
  intros H. apply filter_In in H as [H _]. exact H.
Qed.

Lemma idsIdentify_dateFiltered (events : list (EventWithLocation num)) dateFilter :
  idsIdentify events -> idsIdentify (dateFiltered events dateFilter).
Proof.
  intros H e1 e2 H1 H2. apply H; eapply dateFiltered_In; eassumption.
Qed.

(** When the ids identify the rows, the engine sorts and filters by the
    events' own distances. *)
Lemma engine_with_origin events dateFilter origin withinMiles :
  idsIdentify events ->
  fst (engine events dateFilter (Some origin) withinMiles) =
  match radiusActive ltb zero ofInt withinMiles with
  | Some radius =>
      List.filter (fun e => withinRadius leb (dist origin e) radius)
        (sortedByDistance origin (dateFiltered events dateFilter))
  | None => sortedByDistance origin (dateFiltered events dateFilter)
  end.
Proof.
  intros Hids. apply (idsIdentify_dateFiltered events dateFilter) in Hids.
  unfold filteredAndSortedEvents, EventList.sortedByDistance, compareEvents. cbn [fst].
  set (l := dateFiltered events dateFilter) in *.
  assert (Hsort :
    sort (fun a b => subtractSign sub ltb zero
            (getDistance infinity (fillDistMap infinity haversineMiles origin l) (id a))
            (getDistance infinity (fillDistMap infinity haversineMiles origin l) (id b))) l
    = sort (fun a b => subtractSign sub ltb zero (dist origin a) (dist origin b)) l).
  { apply sort_ext. intros x y Hx Hy.
    rewrite !getDistance_fillDistMap by assumption. reflexivity. }
  rewrite Hsort. destruct (radiusActive ltb zero ofInt withinMiles) as [radius|]; [|reflexivity].
  apply filter_ext_in. intros e He. apply sort_In in He.
  rewrite getDistance_fillDistMap by assumption. reflexivity.
Qed.

(** The radius in use is the number the text parses to, when that is
    above zero. *)
Lemma radiusActive_spec withinMiles radius :
  radiusActive ltb zero ofInt withinMiles = Some radius <->
  exists n, withinMilesNum withinMiles = Some (Int n) /\
            ltb zero (ofInt n) = true /\ radius = ofInt n.
Proof.
  unfold radiusActive. destruct (withinMilesNum withinMiles) as [[|n]|].
  - split; [discriminate | intros [n [H _]]; discriminate].
  - destruct (ltb zero (ofInt n)) eqn:E.
    + split; [intros [= <-]; exists n; auto | intros [n' [[= <-] [_ ->]]]; reflexivity].
    + split; [discriminate | intros [n' [[= <-] [H _]]]; congruence].
  - split; [discriminate | intros [n [H _]]; discriminate].
Qed.

Section Order.
(** The comparator orders the events of the list [l]: nobody comes after
    somebody who comes after him, and staying in front is transitive. *)
Variable origin : Coords num.
Variable l : list (EventWithLocation num).

Local Abbreviation after := (fun a b => comesAfter (compareEvents sub ltb zero infinity haversineMiles origin a b)).

End Order.
End EngineFacts.

End EventListFacts.

(** * Claims on the event list *)

Module EventListClaims.
Import Geo EventList EventListFacts FloatEngine FloatSamples.

Section Claims.
Context {num : Type}.
Variable sub : num -> num -> num.
Variable ltb leb : num -> num -> bool.
Variable zero infinity : num.
Variable ofInt : Z -> num.
Variable haversineMiles : num -> num -> num -> num -> num.

Local Abbreviation engine :=
  (EventList.filteredAndSortedEvents sub ltb leb zero infinity ofInt haversineMiles).
Local Abbreviation dist := (EventList.eventDistance infinity haversineMiles).

(** C1.  With an origin and a radius text that parses to a number [N]
    above zero and below Infinity, the list shown holds exactly the
    date-filtered events whose distance to the origin is [<= N], and no
    event without stored coordinates.  The ids are those of the rows the
    events were read from: events under one id carry the same stored
    coordinates. *)
Theorem radius_filter_exact
    (events : list (EventWithLocation num)) (dateFilter : string)
    (origin : Coords num) (withinMiles : string) (n : Z) :
  withinMilesNum withinMiles = Some (Int n) ->
  ltb zero (ofInt n) = true ->
  leb infinity (ofInt n) = false ->
  idsIdentify events ->
  let shown := fst (engine events dateFilter (Some origin) withinMiles) in
  (forall e, In e shown <->
             In e (dateFiltered events dateFilter) /\
             leb (dist origin e) (ofInt n) = true) /\
  (forall e, getLocationCoords e = None -> ~ In e shown).
Proof.
  intros Hw Hpos Hfinite Hids shown.
  assert (Hr : radiusActive ltb zero ofInt withinMiles = Some (ofInt n)).
  { apply radiusActive_spec. exists n. auto. }
  assert (Hin : forall e, In e shown <->
             In e (dateFiltered events dateFilter) /\
             leb (dist origin e) (ofInt n) = true).
  { intros e. unfold shown. rewrite engine_with_origin by exact Hids.
    rewrite Hr, filter_In. unfold EventList.sortedByDistance. rewrite sort_In.
    reflexivity. }
  split; [exact Hin|].
  intros e He Hshown. apply Hin in Hshown as [_ Hle].
  unfold EventList.eventDistance in Hle. rewrite He in Hle. congruence.
Qed.

(** C3.  Without an origin the radius setting is not looked at: whatever
    the two settings, the results are the same, the date-filtered events
    in their order and an empty distance map. *)
Theorem radius_ignored_without_origin
    (events : list (EventWithLocation num)) (dateFilter : string)
    (withinMiles1 withinMiles2 : string) :
  engine events dateFilter None withinMiles1 = engine events dateFilter None withinMiles2 /\
  fst (engine events dateFilter None withinMiles1) = dateFiltered events dateFilter /\
  dateFiltered events dateFilter =
    (if String.eqb dateFilter "" then events
     else List.filter (fun e => String.eqb (event_date e) dateFilter) events).
Proof.
  repeat split. destruct dateFilter; reflexivity.
Qed.
End Claims.

(** ** On the doubles *)

Lemma sampleEvents_ids : idsIdentify sampleEvents.
Proof. apply unique_ids_identify. vm_compute. repeat constructor; simpl; intuition discriminate. Qed.


Section OnDoubles.
Variables sin cos : float -> float.
Variable atan2 : float -> float -> float.
Hypothesis sin_values : agreesOn sin sinValues.
Hypothesis cos_values : agreesOn cos cosValues.
Hypothesis atan2_values : agreesOn2 atan2 atan2Values.
Hypothesis atan2_nan : forall y, atan2 y nan = nan.

Local Abbreviation distance := (FloatEngine.eventDistance sin cos atan2 sampleOrigin).
Local Abbreviation engine := (FloatEngine.filteredAndSortedEvents sin cos atan2).





End OnDoubles.

(** Every option of the select is "Show all" or a number above zero and
    below Infinity. *)
Lemma WITHIN_MILES_OPTIONS_finite option :
  In option WITHIN_MILES_OPTIONS ->
  fst option = ""%string \/
  exists n, withinMilesNum (fst option) = Some (Int n) /\
            PrimFloat.ltb 0%float (ofInt n) = true /\
            PrimFloat.leb infinity (ofInt n) = false.
Proof.
  intros H. simpl in H.
  destruct H as [<- | H]; [left; reflexivity|].
  repeat (destruct H as [<- | H];
          [right; eexists; split; [reflexivity | split; vm_compute; reflexivity]|]).
  destruct H.
Qed.

Lemma radius_filter_exact_witness :
  let shown :=
    fst (FloatEngine.filteredAndSortedEvents sinTable cosTable atan2Table
           sampleEvents "" (Some sampleOrigin) "10") in
  withinMilesNum "10" = Some (Int 10) /\
  PrimFloat.ltb 0%float (ofInt 10) = true /\
  PrimFloat.leb infinity (ofInt 10) = false /\
  idsIdentify sampleEvents /\
  (forall e, In e shown <->
             In e (dateFiltered sampleEvents "") /\
             PrimFloat.leb (FloatEngine.eventDistance sinTable cosTable atan2Table
                              sampleOrigin e) (ofInt 10) = true) /\
  (forall e, getLocationCoords e = None -> ~ In e shown).
Proof.
  refine (conj eq_refl (conj eq_refl (conj eq_refl (conj sampleEvents_ids _)))).
  exact (radius_filter_exact PrimFloat.sub PrimFloat.ltb PrimFloat.leb 0%float infinity
           ofInt (haversineMiles sinTable cosTable atan2Table) sampleEvents ""
           sampleOrigin "10" 10 eq_refl eq_refl eq_refl sampleEvents_ids).
Defined.


(** The scenario of the specification on the sample: within 10 miles the
    event at the origin and the one 3 miles away remain, the nearer first;
    the events 69 miles away and without coordinates do not. *)
Example sample_within_10 :
  map id (fst (FloatEngine.filteredAndSortedEvents sinTable cosTable atan2Table
                 [north; unplaced; near; home] "" (Some sampleOrigin) "10"))
  = ["home"; "near"]%string.
Proof. vm_compute. reflexivity. Qed.

Example sample_sorted :
  map id (fst (FloatEngine.filteredAndSortedEvents sinTable cosTable atan2Table
                 [north; unplaced; near; home] "2026-03-06" (Some sampleOrigin) ""))
  = ["home"; "near"; "north"; "unplaced"]%string.
Proof. vm_compute. reflexivity. Qed.

(** A radius text of 400 digits parses to Infinity, and within that
    radius the event without coordinates is shown: the select never gives
    such a text. *)
Example sample_within_infinity :
  map id (fst (FloatEngine.filteredAndSortedEvents sinTable cosTable atan2Table
                 [unplaced; home] "" (Some sampleOrigin)
                 (string_of_list_ascii (repeat "9"%char 400))))
  = ["home"; "unplaced"]%string.
Proof. vm_compute. reflexivity. Qed.

End EventListClaims.

(** * Claims on the order form *)

Module OrderFormClaims.
Import OrderForm.

Lemma prepTimes_In lines m :
  In m (prepTimes lines) <->
  exists l, In l lines /\ prep_time_minutes (item l) = Some m /\ (0 < m)%Z.
Proof.
  induction lines as [|l lines IH]; simpl.
  - split; [intros [] | intros [l [[] _]]].
  - destruct (prep_time_minutes (item l)) as [p|] eqn:Ep.
    + destruct (0 <? p)%Z eqn:E.
      * apply Z.ltb_lt in E. simpl. rewrite IH. split.
        -- intros [<- | [l' [Hl' H]]]; [exists l; auto | exists l'; auto].
        -- intros [l' [[<- | Hl'] [Hp Hm]]]; [left; congruence | right; exists l'; auto].
      * apply Z.ltb_ge in E. rewrite IH. split.
        -- intros [l' [Hl' H]]. exists l'. auto.
        -- intros [l' [[<- | Hl'] [Hp Hm]]]; [rewrite Ep in Hp; injection Hp as ->; lia|].
           exists l'. auto.
    + rewrite IH. split.
      * intros [l' [Hl' H]]. exists l'. auto.
      * intros [l' [[<- | Hl'] [Hp Hm]]]; [congruence | exists l'; auto].
Qed.

(** [Math.max] of a first argument and the others. *)
Lemma fold_max_spec rest : forall m,
  In (fold_left Z.max rest m) (m :: rest) /\
  (forall p, In p (m :: rest) -> (p <= fold_left Z.max rest m)%Z).
Proof.
  induction rest as [|x rest IH]; intros m; simpl.
  - split; [left; reflexivity | intros p [<- | []]; lia].
  - destruct (IH (Z.max m x)) as [Hin Hmax]. split.
    + destruct Hin as [H | H]; [|right; right; exact H].
      rewrite <- H. destruct (Z.max_spec m x) as [[_ ->] | [_ ->]]; auto.
    + intros p Hp. assert (Hm : (Z.max m x <= fold_left Z.max rest (Z.max m x))%Z).
      { apply Hmax. left. reflexivity. }
      destruct Hp as [<- | [<- | Hp]]; [lia | lia |].
      apply Hmax. right. exact Hp.
Qed.

Lemma lineItemsOf_In quantities items l :
  In l (lineItemsOf quantities items) ->
  In (item l) items /\ qty l = default 0%Z (quantities !! id (item l)) /\ (0 < qty l)%Z.
Proof.
  induction items as [|it items IH]; simpl; [intros []|].
  destruct (0 <? default 0%Z (quantities !! id it))%Z eqn:E.
  - intros [<- | H]; [simpl; apply Z.ltb_lt in E; auto|].
    destruct (IH H) as [H1 H2]. auto.
  - intros H. destruct (IH H) as [H1 H2]. auto.
Qed.

(** C7.  The estimated wait is the largest prep time among the selected
    items whose prep time is set and positive, and it is absent when no
    selected item has one; the lines of the form are those of positive
    quantity. *)
Theorem estimatedWaitMinutes_is_max :
  (forall lines : list LineItem,
     match estimatedWaitMinutes lines with
     | Some m =>
         (exists l, In l lines /\ prep_time_minutes (item l) = Some m /\ (0 < m)%Z) /\
         (forall l p, In l lines -> prep_time_minutes (item l) = Some p ->
                      (0 < p)%Z -> (p <= m)%Z)
     | None =>
         forall l p, In l lines -> prep_time_minutes (item l) = Some p -> ~ (0 < p)%Z
     end) /\
  (forall menuItems orderType quantities l,
     In l (lineItems menuItems orderType quantities) ->
     In (item l) (filteredMenuItems menuItems orderType) /\ (0 < qty l)%Z).
Proof.
  split.
  - intros lines. unfold estimatedWaitMinutes.
    destruct (prepTimes lines) as [|m rest] eqn:E.
    + intros l p Hl Hp Hpos.
      assert (H : In p (prepTimes lines)) by (apply prepTimes_In; exists l; auto).
      rewrite E in H. destruct H.
    + destruct (fold_max_spec rest m) as [Hin Hmax]. split.
      * apply prepTimes_In. rewrite E. exact Hin.
      * intros l p Hl Hp Hpos. apply Hmax. rewrite <- E.
        apply prepTimes_In. exists l. auto.
  - intros menuItems orderType quantities l Hl.
    apply lineItemsOf_In in Hl as [H1 [_ H2]]. auto.
Qed.

(** The example of the specification: prep times 10 and 20 give 20, and
    no prep time gives no estimate. *)
Example wait_10_20 :
  let a := mkMenuItem "a" "A" None "5.00" "fish" (Some 10%Z) None None None in
  let b := mkMenuItem "b" "B" None "3.50" "sides" (Some 20%Z) None None None in
  let c := mkMenuItem "c" "C" None "1.00" "drinks" None None None None in
  estimatedWaitMinutes [mkLineItem a 2; mkLineItem b 1] = Some 20%Z /\
  estimatedWaitMinutes [mkLineItem c 1] = None.
Proof. split; reflexivity. Qed.

(** C8.  The availability filter drops exactly the pickup-only items for a
    dine-in order and the dine-in-only items for a pickup order; an item
    with neither flag is kept for both. *)
Theorem filteredMenuItems_spec (menuItems : list MenuItem) :
  (forall orderType it,
     In it (filteredMenuItems menuItems orderType) <->
     In it menuItems /\
     ~ (orderType = dine_in /\ pickup_only it = Some true) /\
     ~ (orderType = pickup /\ dine_in_only it = Some true)) /\
  (forall it,
     In it menuItems ->
     default false (dine_in_only it) = false ->
     default false (pickup_only it) = false ->
     forall orderType, In it (filteredMenuItems menuItems orderType)).
Proof.
  split.
  - intros orderType it. unfold filteredMenuItems. rewrite filter_In.
    destruct orderType, (pickup_only it) as [[|]|], (dine_in_only it) as [[|]|];
      simpl; intuition congruence.
  - intros it Hin Hd Hp orderType. unfold filteredMenuItems. apply filter_In.
    split; [exact Hin|]. rewrite Hd, Hp. destruct orderType; reflexivity.
Qed.

End OrderFormClaims.

(** * Claims on the admin order page *)

Module AdminOrdersFacts.
Import AdminOrders.

Lemma truthy_hasEmail order :
  truthy (trimmedEmail order) = true <-> hasEmail order.
Proof.
  unfold trimmedEmail, hasEmail, trimString.
  destruct (customer_email order) as [e|]; simpl.
  - destruct (Geo.trim (Geo.chars e)) as [|c r] eqn:E; simpl.
    + split; [discriminate | intros [e' [[= <-] H]]; congruence].
    + split; [intros _; exists e; rewrite E; split; [reflexivity | discriminate] | reflexivity].
  - split; [discriminate | intros [e [H _]]; discriminate].
Qed.

(** The trimmed address of an order that has one is again not blank. *)
Lemma truthy_trimmed_again order :
  truthy (trimmedEmail order) = true ->
  truthy (Some (trimString (default ""%string (trimmedEmail order)))) = true.
Proof.
  unfold trimmedEmail, trimString.
  destruct (customer_email order) as [e|]; simpl; [|discriminate].
  rewrite GeoFacts.chars_of_string, GeoFacts.trim_idem.
  destruct (Geo.trim (Geo.chars e)); [discriminate | reflexivity].
Qed.

(** What a call of the server action does, case by case.  Without a key
    the call throws before the function runs; the branch of
    [sendOrderReady] that warns of a missing key is never reached. *)
Lemma notifyOrderReady_cases env e loc w :
  let subject := ("Your order from " ++ loc ++ " is ready for pickup")%string in
  notifyOrderReady env e loc w =
    if negb (truthy (RESEND_API_KEY env)) then (Thrown, w)
    else if negb (truthy (Some (trimString e))) then
      (Returned (SendFailed "No customer email"), w)
    else
      match resendError env with
      | Some err =>
          (Returned (SendFailed err),
           mkWorld (ordersTable w) (orders w) (updatingId w)
             (log w ++ [ResendSend (trimString e) subject;
                        ConsoleError "Resend sendOrderReady error:"]))
      | None =>
          (Returned SendOk,
           mkWorld (ordersTable w) (orders w) (updatingId w)
             (log w ++ [ResendSend (trimString e) subject]))
      end.
Proof.
  unfold notifyOrderReady, loadEmailModule, sendOrderReady, bind, emit, ret, throw.
  destruct (truthy (RESEND_API_KEY env)); cbn [negb]; [|reflexivity].
  destruct (truthy (Some (trimString e))); cbn [negb]; [|reflexivity].
  destruct (resendError env); cbn [ordersTable orders updatingId log];
    rewrite <- ?app_assoc; reflexivity.
Qed.

(** What [setStatus] does, case by case. *)
Lemma setStatus_cases env orderId newStatus order w :
  let table' := alter (fun _ => newStatus) orderId (ordersTable w) in
  let orders' :=
    map (fun o => if String.eqb (id o) orderId then withStatus o newStatus else o)
      (orders w) in
  let update := DbUpdateStatus orderId newStatus in
  let call :=
    CallNotifyOrderReady (default ""%string (trimmedEmail order)) (getLocationName order) in
  let request :=
    ResendSend (trimString (default ""%string (trimmedEmail order)))
      ("Your order from " ++ getLocationName order ++ " is ready for pickup") in
  setStatus env orderId newStatus order w =
    match dbUpdateError env with
    | Some _ =>
        (Returned tt,
         mkWorld (ordersTable w) (orders w) None
           (log w ++ [update; ConsoleError "Order update error:"]))
    | None =>
        if String.eqb newStatus "ready" && truthy (trimmedEmail order) then
          if negb (truthy (RESEND_API_KEY env)) then
            (Thrown, mkWorld table' orders' (Some orderId) (log w ++ [update; call]))
          else
            match resendError env with
            | Some _ =>
                (Returned tt,
                 mkWorld table' orders' None
                   (log w ++ [update; call; request;
                              ConsoleError "Resend sendOrderReady error:"]))
            | None =>
                (Returned tt,
                 mkWorld table' orders' None (log w ++ [update; call; request]))
            end
        else (Returned tt, mkWorld table' orders' None (log w ++ [update]))
    end.
Proof.
  destruct w as [table rows upd lg].
  unfold setStatus, updateOrderStatus, bind, setUpdatingId, setOrders, emit, ret.
  cbn [ordersTable orders updatingId log].
  destruct (dbUpdateError env) as [err|]; cbn [ordersTable orders updatingId log].
  - rewrite <- app_assoc. reflexivity.
  - destruct (String.eqb newStatus "ready" && truthy (trimmedEmail order)) eqn:Ec.
    + apply andb_true_iff in Ec as [_ Et]. apply truthy_trimmed_again in Et.
      rewrite notifyOrderReady_cases. cbn [ordersTable orders updatingId log].
      rewrite Et. cbn [negb].
      destruct (truthy (RESEND_API_KEY env)); cbn [negb].
      * destruct (resendError env); cbn [ordersTable orders updatingId log];
          rewrite <- !app_assoc; reflexivity.
      * rewrite <- app_assoc. reflexivity.
    + reflexivity.
Qed.

End AdminOrdersFacts.

Module AdminOrdersClaims.
Import AdminOrders OrderSamples AdminOrdersFacts.

(** C9.  When the update to "ready" succeeds, the server action that sends
    the notification is called exactly when the order has a non-blank
    e-mail address, and the e-mail service is asked exactly when, in
    addition, an API key is set.  Whatever the e-mail side does (it
    succeeds, it reports an error, or without a key the call throws), the
    table and the page keep the new status.  The page is released when
    [setStatus] returns; it throws, and leaves the page held, exactly when
    the action was called without a key. *)
Theorem setStatus_ready_notifies (env : Env) (w : World)
    (orderId : string) (order : OrderRow) :
  dbUpdateError env = None ->
  let outcome := fst (setStatus env orderId "ready" order w) in
  let w' := snd (setStatus env orderId "ready" order w) in
  exists emitted,
    log w' = log w ++ emitted /\
    (notified emitted <-> hasEmail order) /\
    (requested emitted <-> hasEmail order /\ truthy (RESEND_API_KEY env) = true) /\
    ordersTable w' = alter (fun _ => "ready"%string) orderId (ordersTable w) /\
    orders w' =
      map (fun o => if String.eqb (id o) orderId then withStatus o "ready" else o)
        (orders w) /\
    (outcome = Thrown <-> hasEmail order /\ truthy (RESEND_API_KEY env) = false) /\
    updatingId w' = match outcome with Returned _ => None | Thrown => Some orderId end.
Proof.
  intros Hdb. cbv zeta. rewrite setStatus_cases, Hdb.
  cbn [String.eqb Ascii.eqb Bool.eqb andb].
  pose proof (truthy_hasEmail order) as Hhas.
  unfold notified, requested.
  destruct (truthy (trimmedEmail order)) eqn:Et.
  - assert (He : hasEmail order) by (apply Hhas; reflexivity).
    destruct (truthy (RESEND_API_KEY env)) eqn:Ek; cbn [negb].
    + destruct (resendError env); cbn [fst snd log ordersTable orders updatingId];
        eexists; (split; [reflexivity|]);
        (split; [split; [intros _; exact He | intros _; do 2 eexists; right; left; reflexivity]|]);
        (split; [split; [intros _; auto | intros _; do 2 eexists; right; right; left; reflexivity]|]);
        (split; [reflexivity|]); (split; [reflexivity|]);
        (split; [split; [discriminate | intros [_ H]; discriminate] | reflexivity]).
    + cbn [fst snd log ordersTable orders updatingId].
      eexists. split; [reflexivity|].
      split; [split; [intros _; exact He | intros _; do 2 eexists; right; left; reflexivity]|].
      split.
      { split; [|intros [_ H]; discriminate].
        intros [to [subject [H | [H | []]]]]; discriminate. }
      split; [reflexivity|]. split; [reflexivity|].
      split; [split; auto | reflexivity].
  - assert (He : ~ hasEmail order) by (intros H; apply Hhas in H; discriminate).
    cbn [fst snd log ordersTable orders updatingId].
    eexists. split; [reflexivity|].
    split; [split; [intros [e [loc [H | []]]]; discriminate | intros H; contradiction]|].
    split; [split; [intros [to [subject [H | []]]]; discriminate | intros [H _]; contradiction]|].
    split; [reflexivity|]. split; [reflexivity|].
    split; [split; [discriminate | intros [H _]; contradiction] | reflexivity].
Qed.

Lemma setStatus_ready_notifies_witness :
  dbUpdateError failingMail = None /\
  ordersTable (snd (setStatus failingMail "o1" "ready" sampleOrder sampleWorld))
    = alter (fun _ => "ready"%string) "o1"%string (ordersTable sampleWorld).
Proof.
  split; [reflexivity|].
  destruct (setStatus_ready_notifies failingMail sampleWorld "o1" sampleOrder eq_refl)
    as [emitted [_ [_ [_ [H _]]]]].
  exact H.
Defined.

(** What the page and the server do on the sample when the e-mail service
    refuses: the update, the call, the request, the error in the log. *)
Example sample_ready_log :
  log (snd (setStatus failingMail "o1" "ready" sampleOrder sampleWorld)) =
  [ DbUpdateStatus "o1" "ready";
    CallNotifyOrderReady "pat@example.org" "Parish Hall";
    ResendSend "pat@example.org" "Your order from Parish Hall is ready for pickup";
    ConsoleError "Resend sendOrderReady error:" ].
Proof. reflexivity. Qed.

(** Without an API key the server action is called and throws: the row is
    "ready" in the table, and the page stays held on the order. *)
Example sample_ready_no_key :
  let run := setStatus noKey "o1" "ready" sampleOrder sampleWorld in
  fst run = Thrown /\
  log (snd run) =
    [ DbUpdateStatus "o1" "ready";
      CallNotifyOrderReady "pat@example.org" "Parish Hall" ] /\
  ordersTable (snd run) !! "o1"%string = Some "ready"%string /\
  updatingId (snd run) = Some "o1"%string.
Proof. repeat split; reflexivity. Qed.

End AdminOrdersClaims.

(** * Further properties of the geo primitives *)

Module GeoMore.
Import Geo GeoFacts GeoQuery.

Lemma toLowerChar_space c : isWhiteSpace (toLowerChar c) = isWhiteSpace c.
Proof. ascii_cases c; vm_compute; reflexivity. Qed.

Lemma trim_solidHead s : trim s <> [] -> solidHead (trim s).
Proof.
  unfold trim. pose proof (trimStart_head s) as H.
  destruct (trimStart s) as [|c r]; [intros Hn; contradiction|].
  intros _. simpl. destruct (trimEnd r); [rewrite H|]; simpl; exact H.
Qed.

Lemma solidHead_trim s : solidHead s -> solidHead (trim s).
Proof.
  destruct s as [|c r]; [intros []|]. simpl. intros H.
  unfold trim. simpl. rewrite H. simpl.
  destruct (trimEnd r); [rewrite H|]; simpl; exact H.
Qed.

Lemma solidHead_toLowerCase s : solidHead s -> solidHead (toLowerCase s).
Proof.
  destruct s as [|c r]; [intros []|]. simpl. rewrite toLowerChar_space. auto.
Qed.

Lemma solidHead_collapse s : solidHead s -> solidHead (collapseWhitespace s).
Proof.
  destruct s as [|c r]; [intros []|]. unfold collapseWhitespace. simpl.
  intros H. rewrite H. simpl. exact H.
Qed.

Lemma solidHead_step s p : goodPair p = true -> solidHead s -> solidHead (step s p).
Proof.
  intros Hp. apply goodPair_inv in Hp as [_ [Hw Hl]].
  destruct s as [|c r]; [intros []|]. intros H. unfold step, replaceAll.
  rewrite replaceFrom_cons.
  destruct (matchAbbrev (fst p) false (c :: r)) as [[w rest]|]; [|exact H].
  destruct (snd p) as [|x rep]; [simpl in Hl; lia|].
  simpl in Hw. apply andb_true_iff in Hw as [Hx _].
  simpl. apply word_not_space. exact Hx.
Qed.

Lemma solidHead_fold rs : forallb goodPair rs = true -> forall s,
  solidHead s -> solidHead (fold_left step rs s).
Proof.
  induction rs as [|p rs IH]; intros Hrs s H; [exact H|].
  simpl in Hrs. apply andb_true_iff in Hrs as [Hp Hrs]. simpl.
  apply IH; [exact Hrs|]. apply solidHead_step; assumption.
Qed.

Lemma solidHead_nonempty s : solidHead s -> s <> [].
Proof. destruct s; [intros [] | discriminate]. Qed.

Lemma normalizeChars_empty_iff s : normalizeChars s = [] <-> trim s = [].
Proof.
  rewrite normalizeChars_eq. split.
  - intros H. destruct (trim s) as [|c r] eqn:E; [reflexivity|]. exfalso.
    assert (Hs : solidHead (trim s)) by (apply trim_solidHead; rewrite E; discriminate).
    rewrite E in Hs.
    apply solidHead_toLowerCase in Hs.
    apply (solidHead_fold replacements replacements_good) in Hs.
    apply solidHead_collapse, solidHead_trim, solidHead_nonempty in Hs.
    apply Hs. exact H.
  - intros ->. reflexivity.
Qed.

Lemma string_of_chars_nil (l : list ascii) :
  string_of_list_ascii l = ""%string <-> l = [].
Proof. destruct l; simpl; split; congruence. Qed.

Lemma startsWith_self s : startsWith s s = true.
Proof. induction s as [|c r IH]; simpl; [reflexivity|]. rewrite Ascii.eqb_refl. exact IH. Qed.

Lemma includes_self s : includes s s = true.
Proof. destruct s; simpl; [reflexivity|]. rewrite Ascii.eqb_refl, startsWith_self. reflexivity. Qed.

(** X1.  [normalizeCityName] gives the empty string exactly on blank input. *)
Theorem normalizeCityName_empty_iff_blank (s : string) :
  normalizeCityName s = ""%string <-> blank s.
Proof.
  unfold normalizeCityName, blank. rewrite string_of_chars_nil.
  apply normalizeChars_empty_iff.
Qed.

(** X2.  What a normalized name looks like: nothing to trim, white space only
    as single SPACE characters between other characters, no character that
    [toLowerCase] would change, and none of the seven abbreviations of the
    table standing as a word of its own. *)
Theorem normalizeCityName_shape (s : string) :
  let t := chars (normalizeCityName s) in
  trim t = t /\
  collapsedFrom false t = true /\
  toLowerCase t = t /\
  (forall lit rep, In (lit, rep) replacements -> hasMatch lit false t = false).
Proof.
  cbv zeta. unfold normalizeCityName. rewrite chars_of_string, normalizeChars_eq.
  set (u := applyReplacements (toLowerCase (trim (chars s)))).
  assert (Hu : Forall lowerFixed u).
  { apply fold_Forall; [apply replacements_lowerFixed | apply toLowerCase_lowerFixed]. }
  repeat split.
  - apply trim_idem.
  - apply collapsedFrom_trimEnd, (collapsedFrom_trimStart _ false), collapsedFrom_collapseFrom.
  - apply toLowerCase_fixed.
    apply trimEnd_Forall, trimStart_Forall, collapseFrom_Forall; [reflexivity | exact Hu].
  - intros lit rep Hp.
    assert (Hg : goodPair (lit, rep) = true).
    { pose proof replacements_good as H. rewrite forallb_forall in H. apply H. exact Hp. }
    apply goodPair_inv in Hg as [Hs _].
    apply shortWord_inv in Hs as Hs'. destruct Hs' as [Hne [Hw _]].
    apply hasMatch_tidy; try assumption.
    apply fold_absent; [apply replacements_good | exact Hs |].
    right. apply (in_map fst) in Hp. exact Hp.
Qed.

(** X3.  The two matchers of the module are one function, and the order of the
    two names does not matter. *)
Theorem citiesMatch_symmetric (a b : string) :
  citiesMatch a b = citiesMatch b a /\ cityMatchesQuery a b = citiesMatch a b.
Proof.
  split; [|reflexivity]. unfold citiesMatch.
  rewrite (orb_comm (isEmpty (chars (normalizeCityName a)))).
  rewrite (orb_comm (includes (chars (normalizeCityName a)) _)). reflexivity.
Qed.

(** X4.  A name matches itself exactly when it is not blank. *)
Theorem citiesMatch_self (a : string) :
  citiesMatch a a = true <-> ~ blank a.
Proof.
  unfold citiesMatch, blank. rewrite orb_diag, includes_self. simpl.
  rewrite <- normalizeChars_empty_iff. unfold normalizeCityName.
  rewrite chars_of_string.
  destruct (normalizeChars (chars a)); simpl; split; congruence.
Qed.

(** X5.  Matching looks at the normalized names only: a name and its normalized
    form match the same names. *)
Theorem citiesMatch_normalized (a b : string) :
  citiesMatch (normalizeCityName a) b = citiesMatch a b /\
  citiesMatch a (normalizeCityName b) = citiesMatch a b.
Proof.
  assert (H : forall s, normalizeCityName (normalizeCityName s) = normalizeCityName s).
  { intros s. unfold normalizeCityName. rewrite chars_of_string, normalizeChars_idem.
    reflexivity. }
  unfold citiesMatch. rewrite !H. split; reflexivity.
Qed.

End GeoMore.

(** * Properties of the state names, the search terms and the lookups *)

Module GeoLookupFacts.
Import Geo GeoFacts GeoQuery GeoLookup.

Lemma textEqb_eq a b : textEqb a b = true <-> a = b.
Proof.
  unfold textEqb. rewrite andb_true_iff, startsWith_spec, Nat.eqb_eq. split.
  - intros [[post ->] Hlen]. rewrite length_app in Hlen.
    destruct post; [apply app_nil_r | simpl in Hlen; lia].
  - intros ->. split; [exists []; symmetry; apply app_nil_r | reflexivity].
Qed.

Lemma textEqb_refl a : textEqb a a = true.
Proof. apply textEqb_eq. reflexivity. Qed.

Lemma lower_space c : isWhiteSpace (toLowerChar c) = isWhiteSpace c.
Proof. ascii_cases c; vm_compute; reflexivity. Qed.

Lemma trimStart_toLowerCase s : trimStart (toLowerCase s) = toLowerCase (trimStart s).
Proof.
  induction s as [|c r IH]; [reflexivity|]. simpl. rewrite lower_space.
  destruct (isWhiteSpace c); [exact IH | reflexivity].
Qed.

Lemma trimEnd_toLowerCase s : trimEnd (toLowerCase s) = toLowerCase (trimEnd s).
Proof.
  induction s as [|c r IH]; [reflexivity|]. simpl. rewrite IH, lower_space.
  destruct (trimEnd r); simpl; [destruct (isWhiteSpace c)|]; reflexivity.
Qed.

Lemma trim_toLowerCase s : trim (toLowerCase s) = toLowerCase (trim s).
Proof. unfold trim. rewrite trimStart_toLowerCase, trimEnd_toLowerCase. reflexivity. Qed.

Lemma toLowerCase_idem s : toLowerCase (toLowerCase s) = toLowerCase s.
Proof. apply toLowerCase_fixed, toLowerCase_lowerFixed. Qed.

Lemma toLowerCase_length s : length (toLowerCase s) = length s.
Proof. apply length_map. Qed.

Lemma ownProperty_In table key v :
  ownProperty table key = Some v ->
  exists k w, In (k, w) table /\ chars k = key /\ chars w = v.
Proof.
  induction table as [|[k w] rest IH]; simpl; [discriminate|].
  destruct (textEqb (chars k) key) eqn:E.
  - apply textEqb_eq in E. intros [= <-]. exists k, w. auto.
  - intros H. destruct (IH H) as [k' [w' [Hin Hk]]]. exists k', w'. auto.
Qed.

Lemma getProperty_Proto table key m :
  getProperty table key = Some (Proto m) -> key = protoName m.
Proof.
  unfold getProperty. destruct (ownProperty table key); [discriminate|].
  destruct (textEqb key (chars "constructor")) eqn:E1.
  { apply textEqb_eq in E1. intros [= <-]. exact E1. }
  destruct (textEqb key (chars "__proto__")) eqn:E2; [|discriminate].
  apply textEqb_eq in E2. intros [= <-]. exact E2.
Qed.

Lemma getProperty_Str table key v :
  getProperty table key = Some (Str v) -> ownProperty table key = Some v.
Proof.
  unfold getProperty. destruct (ownProperty table key); [congruence|].
  destruct (textEqb key _); [discriminate|]. destruct (textEqb key _); discriminate.
Qed.

(** *** getStateAbbr *)

Lemma STATE_TO_ABBR_ok : forallb stateEntryOk STATE_TO_ABBR = true.
Proof. vm_compute. reflexivity. Qed.

Lemma state_entry table_key v :
  ownProperty STATE_TO_ABBR table_key = Some v ->
  length table_key <> 2 /\ length v = 2 /\ toLowerCase v = v /\ trim v = v /\
  exists a, In a US_STATE_ABBREVS /\ toLowerCase (chars a) = v.
Proof.
  intros H. apply ownProperty_In in H as [k [w [Hin [<- <-]]]].
  pose proof STATE_TO_ABBR_ok as Hok. rewrite forallb_forall in Hok.
  specialize (Hok _ Hin). unfold stateEntryOk in Hok. cbn [fst snd] in Hok.
  repeat (apply andb_true_iff in Hok as [Hok ?]).
  apply negb_true_iff, Nat.eqb_neq in Hok.
  repeat split; try assumption.
  - apply Nat.eqb_eq. assumption.
  - apply textEqb_eq. assumption.
  - apply textEqb_eq. assumption.
  - match goal with H : existsb _ _ = true |- _ => apply existsb_exists in H as [a [Ha Hb]] end.
    exists a. split; [exact Ha | apply textEqb_eq; exact Hb].
Qed.

Lemma getStateAbbr_trimmed (r : list ascii) :
  r <> [] -> trim r = r ->
  getStateAbbr (string_of_list_ascii r) =
  if length r =? 2 then Str (toLowerCase r)
  else match getProperty STATE_TO_ABBR (toLowerCase r) with
       | Some v => v
       | None => Str (toLowerCase r)
       end.
Proof.
  intros Hne Ht. unfold getStateAbbr. rewrite chars_of_string.
  destruct r as [|c r]; [contradiction|]. rewrite Ht. reflexivity.
Qed.

(** X6.  [getStateAbbr] gives a text that it maps to itself: in lower case and
    without white space around.  It gives something else than a text only
    for the two lower-case names that every object inherits. *)
Theorem getStateAbbr_stable (state : string) :
  match getStateAbbr state with
  | Str r =>
      toLowerCase r = r /\ trim r = r /\
      getStateAbbr (string_of_list_ascii r) = Str r
  | Proto m => toLowerCase (trim (chars state)) = protoName m
  end.
Proof.
  unfold getStateAbbr at 1.
  destruct (chars state) as [|c0 r0] eqn:Es; [repeat split|].
  set (s := trim (c0 :: r0)).
  assert (Hts : trim s = s) by apply trim_idem.
  assert (Htl : trim (toLowerCase s) = toLowerCase s)
    by (rewrite trim_toLowerCase, Hts; reflexivity).
  destruct (length s =? 2) eqn:El.
  - apply Nat.eqb_eq in El. split; [apply toLowerCase_idem|]. split; [exact Htl|].
    rewrite getStateAbbr_trimmed; [| |exact Htl].
    + rewrite toLowerCase_length, El. simpl. rewrite toLowerCase_idem. reflexivity.
    + intros H. apply (f_equal (@length ascii)) in H.
      rewrite toLowerCase_length, El in H. discriminate.
  - destruct (getProperty STATE_TO_ABBR (toLowerCase s)) as [[v|m]|] eqn:Eg.
    + apply getProperty_Str in Eg. apply state_entry in Eg as [_ [Hl [Hlow [Htr _]]]].
      split; [exact Hlow|]. split; [exact Htr|].
      rewrite getStateAbbr_trimmed; [| |exact Htr].
      * rewrite Hl. simpl. rewrite Hlow. reflexivity.
      * intros ->. discriminate.
    + apply getProperty_Proto in Eg. exact Eg.
    + split; [apply toLowerCase_idem|]. split; [exact Htl|].
      assert (Hd : toLowerCase s = [] \/ toLowerCase s <> [])
        by (destruct (toLowerCase s); [left; reflexivity | right; discriminate]).
      destruct Hd as [Hd | Hd]; [rewrite Hd; reflexivity|].
      rewrite getStateAbbr_trimmed; [| exact Hd | exact Htl].
      rewrite toLowerCase_length, El, toLowerCase_idem, Eg. reflexivity.
Qed.

(** X7.  A state written by its full name, in any letter case and with white
    space around, gives its two-letter code, which is the lower-case form
    of an entry of [US_STATE_ABBREVS]. *)
Theorem getStateAbbr_full_name (state : string) (code : list ascii) :
  ownProperty STATE_TO_ABBR (toLowerCase (trim (chars state))) = Some code ->
  getStateAbbr state = Str code /\ length code = 2 /\
  exists a, In a US_STATE_ABBREVS /\ toLowerCase (chars a) = code.
Proof.
  intros H. pose proof (state_entry _ _ H) as [Hk [Hl [_ [_ Ha]]]].
  split; [|auto]. unfold getStateAbbr.
  destruct (chars state) as [|c0 r0] eqn:Es; [discriminate H|].
  rewrite toLowerCase_length in Hk. apply Nat.eqb_neq in Hk. rewrite Hk.
  unfold getProperty. rewrite H. reflexivity.
Qed.

Lemma getStateAbbr_full_name_witness :
  ownProperty STATE_TO_ABBR (toLowerCase (trim (chars " New York "))) = Some (chars "ny") /\
  getStateAbbr " New York " = Str (chars "ny") /\ length (chars "ny") = 2 /\
  exists a, In a US_STATE_ABBREVS /\ toLowerCase (chars a) = chars "ny".
Proof.
  split; [reflexivity|]. exact (getStateAbbr_full_name " New York " (chars "ny") eq_refl).
Defined.

(** *** getSearchVariations *)

Lemma sameValue_eq a b : sameValue a b = true <-> a = b.
Proof.
  destruct a as [x|[]], b as [y|[]]; simpl; try (split; [discriminate | congruence]);
    try (split; reflexivity).
  rewrite textEqb_eq. split; congruence.
Qed.

Lemma setAdd_single p v : queryFirst p (setAdd v [Str p]) = true.
Proof.
  unfold setAdd. simpl. destruct (sameValue v (Str p)) eqn:E; simpl.
  - rewrite textEqb_refl. reflexivity.
  - rewrite textEqb_refl, E. reflexivity.
Qed.

Lemma specialQueries_ok :
  forallb (fun k => queryFirst (chars k) (variationsOf (chars k))) specialQueries = true.
Proof. vm_compute. reflexivity. Qed.

Lemma ownProperty_special table p v :
  ownProperty table p = Some v -> existsb (fun k => textEqb (chars k) p) (map fst table) = true.
Proof.
  induction table as [|[k w] rest IH]; simpl; [discriminate|].
  destruct (textEqb (chars k) p); [reflexivity|]. exact IH.
Qed.

Lemma existsb_app_true {A} (f : A -> bool) l1 l2 :
  existsb f (l1 ++ l2) = existsb f l1 || existsb f l2.
Proof. apply existsb_app. Qed.

Lemma ordinary_query p :
  existsb (fun k => textEqb (chars k) p) specialQueries = false ->
  getProperty expandMap p = None /\ getProperty abbreviateMap p = None /\
  textEqb p (chars "fallon") = false /\ textEqb p (chars "ofallon") = false /\
  textEqb p (chars "o'fallon") = false.
Proof.
  unfold specialQueries. rewrite !existsb_app. intros H.
  apply orb_false_iff in H as [He H]. apply orb_false_iff in H as [Ha H].
  cbn [existsb] in H.
  repeat (apply orb_false_iff in H as [? H]).
  assert (Hsym : forall k, textEqb (chars k) p = false -> textEqb p (chars k) = false).
  { intros k Hk. destruct (textEqb p (chars k)) eqn:E; [|reflexivity].
    apply textEqb_eq in E. subst p. rewrite textEqb_refl in Hk. discriminate. }
  assert (Hown : forall table,
            existsb (fun k => textEqb (chars k) p) (map fst table) = false ->
            getProperty table p = None).
  { intros table Ht. unfold getProperty.
    destruct (ownProperty table p) eqn:Eo.
    - apply ownProperty_special in Eo. congruence.
    - rewrite !Hsym by assumption. reflexivity. }
  repeat split; auto.
Qed.

Lemma startsWith_head c r x sub : startsWith (c :: r) (x :: sub) = true -> x = c.
Proof. simpl. intros H. apply andb_true_iff in H as [H _]. apply Ascii.eqb_eq. exact H. Qed.

Lemma variationsOf_shape p : p <> [] -> queryFirst p (variationsOf p) = true.
Proof.
  intros Hne.
  destruct (existsb (fun k => textEqb (chars k) p) specialQueries) eqn:Es.
  - apply existsb_exists in Es as [k [Hk Hp]]. apply textEqb_eq in Hp. subst p.
    pose proof specialQueries_ok as H. rewrite forallb_forall in H. apply H. exact Hk.
  - apply ordinary_query in Es as [He [Ha [H1 [H2 H3]]]].
    unfold variationsOf. rewrite He, Ha, H1, H2, H3. cbn [addFound addWhen orb].
    destruct p as [|c r]; [contradiction|].
    assert (Hplain : queryFirst (c :: r) [Str (c :: r)] = true)
      by (simpl; rewrite textEqb_refl; reflexivity).
    destruct (startsWith (c :: r) (chars "spring")) eqn:P1.
    { apply startsWith_head in P1. subst c.
      cbn [startsWith chars list_ascii_of_string Ascii.eqb Bool.eqb andb addWhen].
      destruct (length ("s"%char :: r) <? 10); [apply setAdd_single | exact Hplain]. }
    destruct (startsWith (c :: r) (chars "columb")) eqn:P2.
    { apply startsWith_head in P2. subst c.
      cbn [startsWith chars list_ascii_of_string Ascii.eqb Bool.eqb andb addWhen].
      destruct (length ("c"%char :: r) <? 8); [apply setAdd_single | exact Hplain]. }
    destruct (startsWith (c :: r) (chars "jefferson")) eqn:P3.
    { apply startsWith_head in P3. subst c.
      cbn [startsWith chars list_ascii_of_string Ascii.eqb Bool.eqb andb addWhen].
      destruct (length ("j"%char :: r) <? 12); [apply setAdd_single | exact Hplain]. }
    cbn [andb addWhen].
    destruct (startsWith (c :: r) (chars "kansas") && (length (c :: r) <? 10));
      [apply setAdd_single | exact Hplain].
Qed.

(** X8.  [getSearchVariations] gives no term for a blank query; otherwise the
    trimmed lower-case query comes first, and at most one other term
    follows, different from it: a query costs at most two requests. *)
Theorem getSearchVariations_shape (partial : string) :
  let p := toLowerCase (trim (chars partial)) in
  (blank partial -> getSearchVariations partial = []) /\
  (~ blank partial ->
   exists rest, getSearchVariations partial = Str p :: rest /\
                length rest <= 1 /\ forall v, In v rest -> v <> Str p).
Proof.
  cbv zeta. unfold getSearchVariations, blank. split.
  - intros ->. reflexivity.
  - intros Hb.
    assert (Hne : toLowerCase (trim (chars partial)) <> []).
    { intros H. apply Hb. destruct (trim (chars partial)); [reflexivity | discriminate]. }
    destruct (toLowerCase (trim (chars partial))) as [|c r] eqn:E; [contradiction|].
    cbn [isEmpty]. pose proof (variationsOf_shape (c :: r) Hne) as H.
    destruct (variationsOf (c :: r)) as [|a [|v [|w l]]]; simpl in H; try discriminate.
    + apply sameValue_eq in H as ->. exists []. split; [reflexivity|].
      split; [simpl; lia | intros v []].
    + apply andb_true_iff in H as [Ha Hv]. apply sameValue_eq in Ha as ->.
      exists [v]. split; [reflexivity|]. split; [simpl; lia|].
      intros v' [<- | []] Heq. apply negb_true_iff in Hv.
      rewrite Heq in Hv. simpl in Hv. rewrite textEqb_refl in Hv. discriminate.
Qed.

(** *** The lookups *)

Lemma encodeChar_encoded c : forallb isEncoded (encodeChar c) = true.
Proof. ascii_cases c; vm_compute; reflexivity. Qed.

Lemma encodeChar_nonempty c : encodeChar c <> [].
Proof. ascii_cases c; vm_compute; discriminate. Qed.

Lemma encodeURIComponent_encoded s : forallb isEncoded (encodeURIComponent s) = true.
Proof.
  induction s as [|c r IH]; [reflexivity|].
  unfold encodeURIComponent. simpl. rewrite forallb_app, encodeChar_encoded. exact IH.
Qed.

Lemma encodeURIComponent_empty s : encodeURIComponent s = [] <-> s = [].
Proof.
  split; [|intros ->; reflexivity].
  destruct s as [|c r]; [reflexivity|]. unfold encodeURIComponent. simpl.
  pose proof (encodeChar_nonempty c). destruct (encodeChar c); [contradiction | discriminate].
Qed.

Lemma getStateAbbr_blank state : blank state -> getStateAbbr state = Str [].
Proof.
  unfold blank, getStateAbbr. intros H.
  destruct (chars state); [reflexivity|]. rewrite H. reflexivity.
Qed.

Section ServiceFacts.
Context {num : Type}.
Variable parseFloat : string -> num.
Variable fetch : list ascii -> FetchResult.
Variable objectText : protoMember -> list ascii.

Lemma lookupCoords_Some url c :
  lookupCoords parseFloat fetch url = Some c ->
  exists data, fetch url = FetchResponse true (Some data).
Proof.
  unfold lookupCoords. destruct (fetch url) as [|[|] [data|]]; try discriminate.
  intros _. exists data. reflexivity.
Qed.

(** X9.  [fetchZipCoords] asks the service only when the input holds five
    digits, once, and for exactly the first five of them whatever else
    stands in the input; it gives coordinates only from a response that was
    ok and could be read. *)
Theorem fetchZipCoords_requests (zip : string) :
  let digits := List.filter EventList.isDigit (chars zip) in
  let result := fst (fetchZipCoords parseFloat fetch zip) in
  let urls := snd (fetchZipCoords parseFloat fetch zip) in
  (length digits < 5 -> result = None /\ urls = []) /\
  (5 <= length digits -> urls = [apiBase ++ firstn 5 digits]) /\
  (forall c, result = Some c ->
     exists data, fetch (apiBase ++ firstn 5 digits) = FetchResponse true (Some data)).
Proof.
  cbv zeta. unfold fetchZipCoords.
  set (digits := List.filter EventList.isDigit (chars zip)).
  destruct (length (firstn 5 digits) <? 5) eqn:E.
  - apply Nat.ltb_lt in E. rewrite length_firstn in E. simpl.
    split; [auto|]. split; [intros H; lia | discriminate].
  - apply Nat.ltb_ge in E. rewrite length_firstn in E. simpl.
    split; [intros H; lia|]. split; [reflexivity|].
    intros c Hc. eapply lookupCoords_Some. exact Hc.
Qed.

(** Coordinates come from the one request made. *)
Lemma fetchCityCoords_Some (city state : string) c :
  fst (fetchCityCoords parseFloat fetch objectText city state) = Some c ->
  exists url data,
    snd (fetchCityCoords parseFloat fetch objectText city state) = [url] /\
    fetch url = FetchResponse true (Some data).
Proof.
  unfold fetchCityCoords.
  destruct (isEmpty (encodeURIComponent (trim (chars city))) ||
            negb (truthy (getStateAbbr state))); simpl; [discriminate|].
  intros Hc. apply lookupCoords_Some in Hc as [data Hd]. eauto.
Qed.

(** X10.  [fetchCityCoords] asks nothing when the city or the state is blank;
    what it asks for is one URL: the address of the service, the state
    code, a slash and the trimmed city as [encodeURIComponent] writes it,
    which is not empty and holds unreserved characters and percent signs
    only; it gives coordinates only from a response that was ok and could be
    read. *)
Theorem fetchCityCoords_requests (city state : string) :
  let result := fst (fetchCityCoords parseFloat fetch objectText city state) in
  let urls := snd (fetchCityCoords parseFloat fetch objectText city state) in
  let cityEnc := encodeURIComponent (trim (chars city)) in
  (blank city \/ blank state -> result = None /\ urls = []) /\
  (forall url, In url urls ->
     urls = [url] /\
     url = apiBase ++ valueText objectText (getStateAbbr state) ++ chars "/" ++ cityEnc /\
     cityEnc <> [] /\ forallb isEncoded cityEnc = true /\
     truthy (getStateAbbr state) = true) /\
  (forall c, result = Some c ->
     exists url data, urls = [url] /\ fetch url = FetchResponse true (Some data)).
Proof.
  cbv zeta. split; [|split; [|apply fetchCityCoords_Some]]; unfold fetchCityCoords;
    set (enc := encodeURIComponent (trim (chars city)));
    destruct (isEmpty enc || negb (truthy (getStateAbbr state))) eqn:E; simpl.
  - auto.
  - apply orb_false_iff in E as [Ee Et]. apply negb_false_iff in Et.
    assert (Hne : enc <> []) by (intros H; rewrite H in Ee; discriminate).
    intros [Hb | Hb]; exfalso.
    + apply Hne. apply encodeURIComponent_empty. exact Hb.
    + rewrite (getStateAbbr_blank state Hb) in Et. discriminate.
  - intros url [].
  - apply orb_false_iff in E as [Ee Et]. apply negb_false_iff in Et.
    assert (Hne : enc <> []) by (intros H; rewrite H in Ee; discriminate).
    intros url [<- | []]. split; [reflexivity|]. split; [reflexivity|].
    split; [exact Hne|]. split; [apply encodeURIComponent_encoded | exact Et].
Qed.

End ServiceFacts.

End GeoLookupFacts.

(** * Properties of the dates offered and of the origin *)

Module OriginFacts.
Import Geo GeoFacts GeoQuery GeoLookup GeoLookupFacts EventList EventListFacts Origin.

Lemma space_not_digit c : isWhiteSpace c = true -> isDigit c = false.
Proof. ascii_cases c; vm_compute; congruence. Qed.

Lemma filter_digits_space sfx :
  forallb isWhiteSpace sfx = true -> List.filter isDigit sfx = [].
Proof.
  induction sfx as [|c r IH]; [reflexivity|]. simpl. intros H.
  apply andb_true_iff in H as [Hc Hr]. rewrite (space_not_digit c Hc). auto.
Qed.

Lemma filter_digits_trimStart s :
  List.filter isDigit (trimStart s) = List.filter isDigit s.
Proof.
  induction s as [|c r IH]; [reflexivity|]. simpl.
  destruct (isWhiteSpace c) eqn:E; [|reflexivity].
  rewrite (space_not_digit c E). exact IH.
Qed.

Lemma filter_digits_trim s : List.filter isDigit (trim s) = List.filter isDigit s.
Proof.
  unfold trim. destruct (trimEnd_split (trimStart s)) as [sfx [Hs Hw]].
  rewrite <- (filter_digits_trimStart s).
  transitivity (List.filter isDigit (trimEnd (trimStart s) ++ sfx)).
  - rewrite List.filter_app, (filter_digits_space sfx Hw), app_nil_r. reflexivity.
  - rewrite <- Hs. reflexivity.
Qed.

Lemma filter_filter_same {A} (p : A -> bool) l :
  List.filter p (List.filter p l) = List.filter p l.
Proof.
  induction l as [|x l IH]; [reflexivity|]. simpl.
  destruct (p x) eqn:E; simpl; [rewrite E, IH|]; auto.
Qed.

(** *** The order of strings *)

Lemma code_inj x y : code x = code y -> x = y.
Proof.
  unfold code. intros H. rewrite <- (ascii_N_embedding x), <- (ascii_N_embedding y), H.
  reflexivity.
Qed.

Lemma textCompare_refl a : textCompare a a = Eq.
Proof. induction a as [|x a IH]; simpl; [reflexivity|]. rewrite N.compare_refl. exact IH. Qed.

Lemma textCompare_eq a : forall b, textCompare a b = Eq -> a = b.
Proof.
  induction a as [|x a IH]; intros [|y b]; simpl; try discriminate; [reflexivity|].
  destruct (N.compare (code x) (code y)) eqn:E; try discriminate.
  apply N.compare_eq in E. apply code_inj in E. intros H. f_equal; auto.
Qed.

Lemma textCompare_antisym a : forall b, textCompare b a = CompOpp (textCompare a b).
Proof.
  induction a as [|x a IH]; intros [|y b]; simpl; try reflexivity.
  rewrite (N.compare_antisym (code x) (code y)).
  destruct (N.compare (code x) (code y)); simpl; auto.
Qed.

Lemma textCompare_lt_trans a : forall b c,
  textCompare a b = Lt -> textCompare b c = Lt -> textCompare a c = Lt.
Proof.
  induction a as [|x a IH]; intros [|y b] [|z c]; simpl; try discriminate; try reflexivity.
  destruct (N.compare (code x) (code y)) eqn:E1; try discriminate;
    destruct (N.compare (code y) (code z)) eqn:E2; try discriminate.
  - apply N.compare_eq in E1, E2. rewrite E1, E2, N.compare_refl. apply IH.
  - apply N.compare_eq in E1. rewrite E1, E2. reflexivity.
  - apply N.compare_eq in E2. rewrite <- E2, E1. reflexivity.
  - intros _ _. rewrite N.compare_lt_iff in *.
    assert (H : (code x < code z)%N) by (eapply N.lt_trans; eassumption).
    apply N.compare_lt_iff in H. rewrite H. reflexivity.
Qed.

Lemma chars_inj (a b : string) : chars a = chars b -> a = b.
Proof.
  unfold chars. intros H.
  rewrite <- (string_of_list_ascii_of_string a), <- (string_of_list_ascii_of_string b), H.
  reflexivity.
Qed.

Lemma textLtb_asym a b : textLtb a b = true -> textLtb b a = false.
Proof.
  unfold textLtb. rewrite (textCompare_antisym (chars a) (chars b)).
  destruct (textCompare (chars a) (chars b)); simpl; congruence.
Qed.

Lemma mayPrecede_default a b : mayPrecede defaultCompare a b <-> textLtb b a = false.
Proof.
  unfold mayPrecede, defaultCompare. destruct (textLtb a b) eqn:E.
  - apply textLtb_asym in E. rewrite E. simpl. tauto.
  - destruct (textLtb b a); simpl; split; congruence.
Qed.

Lemma textLtb_chain a b c :
  textLtb b a = false -> textLtb c b = false -> textLtb c a = false.
Proof.
  unfold textLtb. intros H1 H2.
  destruct (textCompare (chars c) (chars a)) eqn:E; try reflexivity. exfalso.
  destruct (textCompare (chars b) (chars a)) eqn:Eba; try discriminate.
  - apply textCompare_eq in Eba. rewrite Eba in H2. rewrite E in H2. discriminate.
  - destruct (textCompare (chars c) (chars b)) eqn:Ecb; try discriminate.
    + apply textCompare_eq in Ecb. rewrite Ecb, Eba in E. discriminate.
    + rewrite (textCompare_antisym (chars a) (chars b)) in Eba.
      rewrite (textCompare_antisym (chars b) (chars c)) in Ecb.
      destruct (textCompare (chars a) (chars b)) eqn:Eab; try discriminate.
      destruct (textCompare (chars b) (chars c)) eqn:Ebc; try discriminate.
      pose proof (textCompare_lt_trans _ _ _ Eab Ebc) as Hac.
      rewrite (textCompare_antisym (chars a) (chars c)), Hac in E. discriminate.
Qed.

Lemma textLtb_total a b : textLtb a b = false -> textLtb b a = false -> a = b.
Proof.
  unfold textLtb. rewrite (textCompare_antisym (chars a) (chars b)).
  destruct (textCompare (chars a) (chars b)) eqn:E; simpl; try discriminate.
  intros _ _. apply chars_inj, textCompare_eq. exact E.
Qed.

(** *** Sorting keeps the elements *)

Lemma insertSorted_Permutation {A} (cmp : A -> A -> sign) x l :
  Permutation (insertSorted cmp x l) (x :: l).
Proof.
  induction l as [|y l IH]; simpl; [reflexivity|].
  destruct (comesAfter (cmp x y)); [|reflexivity].
  rewrite IH. apply perm_swap.
Qed.

Lemma sort_Permutation {A} (cmp : A -> A -> sign) l : Permutation (sort cmp l) l.
Proof.
  induction l as [|x l IH]; simpl; [reflexivity|].
  rewrite insertSorted_Permutation. constructor. exact IH.
Qed.

(** *** uniqueDates *)

Lemma addDate_In seen d x : In x (addDate seen d) <-> In x seen \/ x = d.
Proof.
  unfold addDate. destruct (existsb (String.eqb d) seen) eqn:E.
  - apply existsb_exists in E as [y [Hy Hd]]. apply String.eqb_eq in Hd. subst y.
    split; [auto | intros [H | ->]; assumption].
  - rewrite in_app_iff. simpl. split; [intros [H | [<- | []]]; auto | intros [H | ->]; auto].
Qed.

Lemma addDate_NoDup seen d : List.NoDup seen -> List.NoDup (addDate seen d).
Proof.
  intros H. unfold addDate. destruct (existsb (String.eqb d) seen) eqn:E; [exact H|].
  apply List.NoDup_app; [exact H | repeat constructor; intros [] |].
  intros x Hx [Hd | []]. subst x.
  assert (Ht : existsb (String.eqb d) seen = true).
  { apply existsb_exists. exists d. split; [exact Hx | apply String.eqb_refl]. }
  congruence.
Qed.

Lemma distinct_fold dates : forall seen,
  List.NoDup seen ->
  List.NoDup (fold_left addDate dates seen) /\
  (forall x, In x (fold_left addDate dates seen) <-> In x seen \/ In x dates).
Proof.
  induction dates as [|d dates IH]; intros seen Hs; simpl.
  - split; [exact Hs | intros x; tauto].
  - destruct (IH (addDate seen d) (addDate_NoDup seen d Hs)) as [Hn Hi].
    split; [exact Hn|]. intros x. rewrite Hi, addDate_In. intuition congruence.
Qed.

Lemma sorted_NoDup_strict l :
  StronglySorted (mayPrecede defaultCompare) l -> List.NoDup l ->
  StronglySorted (fun a b => textLtb a b = true) l.
Proof.
  induction 1 as [|x l Hl IH Hx]; intros Hn; constructor.
  - apply IH. apply List.NoDup_cons_iff in Hn. tauto.
  - apply List.NoDup_cons_iff in Hn as [Hnot _].
    rewrite List.Forall_forall in *. intros y Hy.
    pose proof (Hx y Hy) as H. apply mayPrecede_default in H.
    destruct (textLtb x y) eqn:E; [reflexivity|]. exfalso.
    apply Hnot. rewrite (textLtb_total x y E H). exact Hy.
Qed.

(** X11.  The dates offered in the date filter are the dates of the events, each
    once, in ascending order. *)
Theorem uniqueDates_sorted_distinct {num} (events : list (EventWithLocation num)) :
  (forall d, In d (uniqueDates events) <-> exists e, In e events /\ event_date e = d) /\
  StronglySorted (fun a b => textLtb a b = true) (uniqueDates events).
Proof.
  unfold uniqueDates, distinctDates.
  destruct (distinct_fold (map event_date events) [] (List.NoDup_nil _)) as [Hn Hi].
  split.
  - intros d. rewrite sort_In, Hi, in_map_iff. simpl. split.
    + intros [[] | [e [He Hin]]]. exists e. auto.
    + intros [e [Hin He]]. right. exists e. auto.
  - apply sorted_NoDup_strict.
    + apply sort_sorted.
      * intros x y H. apply mayPrecede_default.
        unfold defaultCompare in H. destruct (textLtb x y); [discriminate | reflexivity].
      * intros x y z. rewrite !mayPrecede_default. apply textLtb_chain.
    + eapply Permutation_NoDup; [symmetry; apply sort_Permutation | exact Hn].
Qed.

Section ResolveFacts.
Context {num : Type}.
Variable parseFloat : string -> num.
Variable fetch : list ascii -> FetchResult.
Variable objectText : protoMember -> list ascii.

Local Abbreviation resolve := (resolveOrigin parseFloat fetch objectText).

Lemma fetchZipCoords_digits z :
  5 <= length (List.filter isDigit z) ->
  fetchZipCoords parseFloat fetch (text (List.filter isDigit z)) =
  (lookupCoords parseFloat fetch (apiBase ++ firstn 5 (List.filter isDigit z)),
   [apiBase ++ firstn 5 (List.filter isDigit z)]).
Proof.
  intros H. unfold fetchZipCoords, text. rewrite chars_of_string, filter_filter_same.
  assert (E : (length (firstn 5 (List.filter isDigit z)) <? 5) = false).
  { apply Nat.ltb_ge. rewrite length_firstn. lia. }
  rewrite E. reflexivity.
Qed.

(** X12.  A postal code of five digits or more decides alone: the city text, the
    events and the earlier state play no part, and the one request made is
    the one for its first five digits. *)
Theorem resolveOrigin_zip_first (zipQuery : string) :
  5 <= length (List.filter isDigit (chars zipQuery)) ->
  forall city1 city2 (events1 events2 : list (EventWithLocation num)) before1 before2,
    resolve zipQuery city1 events1 before1 = resolve zipQuery city2 events2 before2 /\
    snd (resolve zipQuery city1 events1 before1) =
      [apiBase ++ firstn 5 (List.filter isDigit (chars zipQuery))].
Proof.
  intros H city1 city2 events1 events2 before1 before2.
  unfold resolveOrigin. rewrite filter_digits_trim.
  assert (E : (5 <=? length (List.filter isDigit (chars zipQuery))) = true)
    by (apply Nat.leb_le; exact H).
  rewrite E. split; [reflexivity|]. rewrite fetchZipCoords_digits by exact H. reflexivity.
Qed.

(** X13.  After [resolveOrigin] there are never coordinates together with an
    error message; coordinates come from exactly one request; and no
    message means that there are coordinates or that nothing usable was
    typed (fewer than five digits and a blank city). *)
Theorem resolveOrigin_outcome (zipQuery cityQuery : string)
    (events : list (EventWithLocation num)) (before : GeoState num) :
  let after := fst (resolve zipQuery cityQuery events before) in
  let urls := snd (resolve zipQuery cityQuery events before) in
  (originCoords after <> None -> geoError after = None /\ exists url, urls = [url]) /\
  (geoError after = None ->
   originCoords after <> None \/
   (length (List.filter isDigit (chars zipQuery)) < 5 /\ blank cityQuery)).
Proof.
  cbv zeta. unfold resolveOrigin. rewrite filter_digits_trim.
  destruct (5 <=? length (List.filter isDigit (chars zipQuery))) eqn:E.
  - apply Nat.leb_le in E. rewrite fetchZipCoords_digits by exact E. cbn [fst snd originCoords geoError].
    destruct (lookupCoords parseFloat fetch _); simpl.
    + split; [intros _; split; [reflexivity | eauto] | intros _; left; discriminate].
    + split; [intros H; contradiction | discriminate].
  - apply Nat.leb_gt in E.
    destruct (isEmpty (trim (chars cityQuery))) eqn:Ec; cbn [negb].
    + cbn [fst snd originCoords geoError]. split; [intros H; contradiction|].
      intros _. right. split; [exact E|]. unfold blank.
      destruct (trim (chars cityQuery)); [reflexivity | discriminate].
    + match goal with
      | |- context [if isEmpty ?st then _ else _] => destruct (isEmpty st) eqn:Es
      end.
      * cbn [fst snd originCoords geoError]. split; [intros H; contradiction | discriminate].
      * cbn [fst snd originCoords geoError].
        match goal with
        | |- context [fetchCityCoords parseFloat fetch objectText ?c ?s] =>
            pose proof (fetchCityCoords_Some parseFloat fetch objectText c s) as Hr;
            destruct (fetchCityCoords parseFloat fetch objectText c s) as [[coords|] urls]
        end; cbn [fst snd errorUnless] in *.
        -- split; [|intros _; left; discriminate]. intros _. split; [reflexivity|].
           destruct (Hr coords eq_refl) as [url [data [Hu _]]]. eauto.
        -- split; [intros H; contradiction | discriminate].
Qed.

(** X14.  A city typed without a comma, when no event lies in a matching city,
    asks the user for the state and requests nothing. *)
Theorem resolveOrigin_needs_state (zipQuery cityQuery : string)
    (events : list (EventWithLocation num)) (before : GeoState num) :
  length (List.filter isDigit (chars zipQuery)) < 5 ->
  ~ blank cityQuery ->
  indexOfChar ","%char (trim (chars cityQuery)) = None ->
  (forall e, In e events ->
     citiesMatch (getLocationCity e) (text (trim (chars cityQuery))) = false) ->
  resolve zipQuery cityQuery events before =
  (mkGeoState None false (Some "Add state (e.g. Saint Louis, MO)"%string), []).
Proof.
  intros Hz Hc Hcomma Hev. unfold resolveOrigin, splitCityState.
  rewrite filter_digits_trim.
  assert (E : (5 <=? length (List.filter isDigit (chars zipQuery))) = false)
    by (apply Nat.leb_gt; exact Hz).
  rewrite E, Hcomma. cbn [fst snd isEmpty].
  assert (Ec : isEmpty (trim (chars cityQuery)) = false).
  { unfold blank in Hc. destruct (trim (chars cityQuery)); [contradiction | reflexivity]. }
  rewrite Ec. cbn [negb].
  assert (Hf : find (fun e => citiesMatch (getLocationCity e) (text (trim (chars cityQuery))))
                 events = None).
  { induction events as [|e events IH]; [reflexivity|]. simpl.
    rewrite (Hev e) by (left; reflexivity). apply IH.
    intros e' He'. apply Hev. right. exact He'. }
  rewrite Hf. reflexivity.
Qed.

End ResolveFacts.

Lemma resolveOrigin_zip_first_witness :
  5 <= length (List.filter isDigit (chars "63101")) /\
  snd (resolveOrigin OriginSamples.noFloat OriginSamples.offline OriginSamples.objectText
         "63101" "Springfield" Samples.sampleEvents OriginSamples.idle) =
    [apiBase ++ chars "63101"].
Proof.
  assert (H : 5 <= length (List.filter isDigit (chars "63101"))) by (simpl; lia).
  split; [exact H|].
  exact (proj2 (resolveOrigin_zip_first OriginSamples.noFloat OriginSamples.offline
                  OriginSamples.objectText "63101" H "Springfield" "" Samples.sampleEvents []
                  OriginSamples.idle OriginSamples.idle)).
Defined.

Lemma resolveOrigin_needs_state_witness :
  length (List.filter isDigit (chars "")) < 5 /\
  ~ blank "Springfield" /\
  resolveOrigin OriginSamples.noFloat OriginSamples.offline OriginSamples.objectText
    "" "Springfield" Samples.sampleEvents OriginSamples.idle =
  (mkGeoState None false (Some "Add state (e.g. Saint Louis, MO)"%string), []).
Proof.
  assert (Hz : length (List.filter isDigit (chars "")) < 5) by (simpl; lia).
  assert (Hc : ~ blank "Springfield") by (unfold blank; vm_compute; discriminate).
  split; [exact Hz | split; [exact Hc|]].
  apply (resolveOrigin_needs_state OriginSamples.noFloat OriginSamples.offline
           OriginSamples.objectText "" "Springfield" Samples.sampleEvents OriginSamples.idle
           Hz Hc).
  - vm_compute. reflexivity.
  - intros e [<- | [<- | [<- | [<- | []]]]]; vm_compute; reflexivity.
Defined.

End OriginFacts.

(** * Proofs: more on the list of events *)

Module EventListMore.
Import Geo EventList EventListFacts OriginFacts.

Lemma filter_split_Permutation {A} (p : A -> bool) l :
  Permutation (List.filter p l ++ List.filter (fun x => negb (p x)) l) l.
Proof.
  induction l as [|x l IH]; simpl; [reflexivity|].
  destruct (p x); simpl.
  - constructor. exact IH.
  - symmetry. apply Permutation_cons_app. symmetry. exact IH.
Qed.

Lemma filter_narrower_in {A} (p q : A -> bool) l :
  (forall x, In x l -> p x = true -> q x = true) ->
  List.filter p (List.filter q l) = List.filter p l.
Proof.
  induction l as [|x l IH]; intros H; simpl; [reflexivity|].
  assert (IH' : List.filter p (List.filter q l) = List.filter p l).
  { apply IH. intros y Hy. apply H. right. exact Hy. }
  destruct (q x) eqn:Eq; simpl.
  - destruct (p x); [f_equal|]; exact IH'.
  - destruct (p x) eqn:Ep; [|exact IH'].
    apply H in Ep; [congruence | left; reflexivity].
Qed.

Section EngineMore.
Context {num : Type}.
Variable sub : num -> num -> num.
Variable ltb leb : num -> num -> bool.
Variable zero infinity : num.
Variable ofInt : Z -> num.
Variable haversineMiles : num -> num -> num -> num -> num.

Local Abbreviation engine :=
  (filteredAndSortedEvents sub ltb leb zero infinity ofInt haversineMiles).
Local Abbreviation dist := (eventDistance infinity haversineMiles).
Local Abbreviation radiusActive := (radiusActive ltb zero ofInt).
Local Abbreviation getDistance := (getDistance infinity).
Local Abbreviation insertDistance origin :=
  (fun (m : gmap string num) e => <[id e := dist origin e]> m).

Lemma fold_insert_origin origin (k : string) (d : num) l :
  forall m : gmap string num,
  fold_left (insertDistance origin) l m !! k = Some d ->
  m !! k = Some d \/
  exists e, In e l /\ id e = k /\ d = dist origin e.
Proof.
  induction l as [|e l IH]; intros m H; simpl in H; [left; exact H|].
  apply IH in H as [H | [e' [He' Hk]]].
  - destruct (decide (id e = k)) as [Hk | Hk].
    + rewrite Hk, lookup_insert_eq in H. injection H as <-.
      right. exists e. split; [left; reflexivity | auto].
    + rewrite lookup_insert_ne in H by exact Hk. left. exact H.
  - right. exists e'. split; [right; exact He' | exact Hk].
Qed.

Lemma fold_insert_present origin (k : string) l :
  forall m : gmap string num,
  is_Some (m !! k) \/ (exists e, In e l /\ id e = k) ->
  is_Some (fold_left (insertDistance origin) l m !! k).
Proof.
  induction l as [|e l IH]; intros m H; simpl.
  - destruct H as [H | [e [[] _]]]. exact H.
  - apply IH. destruct (decide (id e = k)) as [Hk | Hk].
    + left. rewrite Hk, lookup_insert_eq. eexists. reflexivity.
    + destruct H as [H | [e' [[-> | He'] Hk']]].
      * left. rewrite lookup_insert_ne by exact Hk. exact H.
      * contradiction.
      * right. exists e'. auto.
Qed.

(** X15.  The list shown and the events left out make up the events of the chosen
    date, each as often as it occurs there: nothing is shown twice and
    nothing is invented.  Events are left out only by a radius in use with
    an origin, and each of them has a looked-up distance that is not within
    the radius. *)
Theorem filteredAndSortedEvents_partition events dateFilter originCoords withinMiles :
  exists dropped,
    Permutation
      (fst (engine events dateFilter originCoords withinMiles) ++ dropped)
      (dateFiltered events dateFilter) /\
    (originCoords = None \/ radiusActive withinMiles = None -> dropped = []) /\
    (forall e, In e dropped ->
       exists radius, radiusActive withinMiles = Some radius /\
         withinRadius leb
           (getDistance (snd (engine events dateFilter originCoords withinMiles)) (id e))
           radius
         = false).
Proof.
  unfold filteredAndSortedEvents. cbn [fst snd].
  destruct originCoords as [origin|].
  - destruct (radiusActive withinMiles) as [radius|].
    + set (m := fillDistMap infinity haversineMiles origin (dateFiltered events dateFilter)).
      set (cmp := fun a b : EventWithLocation num =>
                    subtractSign sub ltb zero (getDistance m (id a)) (getDistance m (id b))).
      exists (List.filter (fun e => negb (withinRadius leb (getDistance m (id e)) radius))
                (sort cmp (dateFiltered events dateFilter))).
      split; [|split].
      * rewrite (filter_split_Permutation
                   (fun e => withinRadius leb (getDistance m (id e)) radius)).
        apply sort_Permutation.
      * intros [H | H]; discriminate.
      * intros e He. apply filter_In in He as [_ He]. exists radius.
        split; [reflexivity|]. apply negb_true_iff. exact He.
    + exists []. rewrite app_nil_r.
      split; [apply sort_Permutation | split; [reflexivity | intros e []]].
  - exists []. rewrite app_nil_r.
    split; [reflexivity | split; [reflexivity | intros e []]].
Qed.

(** X16.  The distance map has an entry for exactly the ids of the events of the
    chosen date, each holding the distance from the origin of an event with
    that id; without an origin the map is empty. *)
Theorem filteredAndSortedEvents_distMap events dateFilter withinMiles :
  (forall origin k,
     (is_Some (snd (engine events dateFilter (Some origin) withinMiles) !! k) <->
      exists e, In e (dateFiltered events dateFilter) /\ id e = k) /\
     (forall d, snd (engine events dateFilter (Some origin) withinMiles) !! k = Some d ->
        exists e, In e (dateFiltered events dateFilter) /\ id e = k /\
          d = dist origin e)) /\
  snd (engine events dateFilter None withinMiles) = ∅.
Proof.
  split; [|reflexivity].
  intros origin k. unfold filteredAndSortedEvents, fillDistMap. cbn [snd].
  assert (Hd : forall d,
    fold_left (insertDistance origin) (dateFiltered events dateFilter) ∅ !! k = Some d ->
    exists e, In e (dateFiltered events dateFilter) /\ id e = k /\
      d = dist origin e).
  { intros d H. apply fold_insert_origin in H as [H | H]; [|exact H].
    rewrite lookup_empty in H. discriminate. }
  split; [split|exact Hd].
  - intros [d H]. apply Hd in H as [e [He [Hk _]]]. exists e. auto.
  - intros H. apply fold_insert_present. right. exact H.
Qed.

(** X17.  When every looked-up distance within the smaller of two radii in
    use is within the larger (as in an order of the numbers), the list
    shown for the smaller radius is the list shown for the larger one with
    the events beyond the smaller radius taken out, in the same order. *)
Theorem filteredAndSortedEvents_radius_monotone
    events dateFilter origin small large smaller larger :
  radiusActive small = Some smaller ->
  radiusActive large = Some larger ->
  (forall e, In e (dateFiltered events dateFilter) ->
     leb (getDistance (snd (engine events dateFilter (Some origin) large)) (id e)) smaller
       = true ->
     leb (getDistance (snd (engine events dateFilter (Some origin) large)) (id e)) larger
       = true) ->
  fst (engine events dateFilter (Some origin) small) =
    List.filter
      (fun e => withinRadius leb
                  (getDistance (snd (engine events dateFilter (Some origin) large)) (id e))
                  smaller)
      (fst (engine events dateFilter (Some origin) large)).
Proof.
  intros Hn Hm Hmono. revert Hmono. unfold filteredAndSortedEvents. cbn [fst snd].
  rewrite Hn, Hm. intros Hmono. symmetry. apply filter_narrower_in.
  intros e He. apply sort_In in He. unfold withinRadius. apply Hmono. exact He.
Qed.

End EngineMore.

Lemma filteredAndSortedEvents_radius_monotone_witness :
  let engine :=
    FloatEngine.filteredAndSortedEvents FloatSamples.sinTable FloatSamples.cosTable
      FloatSamples.atan2Table FloatSamples.sampleEvents "" (Some FloatSamples.sampleOrigin) in
  radiusActive PrimFloat.ltb 0%float FloatEngine.ofInt "10" = Some 10%float /\
  radiusActive PrimFloat.ltb 0%float FloatEngine.ofInt "100" = Some 100%float /\
  fst (engine "10") =
    List.filter
      (fun e => withinRadius PrimFloat.leb
                  (getDistance infinity (snd (engine "100")) (id e)) 10%float)
      (fst (engine "100")).
Proof.
  assert (Hn : radiusActive PrimFloat.ltb 0%float FloatEngine.ofInt "10" = Some 10%float)
    by (vm_compute; reflexivity).
  assert (Hm : radiusActive PrimFloat.ltb 0%float FloatEngine.ofInt "100" = Some 100%float)
    by (vm_compute; reflexivity).
  split; [exact Hn | split; [exact Hm|]].
  apply (filteredAndSortedEvents_radius_monotone PrimFloat.sub PrimFloat.ltb PrimFloat.leb
           0%float infinity FloatEngine.ofInt
           (Geo.haversineMiles FloatSamples.sinTable FloatSamples.cosTable
              FloatSamples.atan2Table)
           FloatSamples.sampleEvents "" FloatSamples.sampleOrigin "10" "100"
           10%float 100%float Hn Hm).
  intros e He. simpl in He.
  repeat (destruct He as [<- | He]; [vm_compute; intros H; first [exact H | reflexivity]|]).
  destruct He.
Defined.

End EventListMore.

(** * Proofs: the e-mail module *)

Module EmailFacts.
Import Geo Email GeoFacts.

Lemma replaceChar_app c by_ a b :
  replaceChar c by_ (a ++ b) = replaceChar c by_ a ++ replaceChar c by_ b.
Proof.
  induction a as [|x a IH]; simpl; [reflexivity|]. rewrite IH, app_assoc. reflexivity.
Qed.

Lemma escapeHtmlChars_cons c s :
  escapeHtmlChars (c :: s) = escapeChar c ++ escapeHtmlChars s.
Proof.
  unfold escapeHtmlChars. cbn [replaceChar]. rewrite !replaceChar_app.
  f_equal. revert c. intros c. ascii_cases c; vm_compute; reflexivity.
Qed.

(** X18.  The four replacements in a row are one pass over the text in which
    each of the characters &, <, > and the double quote gives way to its
    entity and every other character stays: the ampersands the later
    replacements write are not escaped again.  The result has none of <, >
    and the double quote left. *)
Theorem escapeHtml_one_pass (s : list ascii) :
  escapeHtmlChars s = flat_map escapeChar s /\
  (forall c, In c (escapeHtmlChars s) ->
     c <> "<"%char /\ c <> ">"%char /\ c <> doubleQuote).
Proof.
  assert (H : escapeHtmlChars s = flat_map escapeChar s).
  { induction s as [|c s IH]; [reflexivity|].
    rewrite escapeHtmlChars_cons, IH. reflexivity. }
  split; [exact H|]. rewrite H. clear H.
  intros c Hc. apply in_flat_map in Hc as [x [_ Hx]].
  revert Hx. ascii_cases x; vm_compute;
    intros Hx; repeat (destruct Hx as [<- | Hx]; [repeat split; discriminate|]);
    destruct Hx.
Qed.

Lemma escapeChar_head c :
  exists h t, escapeChar c = h :: t /\
    ((h = c /\ t = [] /\ c <> "&"%char) \/ (h = "&"%char /\ exists k u, t = k :: u)).
Proof.
  ascii_cases c; vm_compute; do 2 eexists; (split; [reflexivity|]);
    first [ left; repeat split; discriminate
          | right; split; [reflexivity | do 2 eexists; reflexivity] ].
Qed.

Lemma escapeChar_prefix c d r r' :
  escapeChar c ++ r = escapeChar d ++ r' -> c = d.
Proof.
  unfold escapeChar.
  destruct (Ascii.eqb c "&") eqn:C1; [apply Ascii.eqb_eq in C1|];
  [|destruct (Ascii.eqb c "<") eqn:C2; [apply Ascii.eqb_eq in C2|]];
  [| |destruct (Ascii.eqb c ">") eqn:C3; [apply Ascii.eqb_eq in C3|]];
  [| | |destruct (Ascii.eqb c doubleQuote) eqn:C4; [apply Ascii.eqb_eq in C4|]];
  (destruct (Ascii.eqb d "&") eqn:D1; [apply Ascii.eqb_eq in D1|];
   [|destruct (Ascii.eqb d "<") eqn:D2; [apply Ascii.eqb_eq in D2|]];
   [| |destruct (Ascii.eqb d ">") eqn:D3; [apply Ascii.eqb_eq in D3|]];
   [| | |destruct (Ascii.eqb d doubleQuote) eqn:D4; [apply Ascii.eqb_eq in D4|]]);
  simpl; intros H; try congruence; try discriminate H;
  injection H as H; subst;
  try (rewrite Ascii.eqb_refl in *; discriminate); try reflexivity.
Qed.

(** X19.  Two texts with the same escaped form are the same text: the escaped
    form can be read back in one way only. *)
Theorem escapeHtml_injective (a b : string) :
  escapeHtml a = escapeHtml b -> a = b.
Proof.
  unfold escapeHtml. intros H.
  assert (Hc : escapeHtmlChars (chars a) = escapeHtmlChars (chars b)).
  { rewrite <- (list_ascii_of_string_of_list_ascii (escapeHtmlChars (chars a))),
            <- (list_ascii_of_string_of_list_ascii (escapeHtmlChars (chars b))), H.
    reflexivity. }
  clear H.
  assert (Hl : chars a = chars b).
  { revert Hc. generalize (chars b). generalize (chars a). clear a b.
    induction l as [|c l IH]; intros [|d m]; rewrite ?escapeHtmlChars_cons.
    - reflexivity.
    - destruct (escapeChar_head d) as [h [t [-> _]]]. discriminate.
    - destruct (escapeChar_head c) as [h [t [-> _]]]. discriminate.
    - intros H. pose proof (escapeChar_prefix _ _ _ _ H) as ->.
      apply app_inv_head in H. f_equal. apply IH. exact H. }
  unfold chars in Hl.
  rewrite <- (string_of_list_ascii_of_string a), <- (string_of_list_ascii_of_string b), Hl.
  reflexivity.
Qed.

Lemma escapeHtml_injective_witness :
  escapeHtml "<b>Fish & Chips</b>" = escapeHtml "<b>Fish & Chips</b>" /\
  "<b>Fish & Chips</b>"%string = "<b>Fish & Chips</b>"%string.
Proof.
  split; [reflexivity|].
  exact (escapeHtml_injective "<b>Fish & Chips</b>" "<b>Fish & Chips</b>" eq_refl).
Defined.

End EmailFacts.

(** * Proofs: more on the admin order page *)

Module AdminOrdersMore.
Import AdminOrders OrderSamples AdminSamples AdminOrdersFacts.

(** X20.  The server action asks the e-mail service at most once, only with an
    API key set, and only for an address that is not blank, which it
    passes on trimmed; it answers success exactly when the request was
    made and the service reported no error.  The page and the table are
    not touched. *)
Theorem notifyOrderReady_request env e loc w :
  exists emitted,
    snd (notifyOrderReady env e loc w) =
      mkWorld (ordersTable w) (orders w) (updatingId w) (log w ++ emitted) /\
    (forall to subject, In (ResendSend to subject) emitted ->
       to = trimString e /\ to <> ""%string /\ truthy (RESEND_API_KEY env) = true /\
       List.filter (fun x => match x with ResendSend _ _ => true | _ => false end) emitted
         = [ResendSend to subject]) /\
    (fst (notifyOrderReady env e loc w) = Returned SendOk <->
     requested emitted /\ resendError env = None).
Proof.
  rewrite notifyOrderReady_cases. unfold requested.
  destruct (truthy (RESEND_API_KEY env)) eqn:Ek; cbn [negb].
  - destruct (truthy (Some (trimString e))) eqn:Et; cbn [negb].
    + assert (Hne : trimString e <> ""%string).
      { intros H. rewrite H in Et. discriminate. }
      destruct (resendError env) as [err|]; cbn [fst snd];
        eexists; (split; [reflexivity|]); split.
      * intros to subject [H | [H | []]]; [|discriminate].
        injection H as <- <-. auto.
      * split; [discriminate | intros [_ H]; discriminate].
      * intros to subject [H | []]. injection H as <- <-. auto.
      * split; [intros _; split; [do 2 eexists; left; reflexivity | reflexivity] | reflexivity].
    + exists []. rewrite app_nil_r. split; [destruct w; reflexivity|]. split.
      * intros to subject [].
      * split; [discriminate | intros [[to [subject []]] _]].
  - exists []. rewrite app_nil_r. split; [destruct w; reflexivity|]. split.
    + intros to subject [].
    + split; [discriminate | intros [[to [subject []]] _]].
Qed.

(** X21.  Whatever the status, the order and the answers of the outside
    world: the server action is called exactly when the update succeeded,
    the new status is "ready" and the order has an address that is not
    blank; the e-mail service is asked only after such a call; [setStatus]
    throws exactly when the action was called without an API key, and then
    the page stays held on the order, while in every other case it is
    released in the end. *)
Theorem setStatus_notifies_only_ready env w orderId newStatus order :
  exists emitted,
    log (snd (setStatus env orderId newStatus order w)) = log w ++ emitted /\
    (notified emitted <->
     dbUpdateError env = None /\ newStatus = "ready"%string /\ hasEmail order) /\
    (requested emitted -> notified emitted) /\
    (fst (setStatus env orderId newStatus order w) = Thrown <->
     notified emitted /\ truthy (RESEND_API_KEY env) = false) /\
    updatingId (snd (setStatus env orderId newStatus order w)) =
      match fst (setStatus env orderId newStatus order w) with
      | Returned _ => None
      | Thrown => Some orderId
      end.
Proof.
  rewrite setStatus_cases. unfold notified, requested.
  pose proof (truthy_hasEmail order) as Hhas.
  destruct (dbUpdateError env) as [err|] eqn:Hdb.
  - cbn [fst snd log updatingId]. eexists. split; [reflexivity|].
    split; [split; [intros [e [loc [H | [H | []]]]]; discriminate
                   | intros [H _]; discriminate]|].
    split; [intros [to [subject [H | [H | []]]]]; discriminate|].
    split; [|reflexivity].
    split; [discriminate | intros [[e [loc [H | [H | []]]]] _]; discriminate].
  - destruct (String.eqb newStatus "ready" && truthy (trimmedEmail order)) eqn:Ec.
    + apply andb_true_iff in Ec as [Er Et]. apply String.eqb_eq in Er.
      apply Hhas in Et.
      assert (Hcall : forall rest,
        exists e loc,
          In (CallNotifyOrderReady e loc)
             (DbUpdateStatus orderId newStatus ::
              CallNotifyOrderReady (default ""%string (trimmedEmail order))
                (getLocationName order) :: rest)).
      { intros rest. do 2 eexists. right. left. reflexivity. }
      destruct (truthy (RESEND_API_KEY env)) eqn:Ek; cbn [negb].
      * destruct (resendError env); cbn [fst snd log updatingId];
          eexists; (split; [reflexivity|]);
          (split; [split; [intros _; auto | intros _; apply Hcall]|]);
          (split; [intros _; apply Hcall|]);
          (split; [split; [discriminate | intros [_ H]; discriminate] | reflexivity]).
      * cbn [fst snd log updatingId]. eexists. split; [reflexivity|].
        split; [split; [intros _; auto | intros _; apply Hcall]|].
        split; [intros _; apply Hcall|].
        split; [split; [intros _; split; [apply Hcall | reflexivity] | reflexivity]
               | reflexivity].
    + cbn [fst snd log updatingId]. eexists. split; [reflexivity|].
      split.
      { split; [intros [e [loc [H | []]]]; discriminate|].
        intros [_ [Hr He]]. apply Hhas in He.
        apply String.eqb_eq in Hr. rewrite Hr, He in Ec. discriminate. }
      split; [intros [to [subject [H | []]]]; discriminate|].
      split; [|reflexivity].
      split; [discriminate | intros [[e [loc [H | []]]] _]; discriminate].
Qed.

(** X22.  When the update of the table is refused, nothing changes but the log:
    the table and the list on the page are as before, the page is
    released, and the log has the attempted update and the error, with no
    call of the server action. *)
Theorem setStatus_failed_update env w orderId newStatus order err :
  dbUpdateError env = Some err ->
  snd (setStatus env orderId newStatus order w) =
    mkWorld (ordersTable w) (orders w) None
      (log w ++ [DbUpdateStatus orderId newStatus; ConsoleError "Order update error:"]).
Proof.
  intros Hdb. rewrite setStatus_cases, Hdb. reflexivity.
Qed.

Lemma setStatus_failed_update_witness :
  dbUpdateError failingDb = Some "permission denied"%string /\
  snd (setStatus failingDb "o1" "ready" sampleOrder sampleWorld) =
    mkWorld (ordersTable sampleWorld) (orders sampleWorld) None
      (log sampleWorld ++ [DbUpdateStatus "o1" "ready"; ConsoleError "Order update error:"]).
Proof.
  split; [reflexivity|].
  exact (setStatus_failed_update failingDb sampleWorld "o1" "ready" sampleOrder
           "permission denied" eq_refl).
Defined.

Lemma setStatus_state env w orderId newStatus order :
  (dbUpdateError env <> None /\
   ordersTable (snd (setStatus env orderId newStatus order w)) = ordersTable w /\
   orders (snd (setStatus env orderId newStatus order w)) = orders w) \/
  (dbUpdateError env = None /\
   ordersTable (snd (setStatus env orderId newStatus order w)) =
     alter (fun _ => newStatus) orderId (ordersTable w) /\
   orders (snd (setStatus env orderId newStatus order w)) =
     map (fun o => if String.eqb (id o) orderId then withStatus o newStatus else o)
       (orders w)).
Proof.
  rewrite setStatus_cases.
  destruct (dbUpdateError env) as [err|] eqn:Hdb.
  - left. split; [discriminate | split; reflexivity].
  - right. split; [reflexivity|].
    destruct (String.eqb newStatus "ready" && truthy (trimmedEmail order));
      [destruct (negb (truthy (RESEND_API_KEY env))); [|destruct (resendError env)]|];
      split; reflexivity.
Qed.

(** X23.  The page and the table stay in step: when every order on the page
    shows the status its row has in the table, it still does after
    setStatus, whether the update succeeded or not and whatever the e-mail
    service answered. *)
Theorem setStatus_page_matches_table env w orderId newStatus order :
  (forall o, In o (orders w) -> ordersTable w !! id o = Some (status o)) ->
  forall o, In o (orders (snd (setStatus env orderId newStatus order w))) ->
    ordersTable (snd (setStatus env orderId newStatus order w)) !! id o = Some (status o).
Proof.
  intros Hinv o.
  destruct (setStatus_state env w orderId newStatus order) as [[_ [-> ->]] | [_ [-> ->]]].
  - apply Hinv.
  - rewrite in_map_iff. intros [o0 [<- Ho0]]. specialize (Hinv o0 Ho0).
    destruct (String.eqb (id o0) orderId) eqn:E.
    + apply String.eqb_eq in E. subst orderId. cbn [withStatus id status].
      rewrite lookup_alter_eq, Hinv. reflexivity.
    + assert (Hne : orderId <> id o0).
      { intros ->. rewrite String.eqb_refl in E. discriminate. }
      rewrite lookup_alter_ne by exact Hne. exact Hinv.
Qed.

Lemma setStatus_page_matches_table_witness :
  (forall o, In o (orders sampleWorld) -> ordersTable sampleWorld !! id o = Some (status o)) /\
  forall o, In o (orders (snd (setStatus workingEnv "o1" "ready" sampleOrder sampleWorld))) ->
    ordersTable (snd (setStatus workingEnv "o1" "ready" sampleOrder sampleWorld)) !! id o
      = Some (status o).
Proof.
  assert (H : forall o, In o (orders sampleWorld) ->
                ordersTable sampleWorld !! id o = Some (status o)).
  { intros o [<- | []]. reflexivity. }
  split; [exact H|].
  exact (setStatus_page_matches_table workingEnv sampleWorld "o1" "ready" sampleOrder H).
Defined.

End AdminOrdersMore.

(** * Proofs: the order form and placeOrder *)

Module OrderSubmitFacts.
Import Geo EventList OrderForm OrderSubmit SubmitSamples.
Import GeoFacts EventListFacts OriginFacts.

(** ** sortCategories *)

Lemma indexOf_lt x l i : indexOf x l = Some i -> i < length l.
Proof.
  revert i. induction l as [|y l IH]; intros i; simpl; [discriminate|].
  destruct (String.eqb y x); [intros [= <-]; lia|].
  destruct (indexOf x l) as [j|]; simpl; [|discriminate].
  intros [= <-]. specialize (IH j eq_refl). lia.
Qed.

Section CategoryFacts.
Variable localeCompare : string -> string -> sign.
Hypothesis localeCompare_asym :
  forall a b, comesAfter (localeCompare a b) = true -> comesAfter (localeCompare b a) = false.
Hypothesis localeCompare_trans :
  forall a b c, comesAfter (localeCompare a b) = false ->
                comesAfter (localeCompare b c) = false ->
                comesAfter (localeCompare a c) = false.

Lemma compareCategories_total x y :
  comesAfter (compareCategories localeCompare x y) = true ->
  mayPrecede (compareCategories localeCompare) y x.
Proof.
  unfold mayPrecede, compareCategories.
  destruct (categoryIndex x) as [i|], (categoryIndex y) as [j|]; simpl; try congruence.
  - destruct (i <? j) eqn:E1; simpl; [discriminate|].
    destruct (j <? i) eqn:E2; simpl; [reflexivity | discriminate].
  - apply localeCompare_asym.
Qed.

Lemma compareCategories_trans x y z :
  mayPrecede (compareCategories localeCompare) x y ->
  mayPrecede (compareCategories localeCompare) y z ->
  mayPrecede (compareCategories localeCompare) x z.
Proof.
  unfold mayPrecede, compareCategories.
  destruct (categoryIndex x) as [i|], (categoryIndex y) as [j|],
           (categoryIndex z) as [k|]; simpl; try congruence.
  - destruct (i <? j) eqn:E1, (j <? i) eqn:E2, (j <? k) eqn:E3, (k <? j) eqn:E4,
             (i <? k) eqn:E5, (k <? i) eqn:E6; simpl; try congruence;
      rewrite ?Nat.ltb_lt, ?Nat.ltb_ge in *; lia.
  - apply localeCompare_trans.
Qed.

Lemma compareCategories_place a b :
  mayPrecede (compareCategories localeCompare) a b ->
  categoryPlace a <= categoryPlace b /\
  (categoryIndex a = None -> categoryIndex b = None ->
   comesAfter (localeCompare a b) = false).
Proof.
  unfold mayPrecede, compareCategories, categoryPlace.
  destruct (categoryIndex a) as [i|] eqn:Ea, (categoryIndex b) as [j|] eqn:Eb; simpl.
  - destruct (i <? j) eqn:E1; [rewrite Nat.ltb_lt in E1; intros _; split; [lia | discriminate]|].
    destruct (j <? i) eqn:E2; simpl; [discriminate|].
    rewrite Nat.ltb_ge in *. intros _. split; [lia | discriminate].
  - intros _. apply indexOf_lt in Ea. simpl in Ea. split; [lia | discriminate].
  - discriminate.
  - intros H. split; [lia | intros _ _; exact H].
Qed.

(** X24.  With a [localeCompare] that orders the strings, the sorted categories
    are the given ones, each as often as given; the categories of the
    fixed order come first, in that order, whatever their case; the others
    follow, in the order of [localeCompare]; and categories at the same
    place of the fixed order keep the order they were given in. *)
Theorem sortCategories_order (categories : list string) :
  Permutation (sortCategories localeCompare categories) categories /\
  StronglySorted
    (fun a b =>
       categoryPlace a <= categoryPlace b /\
       (categoryIndex a = None -> categoryIndex b = None ->
        comesAfter (localeCompare a b) = false))
    (sortCategories localeCompare categories) /\
  (forall i,
     List.filter (fun a => categoryPlace a =? i) (sortCategories localeCompare categories) =
     List.filter (fun a => categoryPlace a =? i) categories \/
     i = length CATEGORY_ORDER).
Proof.
  split; [apply sort_Permutation | split].
  - eapply StronglySorted_impl; [apply compareCategories_place|].
    apply sort_sorted; [exact compareCategories_total | exact compareCategories_trans].
  - intros i. destruct (Nat.eq_dec i (length CATEGORY_ORDER)) as [Hi | Hi]; [right; exact Hi|].
    left. apply sort_stable. intros x y Hx Hy.
    apply Nat.eqb_eq in Hx, Hy. unfold mayPrecede, compareCategories.
    unfold categoryPlace in Hx, Hy.
    destruct (categoryIndex x) as [a|]; [|exfalso; apply Hi; rewrite <- Hx; reflexivity].
    destruct (categoryIndex y) as [b|]; [|exfalso; apply Hi; rewrite <- Hy; reflexivity].
    simpl in Hx, Hy. subst a b. rewrite Nat.ltb_irrefl. reflexivity.
Qed.

End CategoryFacts.

Lemma sortCategories_order_witness :
  (forall a b, comesAfter (Origin.defaultCompare a b) = true ->
               comesAfter (Origin.defaultCompare b a) = false) /\
  (forall a b c, comesAfter (Origin.defaultCompare a b) = false ->
                 comesAfter (Origin.defaultCompare b c) = false ->
                 comesAfter (Origin.defaultCompare a c) = false) /\
  Permutation (sortCategories Origin.defaultCompare ["Sides"; "Extras"; "FISH"; "fish"]%string)
    ["Sides"; "Extras"; "FISH"; "fish"]%string.
Proof.
  assert (H1 : forall a b, comesAfter (Origin.defaultCompare a b) = true ->
                           comesAfter (Origin.defaultCompare b a) = false).
  { intros a b H. apply mayPrecede_default.
    unfold Origin.defaultCompare in H. destruct (Origin.textLtb a b); [discriminate | reflexivity]. }
  assert (H2 : forall a b c, comesAfter (Origin.defaultCompare a b) = false ->
                             comesAfter (Origin.defaultCompare b c) = false ->
                             comesAfter (Origin.defaultCompare a c) = false).
  { intros a b c Hab Hbc. apply mayPrecede_default.
    apply mayPrecede_default in Hab. apply mayPrecede_default in Hbc.
    eapply textLtb_chain; eassumption. }
  split; [exact H1 | split; [exact H2|]].
  exact (proj1 (sortCategories_order Origin.defaultCompare H1 H2
                  ["Sides"; "Extras"; "FISH"; "fish"]%string)).
Defined.

(** ** setQuantity *)

Lemma lookupQuantity_insert_eq k c (m : gmap string count) :
  lookupQuantity (<[k := c]> m) k = Some c.
Proof. unfold lookupQuantity. rewrite lookup_insert_eq. reflexivity. Qed.

Lemma lookupQuantity_insert_ne k k' c (m : gmap string count) :
  k <> k' -> lookupQuantity (<[k := c]> m) k' = lookupQuantity m k'.
Proof. intros H. unfold lookupQuantity. rewrite lookup_insert_ne by exact H. reflexivity. Qed.

(** X25.  For an item id that is not the name of a property of
    [Object.prototype], counts never go below zero: when every count is a
    number not below zero it still is after a press of a button, the
    counts of the other items are as before, and a press of + followed by
    a press of - leaves every count as it was. *)
Theorem setQuantity_counts (itemId : string) (delta : Z) (prev : gmap string count) :
  inherited itemId = false ->
  countsValid prev ->
  countsValid (setQuantity itemId delta prev) /\
  (forall k, k <> itemId ->
     lookupQuantity (setQuantity itemId delta prev) k = lookupQuantity prev k) /\
  (forall k, lookupQuantity (setQuantity itemId (-1) (setQuantity itemId 1 prev)) k
             = lookupQuantity prev k).
Proof.
  intros Hid Hprev.
  destruct (Hprev itemId Hid) as [n [Hn Hpos]].
  assert (Hnext : forall d, nextCount prev itemId d = Count (Z.max 0 (n + d))).
  { intros d. unfold nextCount. rewrite Hn. reflexivity. }
  split; [|split].
  - intros k Hk. unfold setQuantity. destruct (decide (itemId = k)) as [<- | Hne].
    + rewrite lookupQuantity_insert_eq, Hnext. eexists. split; [reflexivity | lia].
    + rewrite lookupQuantity_insert_ne by exact Hne. apply Hprev. exact Hk.
  - intros k Hk. unfold setQuantity. apply lookupQuantity_insert_ne. congruence.
  - intros k. unfold setQuantity at 1. destruct (decide (itemId = k)) as [<- | Hne].
    + rewrite lookupQuantity_insert_eq. unfold nextCount, setQuantity.
      rewrite lookupQuantity_insert_eq, Hnext, Hn. f_equal. f_equal. lia.
    + rewrite lookupQuantity_insert_ne by exact Hne.
      unfold setQuantity. apply lookupQuantity_insert_ne. exact Hne.
Qed.

Lemma sampleCounts_valid : countsValid sampleCounts.
Proof.
  intros k Hk. unfold sampleCounts.
  destruct (decide ("m1"%string = k)) as [<- | H1].
  { rewrite lookupQuantity_insert_eq. eexists. split; [reflexivity | lia]. }
  rewrite lookupQuantity_insert_ne by exact H1.
  destruct (decide ("m2"%string = k)) as [<- | H2].
  { rewrite lookupQuantity_insert_eq. eexists. split; [reflexivity | lia]. }
  rewrite lookupQuantity_insert_ne by exact H2.
  unfold lookupQuantity. rewrite lookup_empty, Hk. eexists. split; [reflexivity | lia].
Qed.

Lemma setQuantity_counts_witness :
  inherited "m2" = false /\ countsValid sampleCounts /\
  countsValid (setQuantity "m2" (-1) sampleCounts).
Proof.
  split; [reflexivity | split; [exact sampleCounts_valid|]].
  exact (proj1 (setQuantity_counts "m2" (-1) sampleCounts eq_refl sampleCounts_valid)).
Defined.

(** Under the name of a property of [Object.prototype] the count becomes
    NaN at the first press and stays NaN. *)
Example setQuantity_constructor :
  lookupQuantity (setQuantity "constructor" 1 ∅) "constructor" = Some NotANumber /\
  lookupQuantity (setQuantity "constructor" (-1) (setQuantity "constructor" 1 ∅))
    "constructor" = Some NotANumber.
Proof. split; reflexivity. Qed.

(** ** The form and the server action *)

Lemma trimmed_chars s : chars (trimmed s) = trim (chars s).
Proof. unfold trimmed, text. apply chars_of_string. Qed.

Lemma trimmed_idem s : trimmed (trimmed s) = trimmed s.
Proof. unfold trimmed at 1. rewrite trimmed_chars, trim_idem. reflexivity. Qed.

Lemma isEmpty_nil (l : list ascii) : isEmpty l = true <-> l = [].
Proof. destruct l; simpl; split; congruence. Qed.

Section SubmitFacts.
Context {num : Type}.
Variable getPrice : MenuItem -> num.
Variable zero : num.
Variable add mul : num -> num -> num.
Variable ofInt : Z -> num.

Local Abbreviation line := (fun i : OrderItemInput (num := num) =>
                              (item_name i, quantity i, item_price i)).

Lemma submitted_lines (q : gmap string Z) (l : list MenuItem) :
  map line
    (map (fun m => mkOrderItemInput (OrderForm.id m) (quantityOf q (OrderForm.id m))
                     (OrderForm.name m) (getPrice m))
       (List.filter (fun m => (0 <? quantityOf q (OrderForm.id m))%Z) l)) =
  map (fun l => (OrderForm.name (item l), qty l, getPrice (item l))) (lineItemsOf q l).
Proof.
  induction l as [|m l IH]; simpl; [reflexivity|].
  unfold quantityOf in *.
  destruct (0 <? default 0 (q !! OrderForm.id m))%Z; simpl; [f_equal|]; exact IH.
Qed.

Lemma submitted_positive menuItems form :
  positiveItems (submittedItems getPrice menuItems form) =
  submittedItems getPrice menuItems form.
Proof.
  unfold submittedItems, positiveItems.
  induction (filteredMenuItems menuItems (form_orderType form)) as [|m l IH];
    simpl; [reflexivity|].
  destruct (0 <? quantityOf (form_quantities form) (OrderForm.id m))%Z eqn:E; simpl.
  - rewrite E. f_equal. exact IH.
  - exact IH.
Qed.

(** X26.  The form calls the server action exactly when the name and the e-mail
    address are not blank, and then with both trimmed; the items it hands
    over are, line for line, the lines its confirmation shows (name,
    quantity and unit price), and each has a positive quantity.  Nothing
    asks for at least one item. *)
Theorem handleSubmit_request eventId menuItems form :
  match handleSubmit getPrice eventId menuItems form with
  | ShowError _ =>
      trim (chars (form_name form)) = [] \/ trim (chars (form_email form)) = []
  | CallPlaceOrder eid orderData items =>
      eid = eventId /\
      chars (customer_name orderData) = trim (chars (form_name form)) /\
      chars (customer_name orderData) <> [] /\
      chars (customer_email orderData) = trim (chars (form_email form)) /\
      chars (customer_email orderData) <> [] /\
      map line items = confirmationLines getPrice menuItems form /\
      List.Forall (fun i => (0 < quantity i)%Z) items
  end.
Proof.
  unfold handleSubmit.
  destruct (isEmpty (trim (chars (form_name form)))) eqn:En;
    [left; apply isEmpty_nil; exact En|].
  destruct (isEmpty (trim (chars (form_email form)))) eqn:Ee;
    [right; apply isEmpty_nil; exact Ee|].
  cbn [customer_name customer_email]. rewrite !trimmed_chars.
  split; [reflexivity|]. split; [reflexivity|].
  split; [intros H; apply isEmpty_nil in H; congruence|].
  split; [reflexivity|].
  split; [intros H; apply isEmpty_nil in H; congruence|].
  split; [apply submitted_lines|].
  unfold submittedItems. apply List.Forall_forall. intros i Hi.
  apply in_map_iff in Hi as [m [<- Hm]]. apply filter_In in Hm as [_ Hm].
  simpl. apply Z.ltb_lt. exact Hm.
Qed.

Local Abbreviation place := (placeOrder zero add mul ofInt).

(** The shapes the run of the action can take. *)
Lemma placeOrder_cases env eventId orderData items :
  let row := newOrder eventId orderData in
  (exists message,
     (snd (insertOrder env row) = Some message \/
      (insertOrder env row = (None, None) /\ message = "Failed to create order"%string)) /\
     place env eventId orderData items =
       (Failure message, [InsertOrder row; ConsoleError "Order insert error:"])) \/
  (exists order message,
     insertOrder env row = (Some order, None) /\
     positiveItems items <> [] /\
     insertOrderItems env (orderItemRows order items) = Some message /\
     place env eventId orderData items =
       (Failure message,
        [InsertOrder row; InsertOrderItems (orderItemRows order items);
         ConsoleError "Order items insert error:"])) \/
  (exists order,
     insertOrder env row = (Some order, None) /\
     (positiveItems items = [] \/ insertOrderItems env (orderItemRows order items) = None) /\
     place env eventId orderData items =
       (Success (mkInsertedOrder (inserted_id order) (inserted_customer_name order)),
        [InsertOrder row] ++
        match positiveItems items with
        | [] => []
        | _ :: _ => [InsertOrderItems (orderItemRows order items)]
        end ++
        (if isEmpty (trim (chars (customer_email orderData))) then []
         else [SelectEvent eventId;
               SendOrderConfirmation (trimmed (customer_email orderData))
                 (confirmationData zero add mul ofInt env eventId orderData items)]))).
Proof.
  intros row. unfold placeOrder. fold row.
  destruct (insertOrder env row) as [[order|] [message|]] eqn:Ei; cbn [snd].
  - left. exists message. split; [left; reflexivity | reflexivity].
  - right.
    assert (Hnil : orderItemRows order items = [] <-> positiveItems items = []).
    { unfold orderItemRows. destruct (positiveItems items); simpl; split; congruence. }
    destruct (orderItemRows order items) as [|r rest] eqn:Hrows; cbn [length Nat.ltb Nat.leb].
    + right. exists order. rewrite Hrows. split; [reflexivity|].
      split; [left; apply Hnil; reflexivity|].
      rewrite (proj1 Hnil eq_refl), trimmed_chars. reflexivity.
    + assert (Hne : positiveItems items <> []).
      { intros H. apply Hnil in H. discriminate. }
      destruct (insertOrderItems env (r :: rest)) as [message|] eqn:Ee.
      * left. exists order, message. rewrite Hrows. split; [reflexivity|].
        split; [exact Hne|]. split; [exact Ee|]. reflexivity.
      * right. exists order. rewrite Hrows. split; [reflexivity|].
        split; [right; exact Ee|].
        rewrite trimmed_chars.
        destruct (positiveItems items); [congruence | reflexivity].
  - left. exists message. split; [left; reflexivity | reflexivity].
  - left. exists "Failed to create order"%string. split; [right; auto | reflexivity].
Qed.

Lemma positiveItems_Forall (items : list (OrderItemInput (num := num))) :
  List.Forall (fun i => (0 < quantity i)%Z) (positiveItems items).
Proof.
  apply List.Forall_forall. intros i Hi. apply filter_In in Hi as [_ Hi].
  apply Z.ltb_lt. exact Hi.
Qed.

Lemma placeOrder_rows_aux env eventId orderData items rows :
  In (InsertOrderItems rows) (snd (place env eventId orderData items)) ->
  exists order,
    insertOrder env (newOrder eventId orderData) = (Some order, None) /\
    rows = orderItemRows order items /\
    rows <> [] /\
    map (fun r => (row_item_name r, row_quantity r, row_item_price r)) rows =
      map line (positiveItems items) /\
    List.Forall (fun r => (0 < row_quantity r)%Z /\ row_order_id r = inserted_id order)
      rows.
Proof.
  assert (Hrows : forall order,
    positiveItems items <> [] ->
    orderItemRows order items <> [] /\
    map (fun r => (row_item_name r, row_quantity r, row_item_price r))
      (orderItemRows order items) = map line (positiveItems items) /\
    List.Forall (fun r => (0 < row_quantity r)%Z /\ row_order_id r = inserted_id order)
      (orderItemRows order items)).
  { intros order Hne. unfold orderItemRows. split; [|split].
    - destruct (positiveItems items); [congruence | discriminate].
    - rewrite map_map. reflexivity.
    - apply List.Forall_forall. intros r Hr. apply in_map_iff in Hr as [i [<- Hi]].
      simpl. split; [|reflexivity].
      pose proof (positiveItems_Forall items) as Hp.
      rewrite List.Forall_forall in Hp. apply Hp. exact Hi. }
  destruct (placeOrder_cases env eventId orderData items)
    as [[message [_ ->]] | [[order [message [Hi [Hne [_ ->]]]]] | [order [Hi [_ ->]]]]];
    cbn [snd].
  - intros [H | [H | []]]; discriminate.
  - intros [H | [H | [H | []]]]; try discriminate.
    injection H as <-. exists order. split; [exact Hi|]. split; [reflexivity|].
    apply Hrows. exact Hne.
  - intros [H | H]; [discriminate|]. cbn [app] in H. apply in_app_or in H as [H | H].
    + pose proof (Hrows order) as Hr.
      destruct (positiveItems items) as [|i rest]; [contradiction|].
      destruct H as [H | []]. injection H as <-.
      exists order. split; [exact Hi|]. split; [reflexivity|]. apply Hr. discriminate.
    + destruct (isEmpty (trim (chars (customer_email orderData)))); [contradiction|].
      destruct H as [H | [H | []]]; discriminate.
Qed.

(** X27.  The action inserts item rows at most once, and only after the order
    was inserted without an error; the rows are the given items of
    positive quantity, in the given order, each under the id of the
    inserted order; there is at least one, so that an order without such
    an item makes no insert into the items table at all. *)
Theorem placeOrder_item_rows env eventId orderData items :
  (forall rows,
     In (InsertOrderItems rows) (snd (place env eventId orderData items)) ->
     exists order,
       insertOrder env (newOrder eventId orderData) = (Some order, None) /\
       rows = orderItemRows order items /\
       rows <> [] /\
       map (fun r => (row_item_name r, row_quantity r, row_item_price r)) rows =
         map line (positiveItems items) /\
       List.Forall (fun r => (0 < row_quantity r)%Z /\ row_order_id r = inserted_id order)
         rows) /\
  length (List.filter (fun e => match e with InsertOrderItems _ => true | _ => false end)
            (snd (place env eventId orderData items))) <= 1.
Proof.
  split; [intros rows; apply placeOrder_rows_aux|].
  destruct (placeOrder_cases env eventId orderData items)
    as [[message [_ ->]] | [[order [message [_ [_ [_ ->]]]]] | [order [_ [_ ->]]]]];
    cbn [snd]; [simpl; lia | simpl; lia |].
  destruct (positiveItems items);
    destruct (isEmpty (trim (chars (customer_email orderData)))); simpl; lia.
Qed.

(** X28.  A confirmation is handed to the e-mail module exactly when the action
    succeeds and the customer's address is not blank; it goes to the
    trimmed address, once, after the inserts, and lists the given items of
    positive quantity with their total. *)
Theorem placeOrder_mail env eventId orderData items :
  (mailed (snd (place env eventId orderData items)) <->
   (exists order, fst (place env eventId orderData items) = Success order) /\
   trim (chars (customer_email orderData)) <> []) /\
  (forall to data,
     In (SendOrderConfirmation to data) (snd (place env eventId orderData items)) ->
     to = trimmed (customer_email orderData) /\
     OrderSubmit.items data = map line (positiveItems items) /\
     total data = orderTotal zero add mul ofInt (positiveItems items) /\
     exists before,
       snd (place env eventId orderData items) =
         before ++ [SelectEvent eventId; SendOrderConfirmation to data] /\
       ~ mailed before).
Proof.
  unfold mailed.
  destruct (placeOrder_cases env eventId orderData items)
    as [[message [_ ->]] | [[order [message [Hi [Hne [_ ->]]]]] | [order [Hi [_ ->]]]]];
    cbn [fst snd].
  - split.
    + split; [intros [to [d [H | [H | []]]]]; discriminate | intros [[o H] _]; discriminate].
    + intros to d [H | [H | []]]; discriminate.
  - split.
    + split; [intros [to [d [H | [H | [H | []]]]]]; discriminate
             | intros [[o H] _]; discriminate].
    + intros to d [H | [H | [H | []]]]; discriminate.
  - destruct (isEmpty (trim (chars (customer_email orderData)))) eqn:Ee.
    + apply isEmpty_nil in Ee. split.
      * split; [|intros [_ H]; congruence].
        intros [to [d H]]. exfalso.
        destruct (positiveItems items); simpl in H;
          repeat (destruct H as [H | H]; try discriminate H); contradiction.
      * intros to d H. exfalso.
        destruct (positiveItems items); simpl in H;
          repeat (destruct H as [H | H]; try discriminate H); contradiction.
    + assert (Hne : trim (chars (customer_email orderData)) <> []).
      { intros H. apply isEmpty_nil in H. congruence. }
      split.
      * split; [intros _; split; [eexists; reflexivity | exact Hne]|].
        intros _. do 2 eexists. apply in_or_app. right. apply in_or_app. right.
        right. left. reflexivity.
      * intros to d H.
        assert (Hd : SendOrderConfirmation to d =
                     SendOrderConfirmation (trimmed (customer_email orderData))
                       (confirmationData zero add mul ofInt env eventId orderData items)).
        { destruct (positiveItems items); simpl in H;
            repeat (destruct H as [H | H]; try discriminate H); try contradiction;
            symmetry; exact H. }
        injection Hd as -> ->.
        split; [reflexivity|]. split; [reflexivity|]. split; [reflexivity|].
        eexists. split; [rewrite app_assoc; reflexivity|].
        intros [to [d' H']]. apply in_app_or in H' as [[H' | []] | H']; [discriminate|].
        destruct (positiveItems items); simpl in H'; [contradiction|].
        destruct H' as [H' | []]. discriminate.
Qed.

(** X29.  When the action reports a failure no confirmation is sent, and the
    insert into the orders table was attempted.  Either that insert
    failed, and nothing else was done; or the order was inserted and the
    insert of its items was refused: then the order stays in the table
    without items, for nothing takes it out again. *)
Theorem placeOrder_failure env eventId orderData items message :
  fst (place env eventId orderData items) = Failure message ->
  ~ mailed (snd (place env eventId orderData items)) /\
  ((fst (insertOrder env (newOrder eventId orderData)) = None \/
    snd (insertOrder env (newOrder eventId orderData)) <> None) /\
   snd (place env eventId orderData items) =
     [InsertOrder (newOrder eventId orderData); ConsoleError "Order insert error:"]
   \/
   exists order,
     insertOrder env (newOrder eventId orderData) = (Some order, None) /\
     insertOrderItems env (orderItemRows order items) = Some message /\
     snd (place env eventId orderData items) =
       [InsertOrder (newOrder eventId orderData);
        InsertOrderItems (orderItemRows order items);
        ConsoleError "Order items insert error:"]).
Proof.
  unfold mailed.
  destruct (placeOrder_cases env eventId orderData items)
    as [[m [Hm ->]] | [[order [m [Hi [Hne [He ->]]]]] | [order [Hi [_ ->]]]]];
    cbn [fst snd]; intros Hf; [| |discriminate].
  - split; [intros [to [d [H | [H | []]]]]; discriminate|].
    left. split; [|reflexivity].
    destruct Hm as [Hm | [Hm _]]; [right; rewrite Hm; discriminate | left; rewrite Hm; reflexivity].
  - injection Hf as ->.
    split; [intros [to [d [H | [H | [H | []]]]]]; discriminate|].
    right. exists order. auto.
Qed.

(** X30.  An order submitted through the form: the order row carries the event,
    the trimmed name and the trimmed address; the item rows are, line for
    line, the lines of the form's confirmation, none being dropped by the
    action; and when the action succeeds the confirmation e-mail goes to
    the trimmed address with the same lines. *)
Theorem submitted_order_confirmed env eventId menuItems form eid orderData items :
  handleSubmit getPrice eventId menuItems form = CallPlaceOrder eid orderData items ->
  positiveItems items = items /\
  (forall row, In (InsertOrder row) (snd (place env eid orderData items)) ->
     new_event_id row = eventId /\
     new_customer_name row = trimmed (form_name form) /\
     new_customer_email row = Some (trimmed (form_email form))) /\
  (forall rows, In (InsertOrderItems rows) (snd (place env eid orderData items)) ->
     map (fun r => (row_item_name r, row_quantity r, row_item_price r)) rows =
       confirmationLines getPrice menuItems form) /\
  (forall order, fst (place env eid orderData items) = Success order ->
     exists data,
       In (SendOrderConfirmation (trimmed (form_email form)) data)
          (snd (place env eid orderData items)) /\
       OrderSubmit.items data = confirmationLines getPrice menuItems form).
Proof.
  unfold handleSubmit.
  destruct (isEmpty (trim (chars (form_name form)))) eqn:En; [discriminate|].
  destruct (isEmpty (trim (chars (form_email form)))) eqn:Ee; [discriminate|].
  intros H. injection H as <- <- <-.
  pose proof (submitted_positive menuItems form) as Hpos.
  assert (Hlines : map line (positiveItems (submittedItems getPrice menuItems form)) =
                   confirmationLines getPrice menuItems form).
  { rewrite Hpos. apply submitted_lines. }
  split; [exact Hpos|].
  assert (Hrow : forall row, In (InsertOrder row)
                   (snd (place env eventId
                      (mkOrderData (trimmed (form_name form)) (trimmed (form_phone form))
                         (trimmed (form_email form)) (form_orderType form)
                         (trimmed (form_preferredPickupTime form)) (trimmed (form_notes form))
                         (OrderForm.estimatedWaitMinutes
                            (lineItems menuItems (form_orderType form) (form_quantities form))))
                      (submittedItems getPrice menuItems form))) ->
                 new_event_id row = eventId /\
                 new_customer_name row = trimmed (form_name form) /\
                 new_customer_email row = Some (trimmed (form_email form))).
  { intros row Hin.
    assert (Hr : row = newOrder eventId
                   (mkOrderData (trimmed (form_name form)) (trimmed (form_phone form))
                      (trimmed (form_email form)) (form_orderType form)
                      (trimmed (form_preferredPickupTime form)) (trimmed (form_notes form))
                      (OrderForm.estimatedWaitMinutes
                         (lineItems menuItems (form_orderType form) (form_quantities form))))).
    { match type of Hin with
      | In _ (snd (place ?e ?i ?d ?it)) =>
          destruct (placeOrder_cases e i d it)
            as [[m [_ Hp]] | [[order [m [_ [_ [_ Hp]]]]] | [order [_ [_ Hp]]]]];
          rewrite Hp in Hin; cbn [snd] in Hin
      end.
      - destruct Hin as [H | [H | []]]; [injection H as <-; reflexivity | discriminate].
      - destruct Hin as [H | [H | [H | []]]]; try discriminate.
        injection H as <-. reflexivity.
      - destruct Hin as [H | Hin]; [injection H as <-; reflexivity|]. exfalso.
        cbn [app] in Hin. apply in_app_or in Hin as [Hin | Hin].
        + match type of Hin with
          | In _ (match ?l with [] => _ | _ :: _ => _ end) => destruct l
          end; [contradiction|].
          destruct Hin as [H | []]. discriminate.
        + match type of Hin with
          | In _ (if ?b then _ else _) => destruct b
          end; [contradiction|].
          destruct Hin as [H | [H | []]]; discriminate. }
    subst row. unfold newOrder. cbn [new_event_id new_customer_name new_customer_email
      customer_name customer_email].
    split; [reflexivity|]. split; [apply trimmed_idem|].
    unfold trimmedOrNull. rewrite trimmed_chars, trim_idem, Ee, trimmed_idem. reflexivity. }
  split; [exact Hrow|]. split.
  - intros rows Hin.
    destruct (placeOrder_rows_aux env eventId _ _ rows Hin)
      as [order [_ [_ [_ [Hmap _]]]]].
    rewrite Hmap. exact Hlines.
  - intros order Hs.
    match goal with
    | |- context [place ?e ?i ?d ?it] =>
        destruct (placeOrder_cases e i d it)
          as [[m [_ Hp]] | [[order' [m [_ [_ [_ Hp]]]]] | [order' [_ [_ Hp]]]]];
        rewrite Hp in *; cbn [fst snd] in *
    end; try discriminate.
    cbn [customer_email]. rewrite trimmed_chars, trim_idem, Ee, trimmed_idem.
    eexists. split.
    + apply in_or_app. right. apply in_or_app. right. right. left. reflexivity.
    + cbn [confirmationData OrderSubmit.items]. exact Hlines.
Qed.

End SubmitFacts.

Lemma placeOrder_failure_witness :
  fst (placeOrder 0%Z Z.add Z.mul (fun z => z) itemsRefused "e1" sampleOrderData sampleItems)
    = Failure "items refused" /\
  ~ mailed (snd (placeOrder 0%Z Z.add Z.mul (fun z => z) itemsRefused "e1" sampleOrderData
                   sampleItems)).
Proof.
  assert (H : fst (placeOrder 0%Z Z.add Z.mul (fun z => z) itemsRefused "e1" sampleOrderData
                     sampleItems) = Failure "items refused") by (vm_compute; reflexivity).
  split; [exact H|].
  exact (proj1 (placeOrder_failure 0%Z Z.add Z.mul (fun z => z) itemsRefused "e1"
                  sampleOrderData sampleItems "items refused" H)).
Defined.

Lemma submitted_order_confirmed_witness :
  handleSubmit samplePrice "e1" sampleMenu sampleForm =
    CallPlaceOrder "e1" sampleOrderData submittedSample /\
  positiveItems submittedSample = submittedSample.
Proof.
  assert (H : handleSubmit samplePrice "e1" sampleMenu sampleForm =
              CallPlaceOrder "e1" sampleOrderData submittedSample)
    by (vm_compute; reflexivity).
  split; [exact H|].
  exact (proj1 (submitted_order_confirmed samplePrice 0%Z Z.add Z.mul (fun z => z) sampleEnv
                  "e1" sampleMenu sampleForm "e1" sampleOrderData submittedSample H)).
Defined.

End OrderSubmitFacts.
